(** * Round settlement, liability calculation and outcome selection

    A shallow embedding of the betting core of the colour-prediction
    backend: [config/constants.js], [services/profitEngine.service.js],
    [services/gameAdmin.service.js] and [services/bet.service.js], with the
    result analysis of [services/riskDashboard.service.js] and the
    minimum-bet strategy of [services/gameService.js].

    Modelling conventions.
    - JavaScript numbers and Prisma [Decimal] columns are exact rationals
      ([Qc], canonical fractions with Leibniz equality).  [NaN] and the
      two-decimal rounding of the [DECIMAL(15,2)] columns are outside the
      model.  The rounding of doubles moves an amount in its last bits
      only, but it can decide a comparison: module [Double] repeats the
      liability calculation in binary64, and a theorem whose outcome hangs
      on a flag of a candidate or on the order of the ranking assumes that
      the two calculations decide alike ([decidedAlike]).
    - Strings are strings of 8-bit characters, and [toUpperCase] is the
      method on strings of ASCII characters ([isASCII]).
    - The Prisma client is a store [DB] of four tables.  Tables with a
      primary key are finite maps from the key to the row; the append-only
      transaction log is a list.
    - An [async] function that touches the store is a computation in the
      monad [Async]: it receives the store and returns a completion
      (a value or a thrown error) together with the store it leaves behind.
      [prisma.$transaction] restores the store when its body throws.
    - [Math.random()] and [new Date()] are arguments of the functions that
      call them. *)

From Stdlib Require Import QArith Qcanon Qround Ascii PrimFloat.
From stdpp Require Import gmap strings list fin_maps numbers sorting.

Open Scope Qc_scope.

(** ** JavaScript primitives *)

(** [String.prototype.toUpperCase] on a string of ASCII characters: the
    letters a to z go to A to Z and every other character stays.  On other
    strings the method does more, and maps two characters to ASCII letters:
    U+017F to S and U+0131 to I. *)
Definition toUpperCase_ascii (a : Ascii.ascii) : Ascii.ascii :=
  let n := Ascii.N_of_ascii a in
  if ((97 <=? n) && (n <=? 122))%N then Ascii.ascii_of_N (n - 32) else a.

Fixpoint toUpperCase (s : string) : string :=
  match s with
  | EmptyString => EmptyString
  | String a s' => String (toUpperCase_ascii a) (toUpperCase s')
  end.

(** The strings of ASCII characters. *)
Fixpoint isASCII (s : string) : bool :=
  match s with
  | EmptyString => true
  | String a s' => (Ascii.N_of_ascii a <? 128)%N && isASCII s'
  end.

(** White space skipped by [parseInt] (the ASCII part of StrWhiteSpaceChar). *)
Definition isStrWhiteSpaceChar (a : Ascii.ascii) : bool :=
  let n := Ascii.N_of_ascii a in
  ((n =? 9) || (n =? 10) || (n =? 11) || (n =? 12) || (n =? 13) || (n =? 32))%N.

Fixpoint trimStart (s : string) : string :=
  match s with
  | EmptyString => EmptyString
  | String a s' => if isStrWhiteSpaceChar a then trimStart s' else s
  end.

(** Value of a character read as a digit in some radix up to 36. *)
Definition digitValue (a : Ascii.ascii) : option Z :=
  let n := Z.of_N (Ascii.N_of_ascii a) in
  if ((48 <=? n) && (n <=? 57))%Z then Some (n - 48)%Z
  else if ((97 <=? n) && (n <=? 122))%Z then Some (n - 87)%Z
  else if ((65 <=? n) && (n <=? 90))%Z then Some (n - 55)%Z
  else None.

(** The longest prefix of radix digits; [None] (NaN) when it is empty. *)
Fixpoint parseDigits (radix : Z) (s : string) (acc : option Z) : option Z :=
  match s with
  | EmptyString => acc
  | String a s' =>
      match digitValue a with
      | Some d =>
          if (d <? radix)%Z
          then parseDigits radix s' (Some (radix * default 0%Z acc + d)%Z)
          else acc
      | None => acc
      end
  end.

(** [parseInt(s)] without a radix argument: leading white space, an optional
    sign, an optional [0x]/[0X] prefix selecting radix 16, then digits.
    [None] stands for [NaN]. *)
Definition parseInt (s : string) : option Z :=
  let s1 := trimStart s in
  let '(sign, s2) :=
    match s1 with
    | String "-"%char r => ((-1)%Z, r)
    | String "+"%char r => (1%Z, r)
    | _ => (1%Z, s1)
    end in
  let '(radix, s3) :=
    match s2 with
    | String "0"%char (String "x"%char r) => (16%Z, r)
    | String "0"%char (String "X"%char r) => (16%Z, r)
    | _ => (10%Z, s2)
    end in
  (λ v, (sign * v)%Z) <$> parseDigits radix s3 None.

(** [/^[0-9]$/.test(s)]: the string is exactly one decimal digit. *)
Definition isSingleDigit (s : string) : bool :=
  match s with
  | String a EmptyString =>
      let n := Ascii.N_of_ascii a in ((48 <=? n) && (n <=? 57))%N
  | _ => false
  end.

(** A decimal literal [n/d]. *)
Definition dec (n : Z) (d : positive) : Qc := Q2Qc (n # d).

(** [Math.floor]. *)
Definition Math_floor (x : Qc) : Z := Qfloor x.

(** [Math.abs]. *)
Definition Math_abs (x : Qc) : Qc := if decide (x < 0) then - x else x.

(** ** config/constants.js *)

Inductive Color := GREEN | RED | VIOLET.
Inductive Size := BIG | SMALL.
Inductive BetType := COLOR | NUMBER | SIZE.

(** The ten outcomes of a round. *)
Inductive Digit := D0 | D1 | D2 | D3 | D4 | D5 | D6 | D7 | D8 | D9.

#[global] Instance Color_eq_dec : EqDecision Color.
Proof. solve_decision. Defined.
#[global] Instance Size_eq_dec : EqDecision Size.
Proof. solve_decision. Defined.
#[global] Instance BetType_eq_dec : EqDecision BetType.
Proof. solve_decision. Defined.
#[global] Instance Digit_eq_dec : EqDecision Digit.
Proof. solve_decision. Defined.

Definition Color_name (c : Color) : string :=
  match c with GREEN => "GREEN" | RED => "RED" | VIOLET => "VIOLET" end.

Definition Size_name (s : Size) : string :=
  match s with BIG => "BIG" | SMALL => "SMALL" end.

Definition BetType_name (t : BetType) : string :=
  match t with COLOR => "COLOR" | NUMBER => "NUMBER" | SIZE => "SIZE" end.

(** The colour or size a string names, [None] when it names none. *)
Definition Color_ofName (s : string) : option Color :=
  if decide (s = "GREEN") then Some GREEN
  else if decide (s = "RED") then Some RED
  else if decide (s = "VIOLET") then Some VIOLET
  else None.

Definition Size_ofName (s : string) : option Size :=
  if decide (s = "BIG") then Some BIG
  else if decide (s = "SMALL") then Some SMALL
  else None.

Definition Digit_toZ (d : Digit) : Z :=
  match d with
  | D0 => 0 | D1 => 1 | D2 => 2 | D3 => 3 | D4 => 4
  | D5 => 5 | D6 => 6 | D7 => 7 | D8 => 8 | D9 => 9
  end%Z.

Definition Digit_ofZ (z : Z) : option Digit :=
  match z with
  | 0 => Some D0 | 1 => Some D1 | 2 => Some D2 | 3 => Some D3 | 4 => Some D4
  | 5 => Some D5 | 6 => Some D6 | 7 => Some D7 | 8 => Some D8 | 9 => Some D9
  | _ => None
  end%Z.

(** [parseInt(s)] in a branch guarded by [/^[0-9]$/.test(s)], where it is
    one of the ten digits (lemma [singleDigit_parseInt]). *)
Definition singleDigit (s : string) : Digit :=
  default D0 (parseInt s ≫= Digit_ofZ).

(** [Math.floor(Math.random() * 10)] for the value [random] of
    [Math.random()], which lies in [0, 1): one of the ten digits. *)
Definition randomDigit (random : Qc) : Digit :=
  default D9 (Digit_ofZ (Math_floor (random * dec 10 1))).

(** The keys [0..9] in the order [for (number = 0; number <= 9; number++)]
    and [Object.entries] visit them. *)
Definition all_digits : list Digit := [D0; D1; D2; D3; D4; D5; D6; D7; D8; D9].

Module PAYOUTS.
Definition COLOR (c : Color) : Qc :=
  match c with
  | GREEN => dec 195 100
  | RED => dec 195 100
  | VIOLET => dec 45 10
  end.
Definition NUMBER : Qc := dec 85 10.
Definition SIZE (s : Size) : Qc :=
  match s with
  | BIG => dec 195 100
  | SMALL => dec 195 100
  end.
End PAYOUTS.

Definition NUMBER_COLORS (n : Digit) : Color :=
  match n with
  | D0 => VIOLET | D1 => GREEN | D2 => RED | D3 => GREEN | D4 => RED
  | D5 => VIOLET | D6 => RED | D7 => GREEN | D8 => RED | D9 => GREEN
  end.

Definition NUMBER_SIZES (n : Digit) : Size :=
  match n with
  | D0 | D1 | D2 | D3 | D4 => SMALL
  | D5 | D6 | D7 | D8 | D9 => BIG
  end.

(** ** The store: enums and rows of the Prisma schema *)

Module BetResult.
Inductive t := PENDING | WON | LOST | CANCELLED.
#[global] Instance eq_dec : EqDecision t.
Proof. solve_decision. Defined.
End BetResult.

Module RoundStatus.
Inductive t := OPEN | PAUSED | CLOSED | CANCELLED | RESULT_DECLARED.
#[global] Instance eq_dec : EqDecision t.
Proof. solve_decision. Defined.
Definition toLowerCase (s : t) : string :=
  match s with
  | OPEN => "open" | PAUSED => "paused" | CLOSED => "closed"
  | CANCELLED => "cancelled" | RESULT_DECLARED => "result_declared"
  end.
End RoundStatus.

Module ResultStatus.
Inductive t := PENDING | DECLARED.
#[global] Instance eq_dec : EqDecision t.
Proof. solve_decision. Defined.
End ResultStatus.

Module ResultDeclaredBy.
Inductive t := ADMIN | SYSTEM.
#[global] Instance eq_dec : EqDecision t.
Proof. solve_decision. Defined.
End ResultDeclaredBy.

Module TransactionType.
Inductive t := DEPOSIT | WITHDRAWAL | BET_PLACED | BET_WON | REFERRAL_BONUS | REFUND.
#[global] Instance eq_dec : EqDecision t.
Proof. solve_decision. Defined.
End TransactionType.

Module TransactionStatus.
Inductive t := PENDING | COMPLETED | FAILED | CANCELLED.
#[global] Instance eq_dec : EqDecision t.
Proof. solve_decision. Defined.
End TransactionStatus.

(** A row of [bets]; the primary key [id] is the key of the table. *)
Module Bet.
Record t := mk {
  userId : string;
  gameRoundId : string;
  betType : BetType;
  selection : string;
  amount : Qc;
  potentialWin : Qc;
  result : BetResult.t;
  winAmount : option Qc
}.
#[global] Instance eq_dec : EqDecision t.
Proof. solve_decision. Defined.
(** [data: { result, winAmount }] of [bet.update]. *)
Definition set_result (r : BetResult.t) (w : Qc) (b : t) : t :=
  mk (userId b) (gameRoundId b) (betType b) (selection b) (amount b)
     (potentialWin b) r (Some w).
End Bet.

(** A row of [transactions] (the generated id and timestamps are left out). *)
Module Transaction.
Record t := mk {
  userId : string;
  type : TransactionType.t;
  amount : Qc;
  status : TransactionStatus.t;
  referenceId : option string;
  description : option string
}.
#[global] Instance eq_dec : EqDecision t.
Proof. solve_decision. Defined.
End Transaction.

(** One of the ten outcome candidates built by the liability calculator. *)
Module Candidate.
Record t := mk {
  number : Digit;
  color : Color;
  size : Size;
  colorPayout : Qc;
  sizePayout : Qc;
  numberPayout : Qc;
  totalLiability : Qc;
  totalCollection : Qc;
  profit : Qc;
  profitPercent : Qc;
  isProfitable : bool;
  isAcceptable : bool
}.
#[global] Instance eq_dec : EqDecision t.
Proof. solve_decision. Defined.
End Candidate.

(** A row of [game_rounds]; [calculationData] holds the candidate ranking
    that the code stores as a JSON string. *)
Module GameRound.
Record t := mk {
  period : string;
  status : RoundStatus.t;
  resultStatus : ResultStatus.t;
  number : option Digit;
  winningColor : option Color;
  winningSize : option Size;
  resultDeclaredBy : option ResultDeclaredBy.t;
  declaredAt : option Z;
  declaredByAdminId : option string;
  startTime : Z;
  endTime : option Z;
  totalCollection : option Qc;
  totalPayout : option Qc;
  profit : option Qc;
  profitPercent : option Qc;
  calculationData : option (list Candidate.t);
  selectedResultRank : option string;
  isProfitable : bool;
  lossAmount : option Qc
}.
#[global] Instance eq_dec : EqDecision t.
Proof. solve_decision. Defined.
End GameRound.

(** The four tables: rounds and bets by primary key, wallets by their
    unique [userId], and the transaction log in insertion order. *)
Record DB := mkDB {
  gameRounds : gmap string GameRound.t;
  bets : gmap string Bet.t;
  wallets : gmap string Qc;
  transactions : list Transaction.t
}.

#[global] Instance DB_eq_dec : EqDecision DB.
Proof. solve_decision. Defined.

Definition set_gameRounds (f : gmap string GameRound.t → gmap string GameRound.t)
    (db : DB) : DB :=
  mkDB (f (gameRounds db)) (bets db) (wallets db) (transactions db).

Definition set_bets (f : gmap string Bet.t → gmap string Bet.t) (db : DB) : DB :=
  mkDB (gameRounds db) (f (bets db)) (wallets db) (transactions db).

Definition set_wallets (f : gmap string Qc → gmap string Qc) (db : DB) : DB :=
  mkDB (gameRounds db) (bets db) (f (wallets db)) (transactions db).

Definition set_transactions (f : list Transaction.t → list Transaction.t)
    (db : DB) : DB :=
  mkDB (gameRounds db) (bets db) (wallets db) (f (transactions db)).

(** ** The monad of asynchronous store computations *)

(** The message of an [Error].  Messages whose template literal formats a
    number keep the numbers instead of their decimal rendering:
    [LossExceedsMax loss max] is
    [`Result causes loss of ${loss.toFixed(2)} which exceeds max allowed loss of ${max}`]
    and [NotProfitable pct min] is
    [`Result is not profitable (profit: ${pct.toFixed(2)}%). Minimum required: ${min}%`]. *)
Inductive Message :=
  | Text (s : string)
  | LossExceedsMax (loss maxLoss : Qc)
  | NotProfitable (profitPercent minRequired : Qc).

#[global] Instance Message_eq_dec : EqDecision Message.
Proof. solve_decision. Defined.

Inductive Completion (A : Type) : Type :=
  | Return (a : A)
  | Throw (message : Message).
Arguments Return {A} a.
Arguments Throw {A} message.

#[global] Instance Completion_eq_dec {A : Type} `{EqDecision A} :
  EqDecision (Completion A).
Proof. solve_decision. Defined.

Definition Async (A : Type) : Type := DB → Completion A * DB.

#[global] Instance Async_ret : MRet Async := λ A a db, (Return a, db).

#[global] Instance Async_bind : MBind Async := λ A B f m db,
  match m db with
  | (Return a, db') => f a db'
  | (Throw e, db') => (Throw e, db')
  end.

(** [throw new Error(message)]. *)
Definition throw {A : Type} (message : Message) : Async A :=
  λ db, (Throw message, db).

(** A read of the store. *)
Definition gets {A : Type} (f : DB → A) : Async A := λ db, (Return (f db), db).

(** A write to the store. *)
Definition modify (f : DB → DB) : Async unit := λ db, (Return (), f db).

(** [prisma.$transaction(async (tx) => body)]: all or nothing. *)
Definition transaction {A : Type} (body : Async A) : Async A := λ db,
  match body db with
  | (Return a, db') => (Return a, db')
  | (Throw e, _) => (Throw e, db)
  end.

(** [try { body } catch (err) { logger.error(...) }]. *)
Definition try_catch (body : Async unit) : Async unit := λ db,
  match body db with
  | (Return a, db') => (Return a, db')
  | (Throw _, db') => (Return (), db')
  end.

(** [for (const x of xs) { await body(x) }]. *)
Fixpoint for_of {A : Type} (xs : list A) (body : A → Async unit) : Async unit :=
  match xs with
  | [] => mret ()
  | x :: xs' => body x;; for_of xs' body
  end.

(** ** The Prisma client *)

Definition P2025 : Message := Text "Record to update not found.".
Definition P2002 : Message := Text "Unique constraint failed on the fields: (`id`)".

Module prisma.

(** [gameRound.findUnique({ where: { id } })]. *)
Definition gameRound_findUnique (id : string) (db : DB) : option GameRound.t :=
  gameRounds db !! id.

(** [gameRound.update({ where: { id }, data })]. *)
Definition gameRound_update (id : string) (data : GameRound.t → GameRound.t)
    : Async GameRound.t :=
  round ← gets (λ db, gameRounds db !! id);
  match round with
  | None => throw P2025
  | Some r =>
      modify (set_gameRounds (insert id (data r)));;
      mret (data r)
  end.

(** [bet.findMany({ where: { gameRoundId } })], each row with its id. *)
Definition bet_findMany (gameRoundId : string) (db : DB) : list (string * Bet.t) :=
  filter (λ p, Bet.gameRoundId p.2 = gameRoundId) (map_to_list (bets db)).

(** [bet.findFirst({ where: { userId, gameRoundId } })]. *)
Definition bet_findFirst (userId gameRoundId : string) (db : DB)
    : option (string * Bet.t) :=
  head (filter (λ p, Bet.userId p.2 = userId ∧ Bet.gameRoundId p.2 = gameRoundId)
          (map_to_list (bets db))).

(** [bet.update({ where: { id }, data })]. *)
Definition bet_update (id : string) (data : Bet.t → Bet.t) : Async unit :=
  bet ← gets (λ db, bets db !! id);
  match bet with
  | None => throw P2025
  | Some b => modify (set_bets (insert id (data b)))
  end.

(** [bet.create({ data })]; [id] is the key the database generates. *)
Definition bet_create (id : string) (row : Bet.t) : Async (string * Bet.t) :=
  bet ← gets (λ db, bets db !! id);
  match bet with
  | Some _ => throw P2002
  | None => modify (set_bets (insert id row));; mret (id, row)
  end.

(** [wallet.findUnique({ where: { userId } })]. *)
Definition wallet_findUnique (userId : string) (db : DB) : option Qc :=
  wallets db !! userId.

(** [wallet.update({ where: { userId }, data: { balance: { increment } } })]. *)
Definition wallet_increment (userId : string) (increment : Qc) : Async unit :=
  wallet ← gets (λ db, wallets db !! userId);
  match wallet with
  | None => throw P2025
  | Some balance => modify (set_wallets (insert userId (balance + increment)))
  end.

(** [wallet.update({ where: { userId }, data: { balance: { decrement } } })]. *)
Definition wallet_decrement (userId : string) (decrement : Qc) : Async unit :=
  wallet ← gets (λ db, wallets db !! userId);
  match wallet with
  | None => throw P2025
  | Some balance => modify (set_wallets (insert userId (balance - decrement)))
  end.

(** [transaction.create({ data })]. *)
Definition transaction_create (row : Transaction.t) : Async unit :=
  modify (set_transactions (λ log, log ++ [row])).

End prisma.

(** ** Array helpers *)

(** [Array.prototype.sort(compare)].  The language requires the sort to be
    stable, and with a comparator that is a difference of numbers every
    stable sort returns the same array; it is modelled by insertion from the
    right, which puts an element in front of the later elements it does
    not compare greater than. *)
Fixpoint sort_insert {A : Type} (compare : A → A → Qc) (x : A) (l : list A)
    : list A :=
  match l with
  | [] => [x]
  | y :: l' =>
      if decide (compare x y ≤ 0) then x :: y :: l'
      else y :: sort_insert compare x l'
  end.

Definition Array_sort {A : Type} (compare : A → A → Qc) (l : list A) : list A :=
  foldr (sort_insert compare) [] l.
#[global] Arguments Array_sort : simpl never.

(** [Array.prototype.find]. *)
Definition Array_find {A : Type} (p : A → bool) (l : list A) : option A :=
  List.find p l.

(** [Array.prototype.filter] with a boolean callback. *)
Definition Array_filter {A : Type} (p : A → bool) (l : list A) : list A :=
  List.filter p l.

(** ** services/profitEngine.service.js *)

Record ProfitEngineService := {
  MIN_PROFIT_PERCENT : Qc;
  MAX_LOSS_PER_ROUND : Qc;
  HIGH_PROFIT_WEIGHT : Qc;
  MEDIUM_PROFIT_WEIGHT : Qc;
  RANDOM_WEIGHT : Qc
}.

(** The constructor; its arguments are [env.MIN_PROFIT_PERCENT] and
    [env.MAX_LOSS_PER_ROUND], [None] when the key is undefined or empty. *)
Definition new_ProfitEngineService
    (env_MIN_PROFIT_PERCENT env_MAX_LOSS_PER_ROUND : option Qc)
    : ProfitEngineService :=
  {| MIN_PROFIT_PERCENT := default (dec 5 1) env_MIN_PROFIT_PERCENT;
     MAX_LOSS_PER_ROUND := default (dec 0 1) env_MAX_LOSS_PER_ROUND;
     HIGH_PROFIT_WEIGHT := dec 70 100;
     MEDIUM_PROFIT_WEIGHT := dec 20 100;
     RANDOM_WEIGHT := dec 10 100 |}.

(** [module.exports = new ProfitEngineService()]: the object exported by
    [config/env] defines neither key, so both limits take their defaults. *)
Definition profitEngine : ProfitEngineService :=
  new_ProfitEngineService None None.

(** The value returned by [calculateAllResultsLiability] when bets exist. *)
Module Calculation.
Record t := mk {
  gameRoundId : string;
  totalCollection : Qc;
  totalBets : nat;
  results : list Candidate.t
}.
#[global] Instance eq_dec : EqDecision t.
Proof. solve_decision. Defined.
End Calculation.

(** The three running payouts of the inner loop over the bets. *)
Record Payouts := mkPayouts {
  colorPayout : Qc;
  sizePayout : Qc;
  numberPayout : Qc
}.

(** One iteration of [for (const bet of bets)] for the candidate [number]. *)
Definition addBetPayout (number : Digit) (acc : Payouts) (bet : Bet.t) : Payouts :=
  let color := NUMBER_COLORS number in
  let size := NUMBER_SIZES number in
  match Bet.betType bet with
  | COLOR =>
      if decide (Bet.selection bet = Color_name color) then
        let multiplier :=
          if decide (color = VIOLET) then PAYOUTS.COLOR VIOLET
          else PAYOUTS.COLOR color in
        mkPayouts (colorPayout acc + Bet.amount bet * multiplier)
                  (sizePayout acc) (numberPayout acc)
      else if decide (Bet.selection bet = "VIOLET" ∧ (number = D0 ∨ number = D5)) then
        mkPayouts (colorPayout acc + Bet.amount bet * PAYOUTS.COLOR VIOLET)
                  (sizePayout acc) (numberPayout acc)
      else acc
  | SIZE =>
      if decide (Bet.selection bet = Size_name size) then
        mkPayouts (colorPayout acc)
                  (sizePayout acc + Bet.amount bet * PAYOUTS.SIZE size)
                  (numberPayout acc)
      else acc
  | NUMBER =>
      if decide (parseInt (Bet.selection bet) = Some (Digit_toZ number)) then
        mkPayouts (colorPayout acc) (sizePayout acc)
                  (numberPayout acc + Bet.amount bet * PAYOUTS.NUMBER)
      else acc
  end.

Section ProfitEngine.
Context (this : ProfitEngineService).

(** The body of [for (let number = 0; number <= 9; number++)], in exact
    arithmetic; [Double.candidateFor] below is the same body in doubles. *)
Definition candidateFor (bets : list Bet.t) (totalCollection : Qc)
    (number : Digit) : Candidate.t :=
  let acc := foldl (addBetPayout number) (mkPayouts 0 0 0) bets in
  let totalLiability := colorPayout acc + sizePayout acc + numberPayout acc in
  let profit := totalCollection - totalLiability in
  let profitPercent :=
    if decide (0 < totalCollection) then (profit / totalCollection) * dec 100 1
    else 0 in
  Candidate.mk number (NUMBER_COLORS number) (NUMBER_SIZES number)
    (colorPayout acc) (sizePayout acc) (numberPayout acc)
    totalLiability totalCollection profit profitPercent
    (bool_decide (0 ≤ profit) && bool_decide (MIN_PROFIT_PERCENT this ≤ profitPercent))
    (bool_decide (- MAX_LOSS_PER_ROUND this ≤ profit)).

(** [calculateAllResultsLiability(gameRoundId)] after its query: the
    calculation over the bets the query returned; [None] is [null]. *)
Definition calculateLiability (gameRoundId : string) (bets : list Bet.t)
    : option Calculation.t :=
  if decide (length bets = 0%nat) then None
  else
    let totalCollection := foldl (λ sum bet, sum + Bet.amount bet) 0 bets in
    let results := candidateFor bets totalCollection <$> all_digits in
    Some (Calculation.mk gameRoundId totalCollection (length bets)
            (Array_sort (λ a b, Candidate.profit b - Candidate.profit a) results)).

(** [calculateAllResultsLiability(gameRoundId)]. *)
Definition calculateAllResultsLiability (gameRoundId : string) (db : DB)
    : option Calculation.t :=
  calculateLiability gameRoundId (prisma.bet_findMany gameRoundId db).*2.

Definition TypeError_undefined : Message :=
  Text "TypeError: Cannot read properties of undefined".

(** The object returned by [selectWeightedResult]: the fields spread from
    the chosen candidate ([None] when the chosen value is [undefined], so
    that the object has none of them), the rank label and the ranking.  The
    early [return results[0]] returns the bare candidate, without label or
    ranking. *)
Record Selection := mkSelection {
  selected : option Candidate.t;
  selectedRank : option string;
  allResults : option (list Candidate.t)
}.

(** [selectWeightedResult(calculatedResults)]; [random_index] and [random]
    are the two successive values of [Math.random()]. *)
Definition selectWeightedResult (calculatedResults : Calculation.t)
    (random_index random : Qc) : Selection :=
  let results := Calculation.results calculatedResults in
  let acceptableResults := Array_filter Candidate.isAcceptable results in
  if decide (length acceptableResults = 0%nat) then
    mkSelection (results !! 0%nat) None None
  else
    let profitableResults := Array_filter Candidate.isProfitable acceptableResults in
    let highProfit := profitableResults !! 0%nat in
    let mediumProfit :=
      match profitableResults !! (length profitableResults / 2)%nat with
      | Some r => Some r
      | None => highProfit
      end in
    let randomResult :=
      acceptableResults !!
        Z.to_nat (Math_floor (random_index * Q2Qc (inject_Z (Z.of_nat (length acceptableResults))))) in
    if decide (random < HIGH_PROFIT_WEIGHT this) then
      mkSelection highProfit (Some "HIGH_PROFIT") (Some results)
    else if decide (random < HIGH_PROFIT_WEIGHT this + MEDIUM_PROFIT_WEIGHT this) then
      mkSelection mediumProfit (Some "MEDIUM_PROFIT") (Some results)
    else
      mkSelection randomResult (Some "RANDOM") (Some results).

(** The object returned by [calculateOptimalResult]: the fields the callers
    read. *)
Record OptimalResult := mkOptimalResult {
  optimal_number : Digit;
  optimal_color : Color;
  optimal_size : Size;
  optimal_totalCollection : Qc;
  optimal_totalLiability : Qc;
  optimal_profit : Qc;
  optimal_profitPercent : Qc;
  optimal_selectedRank : option string;
  optimal_isProfitable : bool
}.

#[global] Instance OptimalResult_eq_dec : EqDecision OptimalResult.
Proof. solve_decision. Defined.

(** [calculateOptimalResult(gameRoundId)]; [random_digit] is the value of
    [Math.random()] drawn when the round has no bets, [random_index] and
    [random] are the two values [selectWeightedResult] draws.  The log line
    formats [selected.profit.toFixed(2)], which throws when the selection
    carries no candidate. *)
Definition calculateOptimalResult (random_digit random_index random : Qc)
    (gameRoundId : string) : Async OptimalResult :=
  calculation ← gets (calculateAllResultsLiability gameRoundId);
  match calculation with
  | None =>
      let randomNumber := randomDigit random_digit in
      mret (mkOptimalResult randomNumber (NUMBER_COLORS randomNumber)
              (NUMBER_SIZES randomNumber) 0 0 0 0 (Some "RANDOM_NO_BETS") true)
  | Some calculation =>
      let selection := selectWeightedResult calculation random_index random in
      match selected selection with
      | None => throw TypeError_undefined
      | Some c =>
          mret (mkOptimalResult (Candidate.number c) (Candidate.color c)
                  (Candidate.size c) (Candidate.totalCollection c)
                  (Candidate.totalLiability c) (Candidate.profit c)
                  (Candidate.profitPercent c) (selectedRank selection)
                  (Candidate.isProfitable c))
      end
  end.

(** The [data] of the round update in [storeCalculationData]; a field whose
    value is [undefined] is not written. *)
Definition storedCalculation (selectedResult : OptimalResult)
    (allCalculations : option Calculation.t) (r : GameRound.t) : GameRound.t :=
  GameRound.mk (GameRound.period r) (GameRound.status r)
    (GameRound.resultStatus r) (GameRound.number r) (GameRound.winningColor r)
    (GameRound.winningSize r) (GameRound.resultDeclaredBy r)
    (GameRound.declaredAt r) (GameRound.declaredByAdminId r)
    (GameRound.startTime r) (GameRound.endTime r)
    (Some (optimal_totalCollection selectedResult))
    (Some (optimal_totalLiability selectedResult))
    (Some (optimal_profit selectedResult))
    (Some (optimal_profitPercent selectedResult))
    (Calculation.results <$> allCalculations)
    (match optimal_selectedRank selectedResult with
     | Some rank => Some rank
     | None => GameRound.selectedResultRank r
     end)
    (optimal_isProfitable selectedResult)
    (if decide (optimal_profit selectedResult < 0)
     then Some (Math_abs (optimal_profit selectedResult)) else None).

(** [storeCalculationData(gameRoundId, selectedResult, allCalculations)]. *)
Definition storeCalculationData (gameRoundId : string)
    (selectedResult : OptimalResult) (allCalculations : option Calculation.t)
    : Async unit :=
  try_catch (
    prisma.gameRound_update gameRoundId
      (storedCalculation selectedResult allCalculations);;
    mret ()).

(** The object returned by [validateAdminResult]. *)
Record Validation := mkValidation {
  valid : bool;
  warning : option Message;
  error : option Message;
  result : option Candidate.t
}.

(** [['GREEN', 'RED', 'VIOLET'].includes(s)]. *)
Definition isColorName (s : string) : bool :=
  bool_decide (s ∈ ["GREEN"; "RED"; "VIOLET"]).

(** [['BIG', 'SMALL'].includes(s)]. *)
Definition isSizeName (s : string) : bool :=
  bool_decide (s ∈ ["BIG"; "SMALL"]).

(** The admin's winning option resolved to a digit, as [validateAdminResult]
    does it; [None] is [null].  The keys of [Object.entries] are the digits
    in ascending order, and [?.[0] || 0] falls back to 0. *)
Definition targetNumberOf (winningOption : string) : option Digit :=
  if isSingleDigit winningOption then
    Some (singleDigit winningOption)
  else if isColorName (toUpperCase winningOption) then
    Some (default D0
      (Array_find (λ num, bool_decide (Color_name (NUMBER_COLORS num) = toUpperCase winningOption))
         all_digits))
  else if isSizeName (toUpperCase winningOption) then
    Some (default D0
      (Array_find (λ num, bool_decide (Size_name (NUMBER_SIZES num) = toUpperCase winningOption))
         all_digits))
  else None.

(** [validateAdminResult(gameRoundId, winningOption)]. *)
Definition validateAdminResult (gameRoundId winningOption : string)
    : Async Validation :=
  calculation ← gets (calculateAllResultsLiability gameRoundId);
  match calculation with
  | None => mret (mkValidation true (Some (Text "No bets placed")) None None)
  | Some calculation =>
      match targetNumberOf winningOption with
      | None => mret (mkValidation false None (Some (Text "Invalid winning option")) None)
      | Some targetNumber =>
          match Array_find (λ r, bool_decide (Candidate.number r = targetNumber))
                  (Calculation.results calculation) with
          | None => throw TypeError_undefined
          | Some result =>
              if negb (Candidate.isAcceptable result) then
                mret (mkValidation false None
                        (Some (LossExceedsMax (Math_abs (Candidate.profit result))
                                 (MAX_LOSS_PER_ROUND this)))
                        (Some result))
              else if negb (Candidate.isProfitable result) then
                mret (mkValidation true
                        (Some (NotProfitable (Candidate.profitPercent result)
                                 (MIN_PROFIT_PERCENT this)))
                        None (Some result))
              else mret (mkValidation true None None (Some result))
          end
      end
  end.

End ProfitEngine.

(** ** The liability calculation in double precision *)

(** [calculateAllResultsLiability] once more, with the numbers the engine
    computes with: IEEE 754 binary64, rounded to nearest.  The candidates of
    the exact calculation above carry the same payouts up to rounding; which
    of two candidates ranks first, and the two flags of a candidate at a
    limit, can depend on the rounding. *)
Module Double.

#[local] Open Scope float_scope.

(** Integers below 2^53 are doubles. *)
Fixpoint ofPositive (p : positive) : float :=
  match p with
  | xH => 1
  | xO p' => 2 * ofPositive p'
  | xI p' => 2 * ofPositive p' + 1
  end.

Definition ofZ (z : Z) : float :=
  match z with
  | Z0 => 0
  | Zpos p => ofPositive p
  | Zneg p => - ofPositive p
  end.

(** The double nearest to a decimal: [parseFloat] of a [Decimal] column, and
    the value of a decimal literal.  The division rounds the quotient of two
    doubles correctly, so the result is the nearest double when numerator
    and denominator are below 2^53. *)
Definition parseFloat (q : Qc) : float := ofZ (Qnum q) / ofPositive (Qden q).

Record Payouts := mkPayouts {
  colorPayout : float;
  sizePayout : float;
  numberPayout : float
}.

(** One iteration of [for (const bet of bets)] for the candidate [number]. *)
Definition addBetPayout (number : Digit) (acc : Payouts) (bet : Bet.t) : Payouts :=
  let color := NUMBER_COLORS number in
  let size := NUMBER_SIZES number in
  match Bet.betType bet with
  | COLOR =>
      if decide (Bet.selection bet = Color_name color) then
        let multiplier :=
          if decide (color = VIOLET) then parseFloat (PAYOUTS.COLOR VIOLET)
          else parseFloat (PAYOUTS.COLOR color) in
        mkPayouts (colorPayout acc + parseFloat (Bet.amount bet) * multiplier)
                  (sizePayout acc) (numberPayout acc)
      else if decide (Bet.selection bet = "VIOLET" ∧ (number = D0 ∨ number = D5)) then
        mkPayouts (colorPayout acc
                   + parseFloat (Bet.amount bet) * parseFloat (PAYOUTS.COLOR VIOLET))
                  (sizePayout acc) (numberPayout acc)
      else acc
  | SIZE =>
      if decide (Bet.selection bet = Size_name size) then
        mkPayouts (colorPayout acc)
                  (sizePayout acc
                   + parseFloat (Bet.amount bet) * parseFloat (PAYOUTS.SIZE size))
                  (numberPayout acc)
      else acc
  | NUMBER =>
      if decide (parseInt (Bet.selection bet) = Some (Digit_toZ number)) then
        mkPayouts (colorPayout acc) (sizePayout acc)
                  (numberPayout acc
                   + parseFloat (Bet.amount bet) * parseFloat PAYOUTS.NUMBER)
      else acc
  end.

(** An element of [results]: the fields that rank and flag a candidate. *)
Record Candidate := mkCandidate {
  number : Digit;
  totalLiability : float;
  totalCollection : float;
  profit : float;
  profitPercent : float;
  isProfitable : bool;
  isAcceptable : bool
}.

(** [Array.prototype.sort(compare)] for a comparator that returns a double:
    as [Array_sort], an element goes in front of the later elements it does
    not compare greater than. *)
Fixpoint sort_insert {A : Type} (compare : A → A → float) (x : A) (l : list A)
    : list A :=
  match l with
  | [] => [x]
  | y :: l' =>
      if (0 <? compare x y)%float then y :: sort_insert compare x l'
      else x :: y :: l'
  end.

Definition Array_sort {A : Type} (compare : A → A → float) (l : list A) : list A :=
  foldr (sort_insert compare) [] l.

Section ProfitEngine.
Context (this : ProfitEngineService).

(** The body of [for (let number = 0; number <= 9; number++)]. *)
Definition candidateFor (bets : list Bet.t) (totalCollection : float)
    (number : Digit) : Candidate :=
  let acc := foldl (addBetPayout number) (mkPayouts 0 0 0) bets in
  let totalLiability := colorPayout acc + sizePayout acc + numberPayout acc in
  let profit := totalCollection - totalLiability in
  let profitPercent :=
    if (0 <? totalCollection)%float then (profit / totalCollection) * 100 else 0 in
  mkCandidate number totalLiability totalCollection profit profitPercent
    ((0 <=? profit)%float
     && (parseFloat (MIN_PROFIT_PERCENT this) <=? profitPercent)%float)
    ((- parseFloat (MAX_LOSS_PER_ROUND this) <=? profit)%float).

(** The ranking [calculateAllResultsLiability] returns for the bets its
    query returned, in the order in which it returned them; [None] is
    [null]. *)
Definition calculateLiability (bets : list Bet.t) : option (list Candidate) :=
  if decide (length bets = 0%nat) then None
  else
    let totalCollection :=
      foldl (λ sum bet, sum + parseFloat (Bet.amount bet)) 0 bets in
    Some (Array_sort (λ a b, profit b - profit a)
            (candidateFor bets totalCollection <$> all_digits)).

(** [calculateAllResultsLiability(gameRoundId)]: the ranking alone. *)
Definition calculateAllResultsLiability (gameRoundId : string) (db : DB)
    : option (list Candidate) :=
  calculateLiability (prisma.bet_findMany gameRoundId db).*2.

End ProfitEngine.

(** The digits of a ranking from first to last, and each with its two
    flags. *)
Definition digits (results : list Candidate) : list Digit := number <$> results.

Definition flags (results : list Candidate) : list (Digit * bool * bool) :=
  (λ c, (number c, isProfitable c, isAcceptable c)) <$> results.

End Double.

(** ** Settlement of one bet *)

(** The first half of the loop body of [processBetsWithResult]: the pair
    [(isWin, winAmount)] of a bet under the declared result. *)
Definition evaluateBetWithResult (winningNumber : Digit) (winningColor : Color)
    (winningSize : Size) (bet : Bet.t) : bool * Qc :=
  match Bet.betType bet with
  | NUMBER =>
      let betNumber := parseInt (Bet.selection bet) in
      if decide (betNumber = Some (Digit_toZ winningNumber)) then
        (true, Bet.amount bet * PAYOUTS.NUMBER)
      else (false, 0)
  | COLOR =>
      let betColor := Bet.selection bet in
      if decide (betColor = "VIOLET" ∧ (winningNumber = D0 ∨ winningNumber = D5)) then
        (true, Bet.amount bet * PAYOUTS.COLOR VIOLET)
      else if decide (betColor = Color_name winningColor) then
        if decide ((winningNumber = D0 ∧ betColor = "GREEN")
                   ∨ (winningNumber = D5 ∧ betColor = "RED")) then
          (true, Bet.amount bet * dec 145 100)
        else
          (true, Bet.amount bet * PAYOUTS.COLOR winningColor)
      else (false, 0)
  | SIZE =>
      let betSize := Bet.selection bet in
      if decide (betSize = Size_name winningSize) then
        (true, Bet.amount bet * PAYOUTS.SIZE winningSize)
      else (false, 0)
  end.

(** The same half of the loop body in [bet.service.js], [processBets]: it has
    no reduced-payout case. *)
Definition evaluateBet (winningNumber : Digit) (winningColor : Color)
    (winningSize : Size) (bet : Bet.t) : bool * Qc :=
  match Bet.betType bet with
  | NUMBER =>
      let betNumber := parseInt (Bet.selection bet) in
      if decide (betNumber = Some (Digit_toZ winningNumber)) then
        (true, Bet.amount bet * PAYOUTS.NUMBER)
      else (false, 0)
  | COLOR =>
      let betColor := Bet.selection bet in
      if decide (betColor = "VIOLET" ∧ (winningNumber = D0 ∨ winningNumber = D5)) then
        (true, Bet.amount bet * PAYOUTS.COLOR VIOLET)
      else if decide (betColor = Color_name winningColor) then
        (true, Bet.amount bet * PAYOUTS.COLOR winningColor)
      else (false, 0)
  | SIZE =>
      let betSize := Bet.selection bet in
      if decide (betSize = Size_name winningSize) then
        (true, Bet.amount bet * PAYOUTS.SIZE winningSize)
      else (false, 0)
  end.

(** The [BET_WON] record of a settled bet. *)
Definition wonTransaction (id : string) (bet : Bet.t) (winAmount : Qc)
    : Transaction.t :=
  Transaction.mk (Bet.userId bet) TransactionType.BET_WON winAmount
    TransactionStatus.COMPLETED (Some id)
    (Some ("Won bet on " +:+ BetType_name (Bet.betType bet) +:+ ": "
           +:+ Bet.selection bet)).

(** The second half of the loop body, the same text in both services: one
    [prisma.$transaction] per bet. *)
Definition settlementUnit (id : string) (bet : Bet.t) (isWin : bool)
    (winAmount : Qc) : Async unit :=
  transaction (
    prisma.bet_update id
      (Bet.set_result (if isWin then BetResult.WON else BetResult.LOST)
                      (if isWin then winAmount else 0));;
    if isWin then
      prisma.wallet_increment (Bet.userId bet) winAmount;;
      prisma.transaction_create (wonTransaction id bet winAmount)
    else mret ()).

(** ** services/bet.service.js *)

Module BetService.

Record BetData := mkBetData {
  gameRoundId : string;
  betType : BetType;
  selection : string;
  amount : Qc
}.

(** [PAYOUTS.COLOR[name]], [None] when the key is absent. *)
Definition payoutOfColorName (name : string) : option Qc :=
  if decide (name = "GREEN") then Some (PAYOUTS.COLOR GREEN)
  else if decide (name = "RED") then Some (PAYOUTS.COLOR RED)
  else if decide (name = "VIOLET") then Some (PAYOUTS.COLOR VIOLET)
  else None.

(** [PAYOUTS.SIZE[name]], [None] when the key is absent. *)
Definition payoutOfSizeName (name : string) : option Qc :=
  if decide (name = "BIG") then Some (PAYOUTS.SIZE BIG)
  else if decide (name = "SMALL") then Some (PAYOUTS.SIZE SMALL)
  else None.

(** [placeBet(userId, betData)]; [newId] is the id the database gives the
    new bet.  The dashboard notification at the end does not touch the
    store and its errors are caught. *)
Definition placeBet (newId : string) (userId : string) (betData : BetData)
    : Async (string * Bet.t) :=
  let betAmount := amount betData in
  gameRound ← gets (prisma.gameRound_findUnique (gameRoundId betData));
  match gameRound with
  | None => throw (Text "Game round not found")
  | Some gameRound =>
      if decide (GameRound.status gameRound = RoundStatus.PAUSED) then
        throw (Text "Betting is temporarily paused for this round")
      else if decide (GameRound.status gameRound = RoundStatus.CLOSED) then
        throw (Text "Betting is closed for this round")
      else if decide (GameRound.status gameRound = RoundStatus.CANCELLED) then
        throw (Text "This round has been cancelled")
      else if decide (GameRound.status gameRound = RoundStatus.RESULT_DECLARED) then
        throw (Text "Result already declared for this round")
      else if decide (GameRound.resultStatus gameRound = ResultStatus.DECLARED) then
        throw (Text "Result already declared for this round")
      else
        wallet ← gets (prisma.wallet_findUnique userId);
        if match wallet with
           | None => true
           | Some balance => bool_decide (balance < betAmount)
           end
        then throw (Text "Insufficient balance")
        else
          existingBet ← gets (prisma.bet_findFirst userId (gameRoundId betData));
          match existingBet with
          | Some _ => throw (Text "You have already placed a bet on this round")
          | None =>
              let normalizedSelection := toUpperCase (selection betData) in
              let potentialWin :=
                match betType betData with
                | COLOR =>
                    betAmount * default (dec 195 100) (payoutOfColorName normalizedSelection)
                | NUMBER => betAmount * PAYOUTS.NUMBER
                | SIZE =>
                    betAmount * default (dec 195 100) (payoutOfSizeName normalizedSelection)
                end in
              transaction (
                prisma.wallet_decrement userId betAmount;;
                newBet ← prisma.bet_create newId
                  (Bet.mk userId (gameRoundId betData) (betType betData)
                     normalizedSelection betAmount potentialWin
                     BetResult.PENDING None);
                prisma.transaction_create
                  (Transaction.mk userId TransactionType.BET_PLACED betAmount
                     TransactionStatus.COMPLETED (Some newBet.1)
                     (Some ("Bet placed on " +:+ BetType_name (betType betData)
                            +:+ ": " +:+ normalizedSelection)));;
                mret newBet)
          end
  end.

(** [processBets(roundId, winningNumber, winningColor, winningSize)]. *)
Definition processBets (roundId : string) (winningNumber : Digit)
    (winningColor : Color) (winningSize : Size) : Async unit :=
  bets ← gets (prisma.bet_findMany roundId);
  for_of bets (λ '(id, bet),
    let '(isWin, winAmount) :=
      evaluateBet winningNumber winningColor winningSize bet in
    settlementUnit id bet isWin winAmount).

End BetService.

(** ** services/gameAdmin.service.js *)

Module GameAdminService.

(** [processBetsWithResult(roundId, winningNumber, winningColor, winningSize)]. *)
Definition processBetsWithResult (roundId : string) (winningNumber : Digit)
    (winningColor : Color) (winningSize : Size) : Async unit :=
  bets ← gets (prisma.bet_findMany roundId);
  for_of bets (λ '(id, bet),
    let '(isWin, winAmount) :=
      evaluateBetWithResult winningNumber winningColor winningSize bet in
    settlementUnit id bet isWin winAmount).

(** The [REFUND] record of a cancelled bet. *)
Definition refundTransaction (period : string) (id : string) (bet : Bet.t)
    : Transaction.t :=
  Transaction.mk (Bet.userId bet) TransactionType.REFUND (Bet.amount bet)
    TransactionStatus.COMPLETED (Some id)
    (Some ("Refund for cancelled round " +:+ period)).

(** The body of the refund loop of [cancelRound]. *)
Definition refundBet (period : string) (entry : string * Bet.t) : Async unit :=
  let '(id, bet) := entry in
  if decide (Bet.result bet = BetResult.PENDING) then
    prisma.wallet_increment (Bet.userId bet) (Bet.amount bet);;
    prisma.bet_update id (Bet.set_result BetResult.CANCELLED 0);;
    prisma.transaction_create (refundTransaction period id bet)
  else mret ().

(** [data: { status: 'CANCELLED', endTime: new Date() }]. *)
Definition cancelledAt (now : Z) (r : GameRound.t) : GameRound.t :=
  GameRound.mk (GameRound.period r) RoundStatus.CANCELLED
    (GameRound.resultStatus r) (GameRound.number r) (GameRound.winningColor r)
    (GameRound.winningSize r) (GameRound.resultDeclaredBy r)
    (GameRound.declaredAt r) (GameRound.declaredByAdminId r)
    (GameRound.startTime r) (Some now) (GameRound.totalCollection r)
    (GameRound.totalPayout r) (GameRound.profit r) (GameRound.profitPercent r)
    (GameRound.calculationData r) (GameRound.selectedResultRank r)
    (GameRound.isProfitable r) (GameRound.lossAmount r).

Record CancelReply := mkCancelReply {
  cancel_message : string;
  refundedBets : nat
}.

(** [cancelRound(gameRoundId, adminId)]; [now] is [new Date()]. *)
Definition cancelRound (now : Z) (gameRoundId adminId : string)
    : Async CancelReply :=
  round ← gets (prisma.gameRound_findUnique gameRoundId);
  round_bets ← gets (prisma.bet_findMany gameRoundId);
  match round with
  | None => throw (Text "Game round not found")
  | Some round =>
      if decide (GameRound.status round = RoundStatus.CANCELLED) then
        throw (Text "Round already cancelled")
      else if decide (GameRound.resultStatus round = ResultStatus.DECLARED) then
        throw (Text "Cannot cancel round after result is declared")
      else
        transaction (
          prisma.gameRound_update gameRoundId (cancelledAt now);;
          for_of round_bets (refundBet (GameRound.period round)));;
        mret (mkCancelReply "Round cancelled and all bets refunded"
                (length round_bets))
  end.

(** [data: { status }]. *)
Definition withStatus (status : RoundStatus.t) (r : GameRound.t) : GameRound.t :=
  GameRound.mk (GameRound.period r) status
    (GameRound.resultStatus r) (GameRound.number r) (GameRound.winningColor r)
    (GameRound.winningSize r) (GameRound.resultDeclaredBy r)
    (GameRound.declaredAt r) (GameRound.declaredByAdminId r)
    (GameRound.startTime r) (GameRound.endTime r) (GameRound.totalCollection r)
    (GameRound.totalPayout r) (GameRound.profit r) (GameRound.profitPercent r)
    (GameRound.calculationData r) (GameRound.selectedResultRank r)
    (GameRound.isProfitable r) (GameRound.lossAmount r).

(** [updateRoundStatus(gameRoundId, status)]. *)
Definition updateRoundStatus (gameRoundId : string) (status : RoundStatus.t)
    : Async GameRound.t :=
  if negb (bool_decide (status ∈ [RoundStatus.OPEN; RoundStatus.PAUSED; RoundStatus.CLOSED])) then
    throw (Text "Invalid status. Must be one of: OPEN, PAUSED, CLOSED")
  else
    round ← gets (prisma.gameRound_findUnique gameRoundId);
    match round with
    | None => throw (Text "Game round not found")
    | Some round =>
        if decide (GameRound.status round = RoundStatus.CANCELLED
                   ∨ GameRound.status round = RoundStatus.RESULT_DECLARED) then
          throw (Text ("Cannot change status of "
                       +:+ RoundStatus.toLowerCase (GameRound.status round)
                       +:+ " round"))
        else if decide (GameRound.resultStatus round = ResultStatus.DECLARED
                        ∧ status = RoundStatus.OPEN) then
          throw (Text "Cannot reopen round after result is declared")
        else prisma.gameRound_update gameRoundId (withStatus status)
    end.

(** [orderBy: { declaredAt: 'asc' }]; rows without a date come last. *)
Definition declaredAt_le (a b : string * GameRound.t) : Prop :=
  match GameRound.declaredAt a.2, GameRound.declaredAt b.2 with
  | Some x, Some y => (x ≤ y)%Z
  | Some _, None => True
  | None, Some _ => False
  | None, None => True
  end.

#[global] Instance declaredAt_le_dec : RelDecision declaredAt_le.
Proof.
  intros a b. unfold declaredAt_le.
  destruct (GameRound.declaredAt a.2), (GameRound.declaredAt b.2); apply _.
Defined.

(** [cleanupOldRounds()]: keep the latest 500 declared rounds. *)
Definition cleanupOldRounds : Async unit :=
  try_catch (
    declared ← gets (λ db,
      filter (λ p, GameRound.resultStatus p.2 = ResultStatus.DECLARED)
        (map_to_list (gameRounds db)));
    let roundCount := length declared in
    if decide (500 < roundCount)%nat then
      let roundsToDelete := (roundCount - 500)%nat in
      let oldRounds := take roundsToDelete (merge_sort declaredAt_le declared) in
      let roundIds := oldRounds.*1 in
      modify (set_bets (filter (λ p, Bet.gameRoundId p.2 ∉ roundIds)));;
      modify (set_gameRounds (filter (λ p, p.1 ∉ roundIds)))
    else mret ()).

(** The admin's winning option parsed by [declareResult] into number, colour
    and size; [None] is the final [else] that throws. *)
Definition parseWinningOption (winningOption : string)
    : option (Digit * Color * Size) :=
  if isSingleDigit winningOption then
    let winningNumber := singleDigit winningOption in
    Some (winningNumber, NUMBER_COLORS winningNumber, NUMBER_SIZES winningNumber)
  else
    match Color_ofName (toUpperCase winningOption) with
    | Some winningColor =>
        let numbersWithColor :=
          filter (λ num, NUMBER_COLORS num = winningColor) all_digits in
        let winningNumber := default D0 (numbersWithColor !! 0%nat) in
        Some (winningNumber, winningColor, NUMBER_SIZES winningNumber)
    | None =>
        match Size_ofName (toUpperCase winningOption) with
        | Some winningSize =>
            let numbersWithSize :=
              filter (λ num, NUMBER_SIZES num = winningSize) all_digits in
            let winningNumber := default D0 (numbersWithSize !! 0%nat) in
            Some (winningNumber, NUMBER_COLORS winningNumber, winningSize)
        | None => None
        end
    end.

(** The [data] of the round update in [declareResult]; [x || 0] and
    [x || false] on an absent candidate give 0 and [false]. *)
Definition declaredByAdmin (now : Z) (adminId : string)
    (winningNumber : Digit) (winningColor : Color) (winningSize : Size)
    (calculation : option Calculation.t) (selectedResult : option Candidate.t)
    (r : GameRound.t) : GameRound.t :=
  GameRound.mk (GameRound.period r) RoundStatus.RESULT_DECLARED
    ResultStatus.DECLARED (Some winningNumber) (Some winningColor)
    (Some winningSize) (Some ResultDeclaredBy.ADMIN)
    (Some now) (Some adminId)
    (GameRound.startTime r) (Some now)
    (Some (default 0 (Candidate.totalCollection <$> selectedResult)))
    (Some (default 0 (Candidate.totalLiability <$> selectedResult)))
    (Some (default 0 (Candidate.profit <$> selectedResult)))
    (Some (default 0 (Candidate.profitPercent <$> selectedResult)))
    (Calculation.results <$> calculation)
    (Some "ADMIN_DECLARED")
    (default false (Candidate.isProfitable <$> selectedResult))
    (match selectedResult with
     | Some c =>
         if decide (Candidate.profit c < 0) then Some (Math_abs (Candidate.profit c))
         else None
     | None => None
     end).

Record DeclareReply := mkDeclareReply {
  declare_message : string;
  round : GameRound.t;
  winningNumber : Digit;
  winningColor : Color;
  winningSize : Size;
  profit : Qc;
  profitPercent : Qc
}.

(** [declareResult(gameRoundId, winningOption, adminId)]; [now] is
    [new Date()]. *)
Definition declareResult (now : Z) (gameRoundId winningOption adminId : string)
    : Async DeclareReply :=
  round ← gets (prisma.gameRound_findUnique gameRoundId);
  match round with
  | None => throw (Text "Game round not found")
  | Some round =>
      if decide (GameRound.resultStatus round = ResultStatus.DECLARED) then
        throw (Text "Result already declared for this round")
      else if decide (GameRound.status round = RoundStatus.CANCELLED) then
        throw (Text "Cannot declare result for cancelled round")
      else
        validation ← validateAdminResult profitEngine gameRoundId winningOption;
        if negb (valid validation) then
          throw (default (Text "undefined") (error validation))
        else
          match parseWinningOption winningOption with
          | None =>
              throw (Text "Invalid winning option. Must be 0-9, GREEN, RED, VIOLET, BIG, or SMALL")
          | Some (winningNumber, winningColor, winningSize) =>
              calculation ← gets (calculateAllResultsLiability profitEngine gameRoundId);
              let selectedResult :=
                calculation ≫= λ c,
                  Array_find (λ r, bool_decide (Candidate.number r = winningNumber))
                    (Calculation.results c) in
              updatedRound ← prisma.gameRound_update gameRoundId
                (declaredByAdmin now adminId winningNumber winningColor
                   winningSize calculation selectedResult);
              processBetsWithResult gameRoundId winningNumber winningColor winningSize;;
              cleanupOldRounds;;
              mret (mkDeclareReply "Result declared successfully" updatedRound
                      winningNumber winningColor winningSize
                      (default 0 (Candidate.profit <$> selectedResult))
                      (default 0 (Candidate.profitPercent <$> selectedResult)))
          end
  end.

(** The [updateData] of [saveSystemResult]: the profit fields are written
    only when [profitData] is given, the ranking only when [calculation]
    is, and a field whose value is [undefined] is not written. *)
Definition declaredBySystem (now : Z) (winningNumber : Digit)
    (profitData : option OptimalResult) (calculation : option Calculation.t)
    (r : GameRound.t) : GameRound.t :=
  GameRound.mk (GameRound.period r) RoundStatus.RESULT_DECLARED
    ResultStatus.DECLARED (Some winningNumber)
    (Some (NUMBER_COLORS winningNumber)) (Some (NUMBER_SIZES winningNumber))
    (Some ResultDeclaredBy.SYSTEM) (Some now) (GameRound.declaredByAdminId r)
    (GameRound.startTime r) (Some now)
    (match profitData with
     | Some p => Some (optimal_totalCollection p)
     | None => GameRound.totalCollection r
     end)
    (match profitData with
     | Some p => Some (optimal_totalLiability p)
     | None => GameRound.totalPayout r
     end)
    (match profitData with
     | Some p => Some (optimal_profit p)
     | None => GameRound.profit r
     end)
    (match profitData with
     | Some p => Some (optimal_profitPercent p)
     | None => GameRound.profitPercent r
     end)
    (match calculation with
     | Some c => Some (Calculation.results c)
     | None => GameRound.calculationData r
     end)
    (match profitData ≫= optimal_selectedRank with
     | Some rank => Some rank
     | None => GameRound.selectedResultRank r
     end)
    (match profitData with
     | Some p => optimal_isProfitable p
     | None => GameRound.isProfitable r
     end)
    (match profitData with
     | Some p =>
         if decide (optimal_profit p < 0) then Some (Math_abs (optimal_profit p))
         else None
     | None => GameRound.lossAmount r
     end).

(** [saveSystemResult(gameRoundId, winningNumber, profitData, calculation)];
    [now] is [new Date()]. *)
Definition saveSystemResult (now : Z) (gameRoundId : string)
    (winningNumber : Digit) (profitData : option OptimalResult)
    (calculation : option Calculation.t) : Async GameRound.t :=
  let winningColor := NUMBER_COLORS winningNumber in
  let winningSize := NUMBER_SIZES winningNumber in
  updatedRound ← prisma.gameRound_update gameRoundId
    (declaredBySystem now winningNumber profitData calculation);
  processBetsWithResult gameRoundId winningNumber winningColor winningSize;;
  mret updatedRound.

(** [autoCalculateResult(gameRoundId)]; the three random values are those of
    [calculateOptimalResult].  The engine never returns a falsy result, so
    the branch for it is not taken. *)
Definition autoCalculateResult (now : Z) (random_digit random_index random : Qc)
    (gameRoundId : string) : Async GameRound.t :=
  optimalResult ← calculateOptimalResult profitEngine random_digit random_index
                     random gameRoundId;
  calculation ← gets (calculateAllResultsLiability profitEngine gameRoundId);
  storeCalculationData gameRoundId optimalResult calculation;;
  saveSystemResult now gameRoundId (optimal_number optimalResult)
    (Some optimalResult) calculation.

(** The [recommended] object of the preview. *)
Record Recommended := mkRecommended {
  recommended_number : Digit;
  recommended_color : Color;
  recommended_size : Size;
  recommended_profit : Qc;
  recommended_profitPercent : Qc
}.

(** An element of [allResults] in the preview. *)
Record PreviewResult := mkPreviewResult {
  preview_number : Digit;
  preview_color : Color;
  preview_size : Size;
  preview_profit : Qc;
  preview_profitPercent : Qc;
  preview_isProfitable : bool
}.

(** The object returned by [previewResultCalculation]: [NoBetsPlacedYet] is
    [{ message: 'No bets placed yet', results: [] }]. *)
Inductive Preview :=
  | NoBetsPlacedYet
  | PreviewOf (totalCollection : Qc) (totalBets : nat) (recommended : Recommended)
      (allResults : list PreviewResult).

(** [previewResultCalculation(gameRoundId)]; reading [recommended.number]
    throws when the ranking is empty. *)
Definition previewResultCalculation (gameRoundId : string) : Async Preview :=
  calculation ← gets (calculateAllResultsLiability profitEngine gameRoundId);
  match calculation with
  | None => mret NoBetsPlacedYet
  | Some calculation =>
      match Calculation.results calculation !! 0%nat with
      | None => throw TypeError_undefined
      | Some recommended =>
          mret (PreviewOf (Calculation.totalCollection calculation)
                  (Calculation.totalBets calculation)
                  (mkRecommended (Candidate.number recommended)
                     (Candidate.color recommended) (Candidate.size recommended)
                     (Candidate.profit recommended)
                     (Candidate.profitPercent recommended))
                  ((λ r, mkPreviewResult (Candidate.number r) (Candidate.color r)
                           (Candidate.size r) (Candidate.profit r)
                           (Candidate.profitPercent r) (Candidate.isProfitable r))
                     <$> Calculation.results calculation))
      end
  end.

End GameAdminService.

(** ** services/riskDashboard.service.js *)

Module RiskDashboardService.

Inductive RiskLevel := SAFE | HIGH_LOSS | MEDIUM_RISK | SAFE_PROFIT.

#[global] Instance RiskLevel_eq_dec : EqDecision RiskLevel.
Proof. solve_decision. Defined.

(** An element of [winningBets]. *)
Record WinningBet := mkWinningBet {
  betId : string;
  userId : string;
  betType : BetType;
  selection : string;
  amount : Qc;
  winAmount : Qc
}.

#[global] Instance WinningBet_eq_dec : EqDecision WinningBet.
Proof. solve_decision. Defined.

Record DualColorInfo := mkDualColorInfo {
  dual_number : Digit;
  dualColors : list Color;
  specialPayoutRule : bool;
  affectedColors : list Color
}.

#[global] Instance DualColorInfo_eq_dec : EqDecision DualColorInfo.
Proof. solve_decision. Defined.

(** The three running payouts and the winning bets collected so far. *)
Record Tally := mkTally {
  tally_colorPayout : Qc;
  tally_sizePayout : Qc;
  tally_numberPayout : Qc;
  tally_winningBets : list WinningBet
}.

(** One iteration of [for (const bet of bets)] for the digit [number]. *)
Definition analyseBet (number : Digit) (acc : Tally) (entry : string * Bet.t)
    : Tally :=
  let '(id, bet) := entry in
  let color := NUMBER_COLORS number in
  let size := NUMBER_SIZES number in
  let won (winAmount : Qc) :=
    tally_winningBets acc
    ++ [mkWinningBet id (Bet.userId bet) (Bet.betType bet) (Bet.selection bet)
          (Bet.amount bet) winAmount] in
  match Bet.betType bet with
  | COLOR =>
      if decide (Bet.selection bet = Color_name color) then
        let winAmount :=
          if decide ((number = D0 ∧ Bet.selection bet = "GREEN")
                     ∨ (number = D5 ∧ Bet.selection bet = "RED"))
          then Bet.amount bet * dec 145 100
          else
            Bet.amount bet
            * (if decide (color = VIOLET) then PAYOUTS.COLOR VIOLET
               else PAYOUTS.COLOR color) in
        mkTally (tally_colorPayout acc + winAmount) (tally_sizePayout acc)
          (tally_numberPayout acc) (won winAmount)
      else if decide (Bet.selection bet = "VIOLET" ∧ (number = D0 ∨ number = D5)) then
        let winAmount := Bet.amount bet * PAYOUTS.COLOR VIOLET in
        mkTally (tally_colorPayout acc + winAmount) (tally_sizePayout acc)
          (tally_numberPayout acc) (won winAmount)
      else acc
  | SIZE =>
      if decide (Bet.selection bet = Size_name size) then
        let winAmount := Bet.amount bet * PAYOUTS.SIZE size in
        mkTally (tally_colorPayout acc) (tally_sizePayout acc + winAmount)
          (tally_numberPayout acc) (won winAmount)
      else acc
  | NUMBER =>
      if decide (parseInt (Bet.selection bet) = Some (Digit_toZ number)) then
        let winAmount := Bet.amount bet * PAYOUTS.NUMBER in
        mkTally (tally_colorPayout acc) (tally_sizePayout acc)
          (tally_numberPayout acc + winAmount) (won winAmount)
      else acc
  end.

(** An element of the array returned by [calculateResultAnalysis]. *)
Record ResultAnalysis := mkResultAnalysis {
  number : Digit;
  color : Color;
  size : Size;
  colorPayout : Qc;
  sizePayout : Qc;
  numberPayout : Qc;
  totalPayout : Qc;
  totalCollection : Qc;
  profit : Qc;
  profitPercent : Qc;
  riskLevel : RiskLevel;
  isDualColor : bool;
  dualColorInfo : option DualColorInfo;
  winningBetsCount : nat;
  winningBets : list WinningBet
}.

#[global] Instance ResultAnalysis_eq_dec : EqDecision ResultAnalysis.
Proof. solve_decision. Defined.

(** The body of [for (let number = 0; number <= 9; number++)]. *)
Definition analysisFor (bets : list (string * Bet.t)) (totalCollection : Qc)
    (number : Digit) : ResultAnalysis :=
  let acc := foldl (analyseBet number) (mkTally 0 0 0 []) bets in
  let totalPayout :=
    tally_colorPayout acc + tally_sizePayout acc + tally_numberPayout acc in
  let profit := totalCollection - totalPayout in
  let profitPercent :=
    if decide (0 < totalCollection) then (profit / totalCollection) * dec 100 1
    else 0 in
  let riskLevel :=
    if decide (profitPercent < 0) then HIGH_LOSS
    else if decide (profitPercent < dec 10 1) then MEDIUM_RISK
    else if decide (dec 20 1 ≤ profitPercent) then SAFE_PROFIT
    else SAFE in
  let isDualColor := bool_decide (number = D0 ∨ number = D5) in
  let dualColorInfo :=
    if isDualColor then
      Some (mkDualColorInfo number
              (if decide (number = D0) then [GREEN; VIOLET] else [RED; VIOLET])
              true
              (if decide (number = D0) then [GREEN] else [RED]))
    else None in
  mkResultAnalysis number (NUMBER_COLORS number) (NUMBER_SIZES number)
    (tally_colorPayout acc) (tally_sizePayout acc) (tally_numberPayout acc)
    totalPayout totalCollection profit profitPercent riskLevel isDualColor
    dualColorInfo (length (tally_winningBets acc)) (tally_winningBets acc).

(** [calculateResultAnalysis(bets, totalCollection)]; each bet comes with
    its id. *)
Definition calculateResultAnalysis (bets : list (string * Bet.t))
    (totalCollection : Qc) : list ResultAnalysis :=
  Array_sort (λ a b, profit b - profit a)
    (analysisFor bets totalCollection <$> all_digits).

(** The objects of [recommended] and [alternatives]. *)
Record Recommendation := mkRecommendation {
  recommendation_number : Digit;
  recommendation_color : Color;
  recommendation_size : Size;
  recommendation_profit : Qc;
  recommendation_profitPercent : Qc;
  recommendation_riskLevel : RiskLevel
}.

Definition recommendationOf (r : ResultAnalysis) : Recommendation :=
  mkRecommendation (number r) (color r) (size r) (profit r) (profitPercent r)
    (riskLevel r).

Record RecommendedResult := mkRecommendedResult {
  recommended : Recommendation;
  alternatives : list Recommendation
}.

(** [getRecommendedResult(resultAnalysis)]; reading [bestResult.number]
    throws when the array is empty.  [slice(1, 4)] is the three elements
    after the first. *)
Definition getRecommendedResult (resultAnalysis : list ResultAnalysis)
    : Completion RecommendedResult :=
  match resultAnalysis !! 0%nat with
  | None => Throw TypeError_undefined
  | Some bestResult =>
      Return (mkRecommendedResult (recommendationOf bestResult)
                (recommendationOf <$> take 3 (drop 1 resultAnalysis)))
  end.

End RiskDashboardService.

(** ** services/gameService.js *)

Module GameService.

(** One iteration of [for (const bet of bets)] in [calculateWinningNumber]:
    [numberBets] is the object with the keys 0 to 9; a NUMBER bet adds its
    amount to the key [parseInt(bet.selection)], a COLOR or SIZE bet to
    every key whose colour or size it names.  A key other than 0 to 9 that
    a NUMBER bet creates is never read. *)
Definition addToNumberBets (numberBets : Digit → Qc) (bet : Bet.t) : Digit → Qc :=
  match Bet.betType bet with
  | NUMBER => λ i,
      if decide (parseInt (Bet.selection bet) = Some (Digit_toZ i))
      then numberBets i + Bet.amount bet else numberBets i
  | COLOR => λ i,
      if decide (Color_name (NUMBER_COLORS i) = Bet.selection bet
                 ∨ (Bet.selection bet = "VIOLET" ∧ (i = D0 ∨ i = D5)))
      then numberBets i + Bet.amount bet else numberBets i
  | SIZE => λ i,
      if decide (Size_name (NUMBER_SIZES i) = Bet.selection bet)
      then numberBets i + Bet.amount bet else numberBets i
  end.

(** One iteration of the search for the minimum; [minBet] is [None] while it
    is [Infinity]. *)
Definition minimumStep (numberBets : Digit → Qc)
    (state : option Qc * list Digit) (i : Digit) : option Qc * list Digit :=
  let '(minBet, winningNumbers) := state in
  if match minBet with
     | None => true
     | Some m => bool_decide (numberBets i < m)
     end
  then (Some (numberBets i), [i])
  else if decide (Some (numberBets i) = minBet) then (minBet, winningNumbers ++ [i])
  else (minBet, winningNumbers).

(** [calculateWinningNumber(roundId)]; [random] is the value of
    [Math.random()], and [None] is [undefined].  The [catch] branch is taken
    only when the query fails. *)
Definition calculateWinningNumber (random : Qc) (roundId : string) (db : DB)
    : option Digit :=
  let bets := (prisma.bet_findMany roundId db).*2 in
  if decide (length bets = 0%nat) then Some (randomDigit random)
  else
    let numberBets := foldl addToNumberBets (λ _, 0) bets in
    let winningNumbers := (foldl (minimumStep numberBets) (None, []) all_digits).2 in
    winningNumbers
      !! Z.to_nat (Math_floor (random * Q2Qc (inject_Z (Z.of_nat (length winningNumbers))))).

End GameService.

(** * Vocabulary of the statements *)

(** ** Sums and rankings *)

(** The sum of a list of amounts. *)
Definition sumQc (l : list Qc) : Qc := foldr Qcplus 0 l.

(** Ranking by a numeric score, highest first, ties by an index. *)
Section Ranking.
Context {A : Type} (score : A → Qc) (index : A → Z).

Definition ranks_before (a b : A) : Prop :=
  score b < score a ∨ (score a = score b ∧ (index a < index b)%Z).

Definition index_before (a b : A) : Prop := (index a < index b)%Z.

End Ranking.

(** The three payouts before the first bet. *)
Definition noPayouts : Payouts := mkPayouts 0 0 0.

(** ** Loops over the bets of a round *)

(** What one iteration of a loop over bets does to the store: it may
    overwrite the result and win amount of the bet, and it may pay an amount
    into the wallet of the bettor and log a transaction for it. *)
Record Effect := mkEffect {
  newResult : option (BetResult.t * Qc);
  payment : option (Qc * Transaction.t)
}.

Definition rowAfter (e : Effect) (row : Bet.t) : Bet.t :=
  match newResult e with
  | Some (r, w) => Bet.set_result r w row
  | None => row
  end.

Definition applyEffect (e : Effect) (x : string * Bet.t) (db : DB) : DB :=
  mkDB (gameRounds db)
    (match newResult e with
     | Some _ => alter (rowAfter e) x.1 (bets db)
     | None => bets db
     end)
    (match payment e with
     | Some (a, _) => alter (λ balance, balance + a) (Bet.userId x.2) (wallets db)
     | None => wallets db
     end)
    (match payment e with
     | Some (_, t) => transactions db ++ [t]
     | None => transactions db
     end).

(** The rows an iteration writes to exist. *)
Definition enabled (e : Effect) (x : string * Bet.t) (db : DB) : Prop :=
  (is_Some (newResult e) → is_Some (bets db !! x.1))
  ∧ (is_Some (payment e) → is_Some (wallets db !! Bet.userId x.2)).

Section Effects.
Context (eff : string * Bet.t → Effect).

Definition runEffects (l : list (string * Bet.t)) (db : DB) : DB :=
  foldl (λ db x, applyEffect (eff x) x db) db l.

(** The amount the loop pays into the wallet of [userId]. *)
Definition paidTo (userId : string) (l : list (string * Bet.t)) : Qc :=
  sumQc (omap (λ x, if decide (Bet.userId x.2 = userId)
                    then fst <$> payment (eff x) else None) l).

End Effects.

(** ** Settlement *)

Definition settlementEffect (id : string) (bet : Bet.t) (isWin : bool)
    (winAmount : Qc) : Effect :=
  mkEffect
    (Some (if isWin then BetResult.WON else BetResult.LOST,
           if isWin then winAmount else 0))
    (if isWin then Some (winAmount, wonTransaction id bet winAmount) else None).

Section SettlementPass.
Context (evaluate : Bet.t → bool * Qc).

(** The loop of [processBets] and of [processBetsWithResult], each with its
    own evaluation of a bet. *)
Definition settlementLoop (l : list (string * Bet.t)) : Async unit :=
  for_of l (λ '(id, bet),
    let '(isWin, winAmount) := evaluate bet in
    settlementUnit id bet isWin winAmount).

Definition settlementEffectOf (x : string * Bet.t) : Effect :=
  settlementEffect x.1 x.2 (evaluate x.2).1 (evaluate x.2).2.

(** A row after the pass over the round [gameRoundId]. *)
Definition settledRow (gameRoundId : string) (row : Bet.t) : Bet.t :=
  if decide (Bet.gameRoundId row = gameRoundId) then
    Bet.set_result
      (if (evaluate row).1 then BetResult.WON else BetResult.LOST)
      (if (evaluate row).1 then (evaluate row).2 else 0) row
  else row.

(** The winning bets, the transactions logged for them and the amount they
    bring a user. *)
Definition winners (l : list (string * Bet.t)) : list (string * Bet.t) :=
  filter (λ x, (evaluate x.2).1 = true) l.

Definition wonTransactions (l : list (string * Bet.t)) : list Transaction.t :=
  (λ x, wonTransaction x.1 x.2 (evaluate x.2).2) <$> winners l.

Definition wonBy (userId : string) (l : list (string * Bet.t)) : Qc :=
  sumQc ((λ x, (evaluate x.2).2) <$> filter (λ x, Bet.userId x.2 = userId) (winners l)).

End SettlementPass.

(** The sum of the [winAmount] column over a list of rows. *)
Definition totalWinAmount (l : list (string * Bet.t)) : Qc :=
  sumQc ((λ x, default 0 (Bet.winAmount x.2)) <$> l).

(** A bet carries the outcome of a settlement pass. *)
Definition settledBy (evaluate : Bet.t → bool * Qc) (bet : Bet.t) : Prop :=
  Bet.result bet = (if (evaluate bet).1 then BetResult.WON else BetResult.LOST)
  ∧ Bet.winAmount bet = Some (if (evaluate bet).1 then (evaluate bet).2 else 0).

#[global] Instance settledBy_dec (evaluate : Bet.t → bool * Qc) (bet : Bet.t) :
  Decision (settledBy evaluate bet).
Proof. unfold settledBy. apply _. Defined.

(** Two rows of [bets] agree in every column but [result] and
    [winAmount]. *)
Definition sameBet (bet row : Bet.t) : Prop :=
  Bet.userId row = Bet.userId bet
  ∧ Bet.gameRoundId row = Bet.gameRoundId bet
  ∧ Bet.betType row = Bet.betType bet
  ∧ Bet.selection row = Bet.selection bet
  ∧ Bet.amount row = Bet.amount bet
  ∧ Bet.potentialWin row = Bet.potentialWin bet.

(** The row a settlement writes for a bet: the bet with the result and the
    win amount of its evaluation. *)
Definition settledFrom (evaluate : Bet.t → bool * Qc) (bet row : Bet.t) : Prop :=
  sameBet bet row
  ∧ Bet.result row = (if (evaluate bet).1 then BetResult.WON else BetResult.LOST)
  ∧ Bet.winAmount row = Some (if (evaluate bet).1 then (evaluate bet).2 else 0).

(** ** Cancellation *)

Section Cancellation.
Context (period : string).

Definition refundEffect (x : string * Bet.t) : Effect :=
  if decide (Bet.result x.2 = BetResult.PENDING) then
    mkEffect (Some (BetResult.CANCELLED, 0))
      (Some (Bet.amount x.2, GameAdminService.refundTransaction period x.1 x.2))
  else mkEffect None None.

(** The bets the loop refunds, the transactions logged for them and the
    amount they return to a user. *)
Definition pendingBets (l : list (string * Bet.t)) : list (string * Bet.t) :=
  filter (λ x, Bet.result x.2 = BetResult.PENDING) l.

Definition refundTransactions (l : list (string * Bet.t)) : list Transaction.t :=
  (λ x, GameAdminService.refundTransaction period x.1 x.2) <$> pendingBets l.

Definition refundedTo (userId : string) (l : list (string * Bet.t)) : Qc :=
  sumQc ((λ x, Bet.amount x.2) <$> filter (λ x, Bet.userId x.2 = userId) (pendingBets l)).

End Cancellation.

(** A row after the cancellation of the round [gameRoundId]. *)
Definition cancelledRow (gameRoundId : string) (row : Bet.t) : Bet.t :=
  if decide (Bet.gameRoundId row = gameRoundId ∧ Bet.result row = BetResult.PENDING)
  then Bet.set_result BetResult.CANCELLED 0 row
  else row.

(** ** Placement *)

(** The row and the log record a placement writes. *)
Definition placedBet (userId : string) (betData : BetService.BetData) : Bet.t :=
  Bet.mk userId (BetService.gameRoundId betData) (BetService.betType betData)
    (toUpperCase (BetService.selection betData)) (BetService.amount betData)
    (match BetService.betType betData with
     | COLOR =>
         BetService.amount betData
         * default (dec 195 100)
             (BetService.payoutOfColorName (toUpperCase (BetService.selection betData)))
     | NUMBER => BetService.amount betData * PAYOUTS.NUMBER
     | SIZE =>
         BetService.amount betData
         * default (dec 195 100)
             (BetService.payoutOfSizeName (toUpperCase (BetService.selection betData)))
     end)
    BetResult.PENDING None.

(** ** Clean-up of old rounds *)

(** The rounds whose result is declared, and the ids [cleanupOldRounds]
    deletes. *)
Definition declaredRounds (db : DB) : list (string * GameRound.t) :=
  filter (λ p, GameRound.resultStatus p.2 = ResultStatus.DECLARED)
    (map_to_list (gameRounds db)).

Definition roundsToDelete (db : DB) : list string :=
  (take (length (declaredRounds db) - 500)
     (merge_sort GameAdminService.declaredAt_le (declaredRounds db))).*1.

(** ** Selection and validation *)

(** The candidate of a digit is within the loss limit, on a round with
    bets. *)
Definition acceptableOn (this : ProfitEngineService) (gameRoundId : string)
    (number : Digit) (db : DB) : Prop :=
  match calculateAllResultsLiability this gameRoundId db with
  | Some calculation =>
      Forall (λ c, Candidate.number c = number → Candidate.isAcceptable c = true)
        (Calculation.results calculation)
  | None => True
  end.

#[global] Instance acceptableOn_dec (this : ProfitEngineService)
    (gameRoundId : string) (number : Digit) (db : DB) :
  Decision (acceptableOn this gameRoundId number db).
Proof.
  unfold acceptableOn.
  destruct (calculateAllResultsLiability this gameRoundId db); apply _.
Defined.

(** The digits of a ranking of the exact calculation, each with its two
    flags. *)
Definition flagsOf (calculation : Calculation.t) : list (Digit * bool * bool) :=
  (λ c, (Candidate.number c, Candidate.isProfitable c, Candidate.isAcceptable c))
    <$> Calculation.results calculation.

(** The rounding of doubles decides nothing on a round: the calculation in
    doubles ranks the digits in the order of the exact calculation, and
    gives each candidate the same two flags. *)
Definition decidedAlike (this : ProfitEngineService) (gameRoundId : string)
    (db : DB) : Prop :=
  Double.flags <$> Double.calculateAllResultsLiability this gameRoundId db
  = flagsOf <$> calculateAllResultsLiability this gameRoundId db.

#[global] Instance decidedAlike_dec (this : ProfitEngineService)
    (gameRoundId : string) (db : DB) : Decision (decidedAlike this gameRoundId db).
Proof. unfold decidedAlike. apply _. Defined.

(** The multiplier a bet is paid with when a digit is drawn, 0 when it
    loses. *)
Definition multiplierOn (bet : Bet.t) (number : Digit) : Qc :=
  match Bet.betType bet with
  | NUMBER =>
      if decide (parseInt (Bet.selection bet) = Some (Digit_toZ number))
      then PAYOUTS.NUMBER else 0
  | COLOR =>
      if decide (Bet.selection bet = "VIOLET" ∧ (number = D0 ∨ number = D5))
      then PAYOUTS.COLOR VIOLET
      else if decide (Bet.selection bet = Color_name (NUMBER_COLORS number))
      then PAYOUTS.COLOR (NUMBER_COLORS number)
      else 0
  | SIZE =>
      if decide (Bet.selection bet = Size_name (NUMBER_SIZES number))
      then PAYOUTS.SIZE (NUMBER_SIZES number) else 0
  end.

(** The stakes of the bets that win when a digit is drawn. *)
Definition stakeWinningOn (number : Digit) (bets : list (string * Bet.t)) : Qc :=
  sumQc ((λ x, Bet.amount x.2)
           <$> winners (evaluateBet number (NUMBER_COLORS number) (NUMBER_SIZES number))
                 bets).

(** ** The risk dashboard *)

(** A row of the dashboard analysis carries the figures of a candidate of
    the liability calculator. *)
Definition agrees (r : RiskDashboardService.ResultAnalysis) (c : Candidate.t) : Prop :=
  RiskDashboardService.number r = Candidate.number c
  ∧ RiskDashboardService.color r = Candidate.color c
  ∧ RiskDashboardService.size r = Candidate.size c
  ∧ RiskDashboardService.colorPayout r = Candidate.colorPayout c
  ∧ RiskDashboardService.sizePayout r = Candidate.sizePayout c
  ∧ RiskDashboardService.numberPayout r = Candidate.numberPayout c
  ∧ RiskDashboardService.totalPayout r = Candidate.totalLiability c
  ∧ RiskDashboardService.totalCollection r = Candidate.totalCollection c
  ∧ RiskDashboardService.profit r = Candidate.profit c
  ∧ RiskDashboardService.profitPercent r = Candidate.profitPercent c.


(** The three payouts of a tally. *)
Definition payoutsOf (t : RiskDashboardService.Tally) : Payouts :=
  mkPayouts (RiskDashboardService.tally_colorPayout t)
    (RiskDashboardService.tally_sizePayout t)
    (RiskDashboardService.tally_numberPayout t).

(** ** Calls of the services *)

(** The service calls that routes, sockets and the round timer make. *)
Inductive Operation :=
  | PlaceBet (newId userId : string) (betData : BetService.BetData)
  | DeclareResult (now : Z) (gameRoundId winningOption adminId : string)
  | AutoCalculateResult (now : Z) (random_digit random_index random : Qc)
      (gameRoundId : string)
  | CancelRound (now : Z) (gameRoundId adminId : string)
  | UpdateRoundStatus (gameRoundId : string) (status : RoundStatus.t).

(** The store a call leaves behind, whether it returns or throws. *)
Definition run (op : Operation) (db : DB) : DB :=
  match op with
  | PlaceBet newId userId betData =>
      (BetService.placeBet newId userId betData db).2
  | DeclareResult now gameRoundId winningOption adminId =>
      (GameAdminService.declareResult now gameRoundId winningOption adminId db).2
  | AutoCalculateResult now random_digit random_index random gameRoundId =>
      (GameAdminService.autoCalculateResult now random_digit random_index random
         gameRoundId db).2
  | CancelRound now gameRoundId adminId =>
      (GameAdminService.cancelRound now gameRoundId adminId db).2
  | UpdateRoundStatus gameRoundId status =>
      (GameAdminService.updateRoundStatus gameRoundId status db).2
  end.

Definition runAll (ops : list Operation) (db : DB) : DB :=
  foldl (λ db op, run op db) db ops.

(** A computation keeps a relation between the store it finds and the store
    it leaves; [returnsIn] asks this only of the runs that return. *)
Section Preservation.
Context (R : relation DB).

Definition preservesAt {A : Type} (db : DB) (m : Async A) : Prop := R db (m db).2.

Definition returnsIn {A : Type} (db : DB) (m : Async A) : Prop :=
  ∀ a db', m db = (Return a, db') → R db db'.

End Preservation.

(** The status of a round says that its result is declared exactly when
    its result status does. *)
Definition coherent (round : GameRound.t) : Prop :=
  GameRound.status round = RoundStatus.RESULT_DECLARED
  ↔ GameRound.resultStatus round = ResultStatus.DECLARED.

#[global] Instance coherent_dec (round : GameRound.t) : Decision (coherent round).
Proof. unfold coherent. apply _. Defined.

(** How a row of [game_rounds] may change: period and start time stay, a
    declared result stays declared, and a coherent row stays coherent. *)
Definition rowEvolves (round round' : GameRound.t) : Prop :=
  GameRound.period round' = GameRound.period round
  ∧ GameRound.startTime round' = GameRound.startTime round
  ∧ (GameRound.resultStatus round = ResultStatus.DECLARED →
     GameRound.resultStatus round' = ResultStatus.DECLARED)
  ∧ (coherent round → coherent round').

(** How the table may change: no row appears, and the rows that remain
    evolve. *)
Definition roundsEvolve (db db' : DB) : Prop :=
  ∀ id round', gameRounds db' !! id = Some round' →
    ∃ round, gameRounds db !! id = Some round ∧ rowEvolves round round'.

(** What a transaction record does to the balance of its user. *)
Definition signedAmount (t : Transaction.t) : Qc :=
  match Transaction.type t with
  | TransactionType.WITHDRAWAL | TransactionType.BET_PLACED => - Transaction.amount t
  | TransactionType.DEPOSIT | TransactionType.BET_WON
  | TransactionType.REFERRAL_BONUS | TransactionType.REFUND => Transaction.amount t
  end.

Definition balanceChange (userId : string) (log : list Transaction.t) : Qc :=
  sumQc (signedAmount <$> filter (λ t, Transaction.userId t = userId) log).

(** The log grows by records that account for every change of a balance,
    and no wallet appears or disappears. *)
Definition accountedFor (db db' : DB) : Prop :=
  ∃ records,
    transactions db' = transactions db ++ records
    ∧ ∀ userId, wallets db' !! userId
        = (λ balance, balance + balanceChange userId records) <$> wallets db !! userId.

(** ** Scenarios *)

Module Scenario.

Definition openRound : GameRound.t :=
  GameRound.mk "20260101-0001" RoundStatus.OPEN ResultStatus.PENDING
    None None None None None None 0 None None None None None None None false None.

Definition pausedRound : GameRound.t :=
  GameAdminService.withStatus RoundStatus.PAUSED openRound.

Definition declaredRound : GameRound.t :=
  GameAdminService.declaredByAdmin 30 "admin" D2 RED SMALL None None openRound.

Definition colorBet (userId selection : string) (stake : Z) : Bet.t :=
  Bet.mk userId "r1" COLOR selection (dec stake 1)
    (dec stake 1 * dec 195 100) BetResult.PENDING None.

Definition sizeBet (userId selection : string) (stake : Z) : Bet.t :=
  Bet.mk userId "r1" SIZE selection (dec stake 1)
    (dec stake 1 * dec 195 100) BetResult.PENDING None.

(** Scenario B: one GREEN bet of 100 on an open round. *)
Definition greenBet : Bet.t := colorBet "u1" "GREEN" 100.

Definition greenStore : DB :=
  mkDB {[ "r1" := openRound ]} {[ "b1" := greenBet ]} {[ "u1" := dec 900 1 ]} [].

(** The same bet on a paused round. *)
Definition pausedStore : DB :=
  mkDB {[ "r1" := pausedRound ]} {[ "b1" := greenBet ]} {[ "u1" := dec 900 1 ]} [].

(** One RED bet of 100 on a round declared on digit 2, before settlement,
    after one settlement pass and after two. *)
Definition redBet : Bet.t := colorBet "u1" "RED" 100.

Definition declaredStore : DB :=
  mkDB {[ "r1" := declaredRound ]} {[ "b1" := redBet ]} {[ "u1" := dec 0 1 ]} [].

Definition settledOnce : DB :=
  mkDB {[ "r1" := declaredRound ]}
    {[ "b1" := Bet.set_result BetResult.WON (dec 195 1) redBet ]}
    {[ "u1" := dec 195 1 ]}
    [wonTransaction "b1" redBet (dec 195 1)].

Definition settledTwice : DB :=
  mkDB {[ "r1" := declaredRound ]}
    {[ "b1" := Bet.set_result BetResult.WON (dec 195 1) redBet ]}
    {[ "u1" := dec 390 1 ]}
    [wonTransaction "b1" redBet (dec 195 1); wonTransaction "b1" redBet (dec 195 1)].

(** A round hedged by one BIG and one SMALL bet of 100: every digit pays
    195 out of 200. *)
Definition hedgedStore : DB :=
  mkDB {[ "r1" := openRound ]}
    {[ "b1" := sizeBet "u1" "BIG" 100; "b2" := sizeBet "u2" "SMALL" 100 ]}
    {[ "u1" := dec 0 1; "u2" := dec 0 1 ]} [].

(** Scenario F: three pending bets of 50, 75 and 20. *)
Definition threeBets : DB :=
  mkDB {[ "r1" := openRound ]}
    {[ "b1" := colorBet "u1" "GREEN" 50;
       "b2" := colorBet "u2" "RED" 75;
       "b3" := sizeBet "u3" "BIG" 20 ]}
    {[ "u1" := dec 0 1; "u2" := dec 10 1; "u3" := dec 5 1 ]} [].

(** A round without bets. *)
Definition emptyRound : DB :=
  mkDB {[ "r1" := openRound ]} ∅ ∅ [].


Definition greenRanking : Calculation.t :=
  Calculation.mk "r1" (dec 100 1) 1
    (Array_sort (λ a b, Candidate.profit b - Candidate.profit a)
       (candidateFor profitEngine [greenBet] (dec 100 1) <$> all_digits)).

(** A RED bet of 100 and a GREEN bet of 10 on an open round. *)
Definition twoBets : DB :=
  mkDB {[ "r1" := openRound ]}
    {[ "b1" := colorBet "u1" "RED" 100; "b2" := colorBet "u2" "GREEN" 10 ]}
    {[ "u1" := dec 0 1; "u2" := dec 0 1 ]} [].

(** The store after the admin has declared digit 1 on it. *)
Definition twoBetsDeclared : DB :=
  (GameAdminService.declareResult 30 "r1" "1" "admin" twoBets).2.

(** And after the system result has then been triggered for the same round,
    with random values that take the 10-percent branch and its third
    candidate. *)
Definition twoBetsDeclaredAgain : DB :=
  (GameAdminService.autoCalculateResult 60 (dec 0 1) (dec 40 100) (dec 95 100) "r1"
     twoBetsDeclared).2.

(** A round with one GREEN bet and a second user who has not bet yet. *)
Definition fundedStore : DB :=
  mkDB {[ "r1" := openRound ]} {[ "b1" := greenBet ]}
    {[ "u1" := dec 900 1; "u2" := dec 500 1 ]} [].

(** The second user stakes 10 on the number 7. *)
Definition numberBetData : BetService.BetData :=
  BetService.mkBetData "r1" NUMBER "7" (dec 10 1).

Definition placedStore : DB :=
  (BetService.placeBet "b2" "u2" numberBetData fundedStore).2.

(** The same round after the admin has paused it. *)
Definition pausedFundedStore : DB :=
  (GameAdminService.updateRoundStatus "r1" RoundStatus.PAUSED fundedStore).2.

(** Two RED bets, the second by a user without a wallet. *)
Definition orphanStore : DB :=
  mkDB {[ "r1" := openRound ]}
    {[ "b1" := colorBet "u1" "RED" 100; "b2" := colorBet "u9" "RED" 10 ]}
    {[ "u1" := dec 0 1 ]} [].


Definition noRanking : Calculation.t := Calculation.mk "r1" 0 0 [].

(** The rankings of the round with three bets under both engines. *)
Definition threeBetsRanking : Calculation.t :=
  default noRanking (calculateAllResultsLiability profitEngine "r1" threeBets).



(** Three GREEN bets and a RED bet that add up to the same stake, 664: every
    digit but 0 and 5 pays 664 times 1.95.  The query returns the bets in
    the order b3, b1, b2, b4: 343, 204, 117 and 664 in the first store, and
    343, 117, 204 and 664 in the second. *)
Definition tiedRound : DB :=
  mkDB {[ "r1" := openRound ]}
    {[ "b1" := colorBet "u1" "GREEN" 204;
       "b2" := colorBet "u2" "GREEN" 117;
       "b3" := colorBet "u3" "GREEN" 343;
       "b4" := colorBet "u4" "RED" 664 ]}
    {[ "u1" := dec 0 1; "u2" := dec 0 1; "u3" := dec 0 1; "u4" := dec 0 1 ]} [].


(** A BIG bet of 220 and a SMALL bet of 209: on the digits 0 to 4 the house
    keeps exactly 5 percent of the collection. *)
Definition limitRound : DB :=
  mkDB {[ "r1" := openRound ]}
    {[ "b1" := sizeBet "u1" "BIG" 220; "b2" := sizeBet "u2" "SMALL" 209 ]}
    {[ "u1" := dec 0 1; "u2" := dec 0 1 ]} [].

(** A GREEN bet of 18.80 and a RED bet of 17.86: on the GREEN digits the
    payout is exactly the collection. *)
Definition breakEvenRound : DB :=
  mkDB {[ "r1" := openRound ]}
    {[ "b1" := Bet.mk "u1" "r1" COLOR "GREEN" (dec 1880 100)
                 (dec 1880 100 * dec 195 100) BetResult.PENDING None;
       "b2" := Bet.mk "u2" "r1" COLOR "RED" (dec 1786 100)
                 (dec 1786 100 * dec 195 100) BetResult.PENDING None ]}
    {[ "u1" := dec 0 1; "u2" := dec 0 1 ]} [].

(** Scenario F after the round has been cancelled, and after a settlement
    pass on digit 1 has then run over it. *)
Definition threeBetsCancelled : DB :=
  (GameAdminService.cancelRound 30 "r1" "admin" threeBets).2.

Definition threeBetsCancelledSettled : DB :=
  (GameAdminService.processBetsWithResult "r1" D1 GREEN SMALL threeBetsCancelled).2.

(** A sequence of calls on the funded round: a bet, a pause, a declaration
    by the admin, an attempt to cancel and a system result. *)
Definition calls : list Operation :=
  [ PlaceBet "b2" "u2" numberBetData;
    UpdateRoundStatus "r1" RoundStatus.PAUSED;
    DeclareResult 30 "r1" "7" "admin";
    CancelRound 40 "r1" "admin";
    AutoCalculateResult 50 (dec 0 1) (dec 40 100) (dec 95 100) "r1" ].

Definition roundAfterCalls : GameRound.t :=
  default openRound (gameRounds (runAll calls fundedStore) !! "r1").

End Scenario.

(** * Properties *)

(** Closed goals on concrete stores are decided by evaluation. *)
Ltac by_evaluation :=
  match goal with
  | |- ?P => apply (bool_decide_eq_true_1 P); vm_compute; reflexivity
  end.

(** ** Stepping through [Async] computations *)

Lemma bind_Return {A B : Type} (m : Async A) (f : A → Async B) (db db' : DB) (a : A) :
  m db = (Return a, db') → (m ≫= f) db = f a db'.
Proof. intros H. unfold mbind, Async_bind. by rewrite H. Qed.

Lemma bind_Throw {A B : Type} (m : Async A) (f : A → Async B) (db db' : DB) (e : Message) :
  m db = (Throw e, db') → (m ≫= f) db = (Throw e, db').
Proof. intros H. unfold mbind, Async_bind. by rewrite H. Qed.

Lemma bind_gets {A B : Type} (g : DB → A) (f : A → Async B) (db : DB) :
  (gets g ≫= f) db = f (g db) db.
Proof. reflexivity. Qed.

Lemma bind_modify {B : Type} (g : DB → DB) (f : unit → Async B) (db : DB) :
  (modify g ≫= f) db = f () (g db).
Proof. reflexivity. Qed.

Lemma bind_throw {A B : Type} (e : Message) (f : A → Async B) (db : DB) :
  (throw e ≫= f) db = (Throw e, db).
Proof. reflexivity. Qed.

(** ** Digits and option parsing *)

Lemma singleDigit_parseInt (s : string) :
  isSingleDigit s = true → parseInt s = Some (Digit_toZ (singleDigit s)).
Proof.
  destruct s as [|a [|b s]]; try discriminate.
  destruct a as [[] [] [] [] [] [] [] []]; try discriminate; intros _;
    reflexivity.
Qed.

(** ** Placement on a round that is not open *)

(** C4.  A placement on a round whose status is not [OPEN] throws, and the
    store it leaves is the store it found: no wallet debit, no bet row, no
    transaction record. *)
Theorem placeBet_not_open_rejected (newId userId : string)
    (betData : BetService.BetData) (db : DB) (gameRound : GameRound.t) :
  gameRounds db !! BetService.gameRoundId betData = Some gameRound →
  GameRound.status gameRound ≠ RoundStatus.OPEN →
  ∃ message, BetService.placeBet newId userId betData db = (Throw message, db).
Proof.
  intros Hround Hstatus. unfold BetService.placeBet.
  rewrite bind_gets. unfold prisma.gameRound_findUnique. rewrite Hround.
  destruct (GameRound.status gameRound) eqn:E; try (by destruct Hstatus);
    repeat (case_decide; try done); unfold throw; eauto.
Qed.

(** ** Rational arithmetic *)

Lemma sumQc_cons (x : Qc) (l : list Qc) : sumQc (x :: l) = x + sumQc l.
Proof. reflexivity. Qed.

Lemma sumQc_app (l1 l2 : list Qc) : sumQc (l1 ++ l2) = sumQc l1 + sumQc l2.
Proof.
  induction l1 as [|x l1 IH]; simpl; [ring|]. rewrite IH. ring.
Qed.

#[global] Instance sumQc_Permutation : Proper ((≡ₚ) ==> (=)) sumQc.
Proof.
  intros l1 l2 H. unfold sumQc.
  induction H as [|x l l' _ IH|x y l|l l' l'' _ IH1 _ IH2]; simpl.
  - done.
  - by rewrite IH.
  - ring.
  - by rewrite IH1.
Qed.

Lemma foldl_Qcplus {A : Type} (f : A → Qc) (l : list A) (acc : Qc) :
  foldl (λ sum x, sum + f x) acc l = acc + sumQc (f <$> l).
Proof.
  revert acc. induction l as [|x l IH]; intros acc; csimpl.
  - unfold sumQc; simpl. ring.
  - rewrite IH. unfold sumQc; simpl. ring.
Qed.

Lemma Qc_sub_le_0 (a b : Qc) : a - b ≤ 0 ↔ a ≤ b.
Proof.
  rewrite (Qcle_minus_iff (a - b) 0), (Qcle_minus_iff a b).
  by replace (0 + - (a - b)) with (b + - a) by ring.
Qed.

(** ** The stable sort *)

Section SortingFacts.
Context {A : Type} (compare : A → A → Qc).

Lemma sort_insert_Permutation (x : A) (l : list A) :
  sort_insert compare x l ≡ₚ x :: l.
Proof.
  induction l as [|y l IH]; simpl; [done|].
  case_decide; [done|]. rewrite IH. apply Permutation_swap.
Qed.

Lemma Array_sort_Permutation (l : list A) : Array_sort compare l ≡ₚ l.
Proof.
  induction l as [|x l IH]; [done|].
  change (Array_sort compare (x :: l))
    with (sort_insert compare x (Array_sort compare l)).
  rewrite sort_insert_Permutation. by rewrite IH.
Qed.

Lemma Array_sort_length (l : list A) : length (Array_sort compare l) = length l.
Proof. by rewrite Array_sort_Permutation. Qed.

End SortingFacts.

Section RankingFacts.
Context {A : Type} (score : A → Qc) (index : A → Z).

Let descending (a b : A) : Qc := score b - score a.

Lemma ranks_before_score (a b : A) : (ranks_before score index) a b → score b ≤ score a.
Proof.
  intros [H|[H _]]; [by apply Qclt_le_weak|]. rewrite H. apply Qcle_refl.
Qed.

Lemma ranks_before_intro (a b : A) :
  score b ≤ score a → (index a < index b)%Z → (ranks_before score index) a b.
Proof.
  intros Hs Hi. destruct (Qcle_lt_or_eq _ _ Hs) as [H|H]; [by left|].
  right. by split.
Qed.

Lemma sort_insert_ranked (x : A) (l : list A) :
  StronglySorted (ranks_before score index) l →
  Forall ((index_before index) x) l →
  StronglySorted (ranks_before score index) (sort_insert descending x l).
Proof.
  induction l as [|y l IH]; intros Hsorted Hindex; simpl.
  { repeat constructor. }
  apply StronglySorted_inv in Hsorted as [Hl Hy].
  apply Forall_cons in Hindex as [Hxy Hxl].
  unfold descending at 1. case_decide as Hcmp.
  - apply (proj1 (Qc_sub_le_0 _ _)) in Hcmp.
    constructor; [by constructor|].
    constructor; [by apply ranks_before_intro|].
    rewrite Forall_forall in Hy, Hxl. apply Forall_forall. intros z Hz.
    apply ranks_before_intro; [|by apply Hxl].
    eapply Qcle_trans; [|exact Hcmp]. by apply ranks_before_score, Hy.
  - constructor; [by apply IH|].
    rewrite sort_insert_Permutation. constructor; [|done].
    left. apply Qcnot_le_lt. intros Hle. by apply Hcmp, Qc_sub_le_0.
Qed.

Lemma Array_sort_ranked (l : list A) :
  StronglySorted (index_before index) l →
  StronglySorted (ranks_before score index) (Array_sort descending l).
Proof.
  induction l as [|x l IH]; intros Hl; [constructor|].
  change (Array_sort descending (x :: l))
    with (sort_insert descending x (Array_sort descending l)).
  apply StronglySorted_inv in Hl as [Hl Hx].
  apply sort_insert_ranked; [by apply IH|].
  by rewrite Array_sort_Permutation.
Qed.

End RankingFacts.

(** [find] by a key that identifies the elements of the array. *)
Lemma Array_find_key {A K : Type} `{EqDecision K} (key : A → K) (l : list A) (x : A) :
  NoDup (key <$> l) → x ∈ l →
  Array_find (λ r, bool_decide (key r = key x)) l = Some x.
Proof.
  unfold Array_find. induction l as [|y l IH]; intros Hnd Hin; simpl.
  { by apply elem_of_nil in Hin. }
  apply NoDup_cons in Hnd as [Hy Hnd].
  apply elem_of_cons in Hin as [->|Hin].
  { by rewrite bool_decide_eq_true_2. }
  rewrite bool_decide_eq_false_2; [by apply IH|].
  intros Heq. apply Hy. rewrite Heq. by apply list_elem_of_fmap_2.
Qed.

(** ** The liability calculator *)

Section LiabilityFacts.
Context (this : ProfitEngineService).

(** What one bet adds to the three payouts of a candidate. *)
Lemma addBetPayout_acc (number : Digit) (acc : Payouts) (bet : Bet.t) :
  addBetPayout number acc bet =
    mkPayouts
      (colorPayout acc + colorPayout (addBetPayout number noPayouts bet))
      (sizePayout acc + sizePayout (addBetPayout number noPayouts bet))
      (numberPayout acc + numberPayout (addBetPayout number noPayouts bet)).
Proof.
  destruct acc as [c s n]. unfold addBetPayout, noPayouts.
  destruct (Bet.betType bet); repeat case_decide; simpl; f_equal; ring.
Qed.

Lemma foldl_addBetPayout (number : Digit) (bets : list Bet.t) (acc : Payouts) :
  foldl (addBetPayout number) acc bets =
    mkPayouts
      (colorPayout acc
       + sumQc ((λ bet, colorPayout (addBetPayout number noPayouts bet)) <$> bets))
      (sizePayout acc
       + sumQc ((λ bet, sizePayout (addBetPayout number noPayouts bet)) <$> bets))
      (numberPayout acc
       + sumQc ((λ bet, numberPayout (addBetPayout number noPayouts bet)) <$> bets)).
Proof.
  revert acc. induction bets as [|bet bets IH]; intros acc; csimpl.
  - destruct acc; unfold sumQc; simpl; f_equal; ring.
  - rewrite IH, (addBetPayout_acc number acc bet). unfold sumQc; simpl.
    f_equal; ring.
Qed.

Lemma candidateFor_number (bets : list Bet.t) (total : Qc) :
  Candidate.number <$> (candidateFor this bets total <$> all_digits) = all_digits.
Proof. reflexivity. Qed.

Lemma candidates_index_sorted (bets : list Bet.t) (total : Qc) :
  StronglySorted (index_before (Digit_toZ ∘ Candidate.number))
    (candidateFor this bets total <$> all_digits).
Proof.
  unfold all_digits, index_before. rewrite !fmap_cons, fmap_nil.
  repeat (constructor; [|repeat (constructor; [done|]); constructor]).
  constructor.
Qed.

Lemma NoDup_all_digits : NoDup all_digits.
Proof. apply (bool_decide_eq_true_1 (NoDup all_digits)). reflexivity. Qed.

(** The ranking of a round with bets holds every digit once. *)
Lemma calculateLiability_results (gameRoundId : string) (bets : list Bet.t)
    (calc : Calculation.t) :
  calculateLiability this gameRoundId bets = Some calc →
  Calculation.results calc ≡ₚ
    candidateFor this bets (Calculation.totalCollection calc) <$> all_digits.
Proof.
  unfold calculateLiability. case_decide; [done|]. intros [= <-].
  cbn [Calculation.results Calculation.totalCollection].
  apply Array_sort_Permutation.
Qed.

(** Looking a digit up in the ranking finds that digit's candidate. *)
Lemma calculateLiability_find (gameRoundId : string) (bets : list Bet.t)
    (calc : Calculation.t) (number : Digit) :
  calculateLiability this gameRoundId bets = Some calc →
  Array_find (λ r, bool_decide (Candidate.number r = number)) (Calculation.results calc)
  = Some (candidateFor this bets (Calculation.totalCollection calc) number).
Proof.
  intros Hcalc. pose proof (calculateLiability_results _ _ _ Hcalc) as Hperm.
  apply (Array_find_key Candidate.number _
           (candidateFor this bets (Calculation.totalCollection calc) number)).
  - rewrite Hperm, candidateFor_number. apply NoDup_all_digits.
  - rewrite Hperm. apply list_elem_of_fmap_2. destruct number; set_solver.
Qed.

End LiabilityFacts.

(** A round with bets has a calculation. *)
Lemma calculateAllResultsLiability_Some (this : ProfitEngineService)
    (gameRoundId : string) (db : DB) :
  prisma.bet_findMany gameRoundId db ≠ [] →
  ∃ calc, calculateAllResultsLiability this gameRoundId db = Some calc.
Proof.
  intros Hbets. unfold calculateAllResultsLiability, calculateLiability.
  rewrite decide_False; [by eexists|].
  rewrite length_fmap. by destruct (prisma.bet_findMany gameRoundId db).
Qed.

(** For a round with at least one bet the exact calculation returns ten
    candidates, one per digit, ranked by profit from highest to lowest with
    equal profits in ascending digit order. *)
Lemma calculateAllResultsLiability_ranking (this : ProfitEngineService)
    (gameRoundId : string) (db : DB) :
  prisma.bet_findMany gameRoundId db ≠ [] →
  ∃ calc,
    calculateAllResultsLiability this gameRoundId db = Some calc
    ∧ length (Calculation.results calc) = 10%nat
    ∧ Candidate.number <$> Calculation.results calc ≡ₚ all_digits
    ∧ StronglySorted
        (ranks_before Candidate.profit (Digit_toZ ∘ Candidate.number))
        (Calculation.results calc).
Proof.
  intros Hbets.
  destruct (calculateAllResultsLiability_Some this gameRoundId db Hbets)
    as [calc Hcalc].
  unfold calculateAllResultsLiability in *.
  set (bets := (prisma.bet_findMany gameRoundId db).*2) in *.
  exists calc. split; [done|].
  pose proof (calculateLiability_results this _ _ _ Hcalc) as Hperm.
  split; [by rewrite Hperm|].
  split; [by rewrite Hperm, candidateFor_number|].
  unfold calculateLiability in Hcalc. case_decide; [done|].
  injection Hcalc as <-. cbn [Calculation.results].
  apply (Array_sort_ranked Candidate.profit (Digit_toZ ∘ Candidate.number)).
  apply candidates_index_sorted.
Qed.

(** ** The calculation in doubles *)

Lemma Double_sort_insert_Permutation {A : Type} (compare : A → A → float) (x : A)
    (l : list A) :
  Double.sort_insert compare x l ≡ₚ x :: l.
Proof.
  induction l as [|y l IH]; [done|]. simpl.
  destruct (PrimFloat.ltb 0 (compare x y)); [|done].
  rewrite IH. apply perm_swap.
Qed.

Lemma Double_Array_sort_Permutation {A : Type} (compare : A → A → float)
    (l : list A) :
  Double.Array_sort compare l ≡ₚ l.
Proof.
  induction l as [|x l IH]; [done|].
  unfold Double.Array_sort in *. simpl.
  by rewrite Double_sort_insert_Permutation, IH.
Qed.

(** However the sums round, the ranking in doubles holds ten candidates, one
    per digit. *)
Lemma Double_calculateLiability_digits (this : ProfitEngineService)
    (bets : list Bet.t) :
  bets ≠ [] →
  ∃ results,
    Double.calculateLiability this bets = Some results
    ∧ length results = 10%nat
    ∧ Double.digits results ≡ₚ all_digits.
Proof.
  intros Hbets. unfold Double.calculateLiability.
  rewrite decide_False by (by destruct bets).
  eexists. split; [reflexivity|].
  unfold Double.digits.
  rewrite Double_Array_sort_Permutation. split; [done|].
  by rewrite <- list_fmap_compose.
Qed.


(** Where rounding decides a flag.  On the round with BIG 220 and SMALL 209
    the exact candidates of the digits 0 to 4 are profitable, at exactly
    5 percent; in doubles the percentage is 4.999999999999997 and none is.
    On the round with GREEN 18.80 and RED 17.86 the exact candidate of digit
    1 breaks even and is acceptable; in doubles its profit is negative in
    the last bits and it is not.  Neither round is decided alike, nor is the
    round of the tie above. *)
Lemma rounding_decides_flags :
  flagsOf <$> calculateAllResultsLiability profitEngine "r1" Scenario.limitRound
  = Some [ (D0, true, true); (D1, true, true); (D2, true, true); (D3, true, true);
           (D4, true, true); (D5, false, true); (D6, false, true);
           (D7, false, true); (D8, false, true); (D9, false, true) ]
  ∧ Double.flags
      <$> Double.calculateAllResultsLiability profitEngine "r1" Scenario.limitRound
    = Some [ (D0, false, true); (D1, false, true); (D2, false, true);
             (D3, false, true); (D4, false, true); (D5, false, true);
             (D6, false, true); (D7, false, true); (D8, false, true);
             (D9, false, true) ]
  ∧ acceptableOn profitEngine "r1" D1 Scenario.breakEvenRound
  ∧ Forall (λ c, Double.number c = D1 → Double.isAcceptable c = false)
      (default [] (Double.calculateAllResultsLiability profitEngine "r1"
                     Scenario.breakEvenRound))
  ∧ ¬ decidedAlike profitEngine "r1" Scenario.limitRound
  ∧ ¬ decidedAlike profitEngine "r1" Scenario.breakEvenRound
  ∧ ¬ decidedAlike profitEngine "r1" Scenario.tiedRound.
Proof. split_and!; by_evaluation. Qed.

(** ** Admin validation *)

(** C9.  On a round without bets the admin validation answers valid, with
    the warning "No bets placed" and nothing else, whatever the winning
    option is: the option is not parsed and no candidate is checked against
    the loss limit. *)
Theorem validateAdminResult_no_bets (this : ProfitEngineService)
    (gameRoundId winningOption : string) (db : DB) :
  prisma.bet_findMany gameRoundId db = [] →
  validateAdminResult this gameRoundId winningOption db
  = (Return (mkValidation true (Some (Text "No bets placed")) None None), db).
Proof.
  intros Hbets. unfold validateAdminResult. rewrite bind_gets.
  unfold calculateAllResultsLiability. by rewrite Hbets.
Qed.


(** ** The Prisma primitives on rows that exist *)

Lemma insert_alter_Some {A : Type} (f : A → A) (m : gmap string A) (i : string) (x : A) :
  m !! i = Some x → <[i := f x]> m = alter f i m.
Proof.
  intros Hi. apply map_eq. intros j. rewrite lookup_insert, lookup_alter.
  case_decide; [by rewrite Hi|done].
Qed.

Lemma bet_update_Some (id : string) (data : Bet.t → Bet.t) (db : DB) (row : Bet.t) :
  bets db !! id = Some row →
  prisma.bet_update id data db = (Return (), set_bets (alter data id) db).
Proof.
  intros Hrow. unfold prisma.bet_update. rewrite bind_gets, Hrow.
  unfold modify, set_bets. by rewrite (insert_alter_Some _ _ _ _ Hrow).
Qed.

Lemma bet_update_None (id : string) (data : Bet.t → Bet.t) (db : DB) :
  bets db !! id = None → prisma.bet_update id data db = (Throw P2025, db).
Proof. intros Hrow. unfold prisma.bet_update. by rewrite bind_gets, Hrow. Qed.

Lemma wallet_increment_Some (userId : string) (increment : Qc) (db : DB) (balance : Qc) :
  wallets db !! userId = Some balance →
  prisma.wallet_increment userId increment db
  = (Return (), set_wallets (alter (λ b, b + increment) userId) db).
Proof.
  intros Hw. unfold prisma.wallet_increment. rewrite bind_gets, Hw.
  unfold modify, set_wallets.
  by rewrite (insert_alter_Some (λ b, b + increment) _ _ _ Hw).
Qed.

Lemma wallet_increment_None (userId : string) (increment : Qc) (db : DB) :
  wallets db !! userId = None →
  prisma.wallet_increment userId increment db = (Throw P2025, db).
Proof. intros Hw. unfold prisma.wallet_increment. by rewrite bind_gets, Hw. Qed.

Lemma omap_cons {A B : Type} (f : A → option B) (x : A) (l : list A) :
  omap f (x :: l) = match f x with Some y => y :: omap f l | None => omap f l end.
Proof. reflexivity. Qed.

(** ** Loops over the bets of a round *)

Section EffectsFacts.
Context (eff : string * Bet.t → Effect).

Lemma enabled_applyEffect (e e' : Effect) (x y : string * Bet.t) (db : DB) :
  enabled e x db → enabled e x (applyEffect e' y db).
Proof.
  intros [Hb Hw]. split; intros H; simpl.
  - destruct (newResult e'); [|by apply Hb].
    apply lookup_alter_is_Some. by apply Hb.
  - destruct (payment e') as [[a t]|]; [|by apply Hw].
    apply lookup_alter_is_Some. by apply Hw.
Qed.

Lemma for_of_runEffects (body : string * Bet.t → Async unit)
    (l : list (string * Bet.t)) (db : DB) :
  (∀ x db, enabled (eff x) x db → body x db = (Return (), applyEffect (eff x) x db)) →
  Forall (λ x, enabled (eff x) x db) l →
  for_of l body db = (Return (), (runEffects eff) l db).
Proof.
  intros Hbody. revert db. induction l as [|x l IH]; intros db Hl; [done|].
  apply Forall_cons in Hl as [Hx Hl]. simpl.
  rewrite (bind_Return _ _ _ _ _ (Hbody x db Hx)). apply IH.
  eapply Forall_impl; [exact Hl|]. intros y Hy. by apply enabled_applyEffect.
Qed.

Lemma runEffects_gameRounds (l : list (string * Bet.t)) (db : DB) :
  gameRounds ((runEffects eff) l db) = gameRounds db.
Proof.
  revert db. induction l as [|x l IH]; intros db; [done|].
  unfold runEffects in *. simpl. by rewrite IH.
Qed.

Lemma runEffects_transactions (l : list (string * Bet.t)) (db : DB) :
  transactions ((runEffects eff) l db)
  = transactions db ++ omap (λ x, snd <$> payment (eff x)) l.
Proof.
  revert db. induction l as [|x l IH]; intros db.
  { simpl. by rewrite app_nil_r. }
  unfold runEffects in *. simpl. rewrite IH. simpl.
  destruct (payment (eff x)) as [[a t]|]; simpl; [|done].
  by rewrite <- app_assoc.
Qed.

Lemma runEffects_wallets (l : list (string * Bet.t)) (db : DB) (userId : string) :
  wallets ((runEffects eff) l db) !! userId
  = (λ balance, balance + (paidTo eff) userId l) <$> wallets db !! userId.
Proof.
  revert db. induction l as [|x l IH]; intros db.
  { unfold paidTo, sumQc. simpl. destruct (wallets db !! userId); simpl; [|done].
    f_equal. ring. }
  unfold runEffects in *. simpl. rewrite IH. simpl. unfold paidTo. simpl.
  destruct (payment (eff x)) as [[a t]|]; simpl.
  - destruct (decide (Bet.userId x.2 = userId)) as [->|Hne]; simpl.
    + rewrite lookup_alter_eq. destruct (wallets db !! userId); simpl; [|done].
      f_equal. unfold sumQc. simpl. symmetry. apply Qcplus_assoc.
    + by rewrite lookup_alter_ne.
  - by case_decide.
Qed.

Lemma runEffects_bets (l : list (string * Bet.t)) (db : DB) (id : string) :
  NoDup l.*1 →
  bets ((runEffects eff) l db) !! id
  = match (list_to_map l : gmap string Bet.t) !! id with
    | Some bet => rowAfter (eff (id, bet)) <$> bets db !! id
    | None => bets db !! id
    end.
Proof.
  revert db. induction l as [|[j b] l IH]; intros db Hnd; [done|].
  apply NoDup_cons in Hnd as [Hj Hnd].
  unfold runEffects in *. simpl. rewrite (IH _ Hnd). simpl.
  destruct (decide (j = id)) as [->|Hne].
  - rewrite lookup_insert_eq, (not_elem_of_list_to_map_1 _ _ Hj).
    unfold rowAfter at 2. destruct (newResult (eff (id, b))) as [[r w]|] eqn:E.
    + rewrite lookup_alter_eq. unfold rowAfter. by rewrite E.
    + by rewrite option_fmap_id.
  - rewrite lookup_insert_ne by done.
    destruct (newResult (eff (j, b))); [|done].
    by rewrite lookup_alter_ne.
Qed.

End EffectsFacts.

(** ** The bets of a round *)

Lemma bet_findMany_elem (gameRoundId : string) (db : DB) (id : string) (bet : Bet.t) :
  (id, bet) ∈ prisma.bet_findMany gameRoundId db
  ↔ bets db !! id = Some bet ∧ Bet.gameRoundId bet = gameRoundId.
Proof.
  unfold prisma.bet_findMany. rewrite list_elem_of_filter, elem_of_map_to_list.
  simpl. tauto.
Qed.

Lemma bet_findMany_NoDup (gameRoundId : string) (db : DB) :
  NoDup (prisma.bet_findMany gameRoundId db).*1.
Proof.
  unfold prisma.bet_findMany.
  pose proof (NoDup_fst_map_to_list (bets db)) as Hnd.
  induction (map_to_list (bets db)) as [|x l IH]; [constructor|].
  apply NoDup_cons in Hnd as [Hx Hnd]. rewrite filter_cons.
  case_decide; [|by apply IH]. csimpl. apply NoDup_cons. split; [|by apply IH].
  intros Hin. apply Hx. apply list_elem_of_fmap in Hin as [y [-> Hy]].
  apply list_elem_of_filter in Hy as [_ Hy]. by apply list_elem_of_fmap_2.
Qed.

Lemma bet_findMany_lookup (gameRoundId : string) (db : DB) (id : string) :
  (list_to_map (prisma.bet_findMany gameRoundId db) : gmap string Bet.t) !! id
  = match bets db !! id with
    | Some bet => if decide (Bet.gameRoundId bet = gameRoundId) then Some bet else None
    | None => None
    end.
Proof.
  pose proof (bet_findMany_NoDup gameRoundId db) as Hnd.
  destruct (bets db !! id) as [bet|] eqn:Hbet.
  - case_decide as Hround.
    + apply elem_of_list_to_map; [done|]. by apply bet_findMany_elem.
    + apply not_elem_of_list_to_map_1. intros Hin.
      apply list_elem_of_fmap in Hin as [[id' bet'] [-> Hin]].
      apply bet_findMany_elem in Hin as [Hbet' Hround']. simpl in *. congruence.
  - apply not_elem_of_list_to_map_1. intros Hin.
    apply list_elem_of_fmap in Hin as [[id' bet'] [-> Hin]].
    apply bet_findMany_elem in Hin as [Hbet' _]. simpl in *. congruence.
Qed.

(** A rewrite of rows that keeps their round commutes with the query. *)
Lemma bet_findMany_fmap (gameRoundId : string) (db db' : DB) (g : Bet.t → Bet.t) :
  (∀ row, Bet.gameRoundId (g row) = Bet.gameRoundId row) →
  bets db' = g <$> bets db →
  prisma.bet_findMany gameRoundId db' = prod_map id g <$> prisma.bet_findMany gameRoundId db.
Proof.
  intros Hg Hbets. unfold prisma.bet_findMany. rewrite Hbets, map_to_list_fmap.
  induction (map_to_list (bets db)) as [|[i row] l IH]; [done|].
  csimpl. rewrite !filter_cons. simpl. rewrite Hg.
  case_decide; csimpl; by rewrite IH.
Qed.

(** ** The settlement unit *)

Lemma settlementUnit_effect (id : string) (bet : Bet.t) (isWin : bool)
    (winAmount : Qc) (db : DB) :
  enabled (settlementEffect id bet isWin winAmount) (id, bet) db →
  settlementUnit id bet isWin winAmount db
  = (Return (), applyEffect (settlementEffect id bet isWin winAmount) (id, bet) db).
Proof.
  intros [Hb Hw]. destruct Hb as [row Hrow]; [done|].
  unfold settlementUnit, transaction.
  rewrite (bind_Return _ _ _ _ _ (bet_update_Some _ _ _ _ Hrow)).
  destruct isWin; simpl in *; [|done].
  destruct Hw as [balance Hbalance]; [done|].
  erewrite bind_Return; [|by eapply wallet_increment_Some].
  reflexivity.
Qed.

Lemma settlementUnit_rollback (id : string) (bet : Bet.t) (isWin : bool)
    (winAmount : Qc) (db : DB) :
  ∀ message db', settlementUnit id bet isWin winAmount db = (Throw message, db') →
  db' = db.
Proof.
  intros message db'. unfold settlementUnit, transaction.
  match goal with
  | |- context [match ?m db with _ => _ end] => destruct (m db) as [[a|e] db'']
  end; congruence.
Qed.

(** C10.  The settlement unit of a bet that is in the store.  A losing bet
    gets result [LOST] and win amount 0, and wallets and transaction log stay
    as they are.  A winning bet whose owner has a wallet gets result [WON]
    and the computed win amount, the owner's balance grows by exactly that
    amount, and exactly one transaction is appended: of type [BET_WON], for
    that amount, with the bet's id as reference.  The other columns of the
    bet, the rounds and all other bets and wallets are untouched in both
    cases. *)
Theorem settlementUnit_frame (id : string) (bet : Bet.t) (isWin : bool)
    (winAmount : Qc) (db : DB) (balance : Qc) :
  bets db !! id = Some bet →
  (isWin = true → wallets db !! Bet.userId bet = Some balance) →
  ∃ db' row,
    settlementUnit id bet isWin winAmount db = (Return (), db')
    ∧ gameRounds db' = gameRounds db
    ∧ bets db' = <[id := row]> (bets db)
    ∧ sameBet bet row
    ∧ if isWin then
        Bet.result row = BetResult.WON
        ∧ Bet.winAmount row = Some winAmount
        ∧ wallets db' = <[Bet.userId bet := balance + winAmount]> (wallets db)
        ∧ ∃ t, transactions db' = transactions db ++ [t]
               ∧ Transaction.userId t = Bet.userId bet
               ∧ Transaction.type t = TransactionType.BET_WON
               ∧ Transaction.amount t = winAmount
               ∧ Transaction.referenceId t = Some id
      else
        Bet.result row = BetResult.LOST
        ∧ Bet.winAmount row = Some 0
        ∧ wallets db' = wallets db
        ∧ transactions db' = transactions db.
Proof.
  intros Hbet Hwallet. eexists _, _. split.
  { apply settlementUnit_effect. split; simpl; [eauto|].
    destruct isWin; [eauto|]. by intros [? ?]. }
  split; [done|]. split.
  { simpl. symmetry. apply (insert_alter_Some _ _ _ _ Hbet). }
  split; [by unfold sameBet|].
  destruct isWin; simpl.
  - specialize (Hwallet eq_refl).
    split_and!; try done.
    + by rewrite (insert_alter_Some (λ b, b + winAmount) _ _ _ Hwallet).
    + by eexists.
  - done.
Qed.

(** ** The settlement pass *)

Section SettlementPassFacts.
Context (evaluate : Bet.t → bool * Qc).

Lemma settlementLoop_runEffects (l : list (string * Bet.t)) (db : DB) :
  Forall (λ x, enabled ((settlementEffectOf evaluate) x) x db) l →
  (settlementLoop evaluate) l db = (Return (), runEffects (settlementEffectOf evaluate) l db).
Proof.
  apply for_of_runEffects. intros [id bet] db' Hen.
  unfold settlementEffectOf in *. simpl in *.
  destruct (evaluate bet) as [isWin winAmount]. by apply settlementUnit_effect.
Qed.

Lemma paidTo_wonBy (userId : string) (l : list (string * Bet.t)) :
  paidTo (settlementEffectOf evaluate) userId l = (wonBy evaluate) userId l.
Proof.
  unfold paidTo, wonBy, winners.
  induction l as [|x l IH]; [done|]. rewrite omap_cons.
  unfold settlementEffectOf at 1. unfold settlementEffect at 1. cbn [payment].
  destruct ((evaluate x.2).1) eqn:Hwin.
  - rewrite filter_cons_True by done. rewrite filter_cons.
    case_decide; [|exact IH]. by rewrite fmap_cons, sumQc_cons, <- IH.
  - rewrite filter_cons_False by (by rewrite Hwin). by case_decide.
Qed.

Lemma payments_wonTransactions (l : list (string * Bet.t)) :
  omap (λ x, snd <$> payment ((settlementEffectOf evaluate) x)) l = (wonTransactions evaluate) l.
Proof.
  unfold wonTransactions, winners.
  induction l as [|x l IH]; [done|]. rewrite omap_cons.
  unfold settlementEffectOf at 1. unfold settlementEffect at 1. cbn [payment].
  destruct ((evaluate x.2).1) eqn:Hwin.
  - rewrite filter_cons_True by done. by rewrite fmap_cons, <- IH.
  - by rewrite filter_cons_False by (by rewrite Hwin).
Qed.

(** The pass over a round succeeds when every winner has a wallet, and then
    settles the rows of the round, pays the (winners evaluate) and logs their wins. *)
Lemma settlementLoop_round (gameRoundId : string) (db : DB) :
  (∀ x, x ∈ (winners evaluate) (prisma.bet_findMany gameRoundId db) →
        is_Some (wallets db !! Bet.userId x.2)) →
  ∃ db',
    (settlementLoop evaluate) (prisma.bet_findMany gameRoundId db) db = (Return (), db')
    ∧ gameRounds db' = gameRounds db
    ∧ bets db' = (settledRow evaluate) gameRoundId <$> bets db
    ∧ (∀ userId, wallets db' !! userId
         = (λ balance, balance + (wonBy evaluate) userId (prisma.bet_findMany gameRoundId db))
             <$> wallets db !! userId)
    ∧ transactions db'
      = transactions db ++ (wonTransactions evaluate) (prisma.bet_findMany gameRoundId db).
Proof.
  intros Hwallets. eexists. split.
  { apply settlementLoop_runEffects. apply Forall_forall. intros [id bet] Hin.
    split; simpl.
    - intros _. apply bet_findMany_elem in Hin as [-> _]. by eexists.
    - destruct ((evaluate bet).1) eqn:Hwin; [|by intros [? ?]].
      intros _. apply (Hwallets (id, bet)). by apply list_elem_of_filter. }
  split; [apply runEffects_gameRounds|].
  split.
  { apply map_eq. intros id.
    rewrite (runEffects_bets _ _ _ _ (bet_findMany_NoDup gameRoundId db)).
    rewrite bet_findMany_lookup, lookup_fmap. unfold settledRow.
    destruct (bets db !! id) as [row|]; simpl; [|done].
    by case_decide. }
  split.
  { intros userId. by rewrite runEffects_wallets, paidTo_wonBy. }
  by rewrite runEffects_transactions, payments_wonTransactions.
Qed.

End SettlementPassFacts.

Lemma processBetsWithResult_loop (roundId : string) (winningNumber : Digit)
    (winningColor : Color) (winningSize : Size) (db : DB) :
  GameAdminService.processBetsWithResult roundId winningNumber winningColor winningSize db
  = settlementLoop (evaluateBetWithResult winningNumber winningColor winningSize)
      (prisma.bet_findMany roundId db) db.
Proof. reflexivity. Qed.

Lemma processBets_loop (roundId : string) (winningNumber : Digit)
    (winningColor : Color) (winningSize : Size) (db : DB) :
  BetService.processBets roundId winningNumber winningColor winningSize db
  = settlementLoop (evaluateBet winningNumber winningColor winningSize)
      (prisma.bet_findMany roundId db) db.
Proof. reflexivity. Qed.

(** ** Settlement against the liability preview *)


(** With the colour and size derived from the digit, a bet adds to the
    liability of the digit exactly what settlement on that digit pays it. *)
Lemma addBetPayout_evaluate (number : Digit) (bet : Bet.t) :
  colorPayout (addBetPayout number noPayouts bet)
  + sizePayout (addBetPayout number noPayouts bet)
  + numberPayout (addBetPayout number noPayouts bet)
  = (evaluateBetWithResult number (NUMBER_COLORS number) (NUMBER_SIZES number) bet).2.
Proof.
  unfold addBetPayout, evaluateBetWithResult, noPayouts.
  destruct (Bet.betType bet).
  - destruct number; simpl; repeat case_decide; simpl;
      solve [ ring | exfalso; intuition congruence ].
  - repeat case_decide; simpl; ring.
  - repeat case_decide; simpl; ring.
Qed.

Lemma liability_sum (number : Digit) (l : list (string * Bet.t)) :
  colorPayout (foldl (addBetPayout number) noPayouts l.*2)
  + sizePayout (foldl (addBetPayout number) noPayouts l.*2)
  + numberPayout (foldl (addBetPayout number) noPayouts l.*2)
  = sumQc ((λ x, (evaluateBetWithResult number (NUMBER_COLORS number)
                    (NUMBER_SIZES number) x.2).2) <$> l).
Proof.
  rewrite foldl_addBetPayout. cbn [colorPayout sizePayout numberPayout noPayouts].
  induction l as [|x l IH].
  - unfold sumQc. simpl. ring.
  - rewrite !fmap_cons, !sumQc_cons, <- IH, <- addBetPayout_evaluate. ring.
Qed.

Lemma settledRow_gameRoundId (evaluate : Bet.t → bool * Qc) (gameRoundId : string)
    (row : Bet.t) :
  Bet.gameRoundId (settledRow evaluate gameRoundId row) = Bet.gameRoundId row.
Proof. unfold settledRow. by case_decide. Qed.


(** ** Settling a round twice *)

(** C1.  Settlement does not look at the result a bet carries.  With a
    wallet for every winner a pass over a round returns, whatever its bets
    carry, terminal results included; and as soon as one bet of the round
    wins it is no no-op.  Every bet of the round, a settled or a cancelled
    one alike, is written [WON] or [LOST] with the win amount of its
    evaluation; every winner's balance grows by the win amounts; and one
    [BET_WON] record per winning bet is appended, so that the log is longer
    and the store another one than before. *)
Theorem resettlement_credits_again (roundId : string) (winningNumber : Digit)
    (winningColor : Color) (winningSize : Size) (db : DB) :
  Forall (λ x, is_Some (wallets db !! Bet.userId x.2))
    (winners (evaluateBetWithResult winningNumber winningColor winningSize)
       (prisma.bet_findMany roundId db)) →
  winners (evaluateBetWithResult winningNumber winningColor winningSize)
    (prisma.bet_findMany roundId db) ≠ [] →
  ∃ db',
    GameAdminService.processBetsWithResult roundId winningNumber winningColor
      winningSize db = (Return (), db')
    ∧ Forall (λ x, ∃ row,
                bets db' !! x.1 = Some row
                ∧ settledFrom
                    (evaluateBetWithResult winningNumber winningColor winningSize)
                    x.2 row)
        (prisma.bet_findMany roundId db)
    ∧ (∀ userId, wallets db' !! userId
         = (λ balance, balance
              + wonBy (evaluateBetWithResult winningNumber winningColor winningSize)
                  userId (prisma.bet_findMany roundId db))
             <$> wallets db !! userId)
    ∧ transactions db'
      = transactions db
        ++ wonTransactions (evaluateBetWithResult winningNumber winningColor winningSize)
             (prisma.bet_findMany roundId db)
    ∧ Forall (λ t, Transaction.type t = TransactionType.BET_WON)
        (wonTransactions (evaluateBetWithResult winningNumber winningColor winningSize)
           (prisma.bet_findMany roundId db))
    ∧ length (transactions db') =
      (length (transactions db)
       + length (winners (evaluateBetWithResult winningNumber winningColor winningSize)
                   (prisma.bet_findMany roundId db)))%nat
    ∧ db' ≠ db.
Proof.
  set (evaluate := evaluateBetWithResult winningNumber winningColor winningSize).
  intros Hwallets Hwinner. rewrite Forall_forall in Hwallets.
  destruct (settlementLoop_round evaluate roundId db Hwallets)
    as (db' & Hrun & Hrounds & Hrows & Hpaid & Hlog).
  assert (length (transactions db') =
          (length (transactions db)
           + length (winners evaluate (prisma.bet_findMany roundId db)))%nat)
    as Hlength.
  { rewrite Hlog, length_app. unfold wonTransactions. by rewrite length_fmap. }
  exists db'. split_and!; try done.
  - apply Forall_forall. intros [id bet] Hin.
    apply bet_findMany_elem in Hin as [Hbet Hthis].
    exists (settledRow evaluate roundId bet). simpl. split.
    + by rewrite Hrows, lookup_fmap, Hbet.
    + unfold settledRow. rewrite decide_True by done.
      by unfold settledFrom, sameBet.
  - apply Forall_forall. intros t Ht.
    by apply list_elem_of_fmap in Ht as [x [-> _]].
  - intros Heq. rewrite Heq in Hlength.
    destruct (winners evaluate (prisma.bet_findMany roundId db)); [done|].
    simpl in Hlength. lia.
Qed.

(** ** Cancelling a round *)

Section CancellationFacts.
Context (period : string).

Lemma refundBet_effect (x : string * Bet.t) (db : DB) :
  enabled ((refundEffect period) x) x db →
  GameAdminService.refundBet period x db
  = (Return (), applyEffect ((refundEffect period) x) x db).
Proof.
  destruct x as [id bet]. unfold enabled, refundEffect, GameAdminService.refundBet.
  simpl. case_decide as Hpending; simpl; intros [Hb Hw].
  - destruct Hb as [row Hrow]; [done|]. destruct Hw as [balance Hbalance]; [done|].
    rewrite (bind_Return _ _ _ _ _ (wallet_increment_Some _ _ _ _ Hbalance)).
    erewrite bind_Return; [|by eapply bet_update_Some].
    reflexivity.
  - by destruct db.
Qed.

Lemma paidTo_refundedTo (userId : string) (l : list (string * Bet.t)) :
  paidTo (refundEffect period) userId l = refundedTo userId l.
Proof.
  unfold paidTo, refundedTo, pendingBets.
  induction l as [|x l IH]; [done|]. rewrite omap_cons.
  unfold refundEffect at 1.
  destruct (decide (Bet.result x.2 = BetResult.PENDING)) as [Hpending|Hpending].
  - rewrite filter_cons_True by done. rewrite filter_cons.
    case_decide; [|exact IH]. by rewrite fmap_cons, sumQc_cons, <- IH.
  - rewrite filter_cons_False by done. by case_decide.
Qed.

Lemma payments_refundTransactions (l : list (string * Bet.t)) :
  omap (λ x, snd <$> payment ((refundEffect period) x)) l = (refundTransactions period) l.
Proof.
  unfold refundTransactions, pendingBets.
  induction l as [|x l IH]; [done|]. rewrite omap_cons.
  unfold refundEffect at 1.
  destruct (decide (Bet.result x.2 = BetResult.PENDING)) as [Hpending|Hpending].
  - rewrite filter_cons_True by done. by rewrite fmap_cons, <- IH.
  - by rewrite filter_cons_False by done.
Qed.

End CancellationFacts.

(** C7.  [cancelRound] on a round that exists.  A round that is already
    cancelled, and a round whose result is declared, are rejected and the
    store is left as it was.  Otherwise (result status [PENDING]), provided
    the owners of the pending bets have wallets, the call succeeds: the
    round's status becomes [CANCELLED]; every bet of the round whose result
    is [PENDING] gets result [CANCELLED] and win amount 0 and keeps its other
    columns, while every other row of the table is untouched; each wallet
    grows by exactly the stakes of its owner's pending bets in the round;
    and one [REFUND] transaction per pending bet is appended. *)
Theorem cancelRound_refunds (now : Z) (gameRoundId adminId : string) (db : DB)
    (round : GameRound.t) :
  gameRounds db !! gameRoundId = Some round →
  Forall (λ x, is_Some (wallets db !! Bet.userId x.2))
    (pendingBets (prisma.bet_findMany gameRoundId db)) →
  if decide (GameRound.status round = RoundStatus.CANCELLED) then
    GameAdminService.cancelRound now gameRoundId adminId db
    = (Throw (Text "Round already cancelled"), db)
  else if decide (GameRound.resultStatus round = ResultStatus.DECLARED) then
    GameAdminService.cancelRound now gameRoundId adminId db
    = (Throw (Text "Cannot cancel round after result is declared"), db)
  else
    ∃ reply db' round',
      GameAdminService.cancelRound now gameRoundId adminId db = (Return reply, db')
      ∧ gameRounds db' = <[gameRoundId := round']> (gameRounds db)
      ∧ GameRound.status round' = RoundStatus.CANCELLED
      ∧ GameRound.resultStatus round' = ResultStatus.PENDING
      ∧ Forall (λ x, ∃ row,
                  bets db' !! x.1 = Some row
                  ∧ Bet.result row = BetResult.CANCELLED
                  ∧ Bet.winAmount row = Some 0
                  ∧ sameBet x.2 row)
          (pendingBets (prisma.bet_findMany gameRoundId db))
      ∧ (∀ id, id ∉ (pendingBets (prisma.bet_findMany gameRoundId db)).*1 →
           bets db' !! id = bets db !! id)
      ∧ (∀ userId, wallets db' !! userId
           = (λ balance, balance
                + refundedTo userId (prisma.bet_findMany gameRoundId db))
               <$> wallets db !! userId)
      ∧ transactions db'
        = transactions db
          ++ refundTransactions (GameRound.period round)
               (prisma.bet_findMany gameRoundId db)
      ∧ Forall (λ t, Transaction.type t = TransactionType.REFUND)
          (refundTransactions (GameRound.period round)
             (prisma.bet_findMany gameRoundId db)).
Proof.
  intros Hround Hwallets. rewrite Forall_forall in Hwallets.
  unfold GameAdminService.cancelRound.
  rewrite !bind_gets. unfold prisma.gameRound_findUnique. rewrite Hround.
  case_decide as Hcancelled; [done|]. case_decide as Hdeclared; [done|].
  set (l := prisma.bet_findMany gameRoundId db).
  set (db1 := set_gameRounds (insert gameRoundId (GameAdminService.cancelledAt now round)) db).
  assert (prisma.gameRound_update gameRoundId (GameAdminService.cancelledAt now) db
          = (Return (GameAdminService.cancelledAt now round), db1)) as Hupdate.
  { unfold prisma.gameRound_update. by rewrite bind_gets, Hround. }
  assert (for_of l (GameAdminService.refundBet (GameRound.period round)) db1
          = (Return (), runEffects (refundEffect (GameRound.period round)) l db1))
    as Hloop.
  { apply for_of_runEffects; [intros x db2; apply refundBet_effect|].
    apply Forall_forall. intros [id bet] Hin. unfold enabled, refundEffect. simpl.
    case_decide as Hpending; simpl; [|by split; intros [? ?]].
    split; intros _.
    - apply bet_findMany_elem in Hin as [-> _]. by eexists.
    - apply (Hwallets (id, bet)). by apply list_elem_of_filter. }
  set (db' := runEffects (refundEffect (GameRound.period round)) l db1).
  assert (∀ id, bets db' !! id = cancelledRow gameRoundId <$> bets db !! id) as Hrows.
  { intros id. unfold db'.
    rewrite (runEffects_bets _ _ _ _ (bet_findMany_NoDup gameRoundId db)).
    rewrite bet_findMany_lookup. simpl.
    unfold cancelledRow, rowAfter, refundEffect.
    destruct (bets db !! id) as [row|]; simpl; [|done].
    repeat case_decide; simpl; try done; exfalso; intuition congruence. }
  eexists _, db', _.
  split.
  { erewrite bind_Return; [reflexivity|]. unfold transaction.
    by rewrite (bind_Return _ _ _ _ _ Hupdate), Hloop. }
  split; [by unfold db'; rewrite runEffects_gameRounds|].
  split; [done|].
  split; [simpl; by destruct (GameRound.resultStatus round) eqn:E|].
  split.
  { apply Forall_forall. intros [id bet] Hin.
    apply list_elem_of_filter in Hin as [Hpending Hin]. simpl in Hpending.
    apply bet_findMany_elem in Hin as [Hbet Hthis].
    exists (cancelledRow gameRoundId bet). simpl.
    split; [by rewrite Hrows, Hbet|].
    unfold cancelledRow. rewrite decide_True by done.
    by unfold sameBet. }
  split.
  { intros id Hnot. rewrite Hrows.
    destruct (bets db !! id) as [row|] eqn:Hrow; simpl; [|done].
    f_equal. unfold cancelledRow. case_decide as Hthis; [|done].
    destruct Hnot. apply (list_elem_of_fmap_2 fst _ (id, row)).
    apply list_elem_of_filter. split; [by apply Hthis|].
    apply bet_findMany_elem. by destruct Hthis. }
  split.
  { intros userId. by unfold db'; rewrite runEffects_wallets, paidTo_refundedTo. }
  split.
  { by unfold db'; rewrite runEffects_transactions, payments_refundTransactions. }
  apply Forall_forall. intros t Ht.
  by apply list_elem_of_fmap in Ht as [x [-> _]].
Qed.

(** ** The dual-colour digits *)

(** Under the colour derived from the digit the reduced-payout case of
    [processBetsWithResult] is never taken: it sits under the test that the
    bet's colour is the winning colour, which is VIOLET on 0 and on 5. *)
Lemma evaluateBetWithResult_derived (number : Digit) (bet : Bet.t) :
  evaluateBetWithResult number (NUMBER_COLORS number) (NUMBER_SIZES number) bet
  = evaluateBet number (NUMBER_COLORS number) (NUMBER_SIZES number) bet.
Proof.
  unfold evaluateBetWithResult, evaluateBet.
  destruct (Bet.betType bet); [|done..].
  destruct number; simpl; repeat case_decide; try done;
    exfalso; intuition congruence.
Qed.

(** C2, evaluated on the code.  On a round whose only bet is COLOR/GREEN
    with stake 100, settlement on digit 0 with its derived colour VIOLET and
    size SMALL marks the bet [LOST] with win amount 0 and leaves the wallet
    and the transaction log as they were: the bet is not paid 145. *)
Theorem green_bet_on_zero_is_lost :
  GameAdminService.processBetsWithResult "r1" D0 (NUMBER_COLORS D0)
    (NUMBER_SIZES D0) Scenario.greenStore
  = (Return (),
     set_bets (insert "b1" (Bet.set_result BetResult.LOST 0 Scenario.greenBet))
       Scenario.greenStore)
  ∧ evaluateBetWithResult D0 (NUMBER_COLORS D0) (NUMBER_SIZES D0) Scenario.greenBet
    = (false, Q2Qc 0).
Proof. split; by_evaluation. Qed.

(** ** Selection without a profitable candidate *)

Lemma no_profitable_filter (l : list Candidate.t) :
  Forall (λ c, Candidate.isProfitable c = false) l →
  List.filter Candidate.isProfitable (List.filter Candidate.isAcceptable l) = [].
Proof.
  induction 1 as [|c l Hc _ IH]; [done|]. simpl.
  destruct (Candidate.isAcceptable c); simpl; [rewrite Hc|]; exact IH.
Qed.

(** When no acceptable candidate is profitable, the two branches that pick
    from the profitable candidates pick [undefined]. *)
Lemma selectWeightedResult_no_profitable (this : ProfitEngineService)
    (calc : Calculation.t) (random_index random : Qc) :
  Exists (λ c, Candidate.isAcceptable c = true) (Calculation.results calc) →
  Forall (λ c, Candidate.isProfitable c = false) (Calculation.results calc) →
  random < HIGH_PROFIT_WEIGHT this + MEDIUM_PROFIT_WEIGHT this →
  selected (selectWeightedResult this calc random_index random) = None.
Proof.
  intros Hacc Hprof Hrandom. unfold selectWeightedResult, Array_filter.
  case_decide as Hnone.
  { apply Exists_exists in Hacc as (c & Hc & Hacc).
    apply length_zero_iff_nil in Hnone.
    assert (In c (List.filter Candidate.isAcceptable (Calculation.results calc))) as Hin.
    { apply filter_In. split; [by apply list_elem_of_In|done]. }
    rewrite Hnone in Hin. by destruct Hin. }
  rewrite (no_profitable_filter _ Hprof).
  simpl. case_decide; [done|]. by case_decide.
Qed.

Lemma random_index_in_range (r : Qc) (n : nat) :
  0 ≤ r → r < 1 → (0 < n)%nat →
  (Z.to_nat (Math_floor (r * Q2Qc (inject_Z (Z.of_nat n)))) < n)%nat.
Proof.
  intros H0 H1 Hn. unfold Math_floor.
  assert (this (r * Q2Qc (inject_Z (Z.of_nat n)))%Qc
          == this r * inject_Z (Z.of_nat n))%Q as Heq.
  { unfold Qcmult. cbn [this Q2Qc]. by rewrite !Qred_correct. }
  rewrite (Qfloor_comp _ _ Heq).
  assert (0 <= r)%Q as H0' by exact H0.
  assert (r < 1)%Q as H1' by exact H1.
  assert (0 < inject_Z (Z.of_nat n))%Q as Hn'.
  { rewrite <- (Zlt_Qlt 0). lia. }
  assert (0 <= Qfloor (r * inject_Z (Z.of_nat n)))%Z as Hlo.
  { change 0%Z with (Qfloor 0). apply Qfloor_resp_le.
    apply Qmult_le_0_compat; [done|]. by apply Qlt_le_weak. }
  assert (Qfloor (r * inject_Z (Z.of_nat n)) < Z.of_nat n)%Z as Hhi.
  { rewrite Zlt_Qlt. eapply Qle_lt_trans; [apply Qfloor_le|].
    rewrite <- (Qmult_1_l (inject_Z (Z.of_nat n))) at 2.
    by apply Qmult_lt_compat_r. }
  lia.
Qed.

(** X18.  When some acceptable candidate is profitable, every branch of the
    weighted selection returns a candidate: one of the ranking, and one that
    is acceptable, for every pair of random values with the index value in
    [0, 1). *)
Lemma selectWeightedResult_with_profitable (this : ProfitEngineService)
    (calc : Calculation.t) (random_index random : Qc) :
  Exists (λ c, Candidate.isAcceptable c = true ∧ Candidate.isProfitable c = true)
    (Calculation.results calc) →
  0 ≤ random_index → random_index < 1 →
  ∃ c, selected (selectWeightedResult this calc random_index random) = Some c
       ∧ c ∈ Calculation.results calc
       ∧ Candidate.isAcceptable c = true.
Proof.
  intros Hex Hlo Hhi. unfold selectWeightedResult, Array_filter.
  set (acceptable := List.filter Candidate.isAcceptable (Calculation.results calc)).
  set (profitable := List.filter Candidate.isProfitable acceptable).
  apply Exists_exists in Hex as (c0 & Hc0 & Hacc0 & Hprof0).
  assert (In c0 profitable) as Hin0.
  { apply filter_In. split; [|done]. apply filter_In. split; [|done].
    by apply list_elem_of_In. }
  assert (∀ c, c ∈ acceptable →
               c ∈ Calculation.results calc ∧ Candidate.isAcceptable c = true)
    as Hacceptable.
  { intros c Hc. apply list_elem_of_In, filter_In in Hc as [Hc ?].
    split; [by apply list_elem_of_In|done]. }
  assert (∀ i c, profitable !! i = Some c →
                 c ∈ Calculation.results calc ∧ Candidate.isAcceptable c = true)
    as Hprofitable.
  { intros i c Hc. apply list_elem_of_lookup_2, list_elem_of_In, filter_In in Hc as [Hc _].
    by apply Hacceptable, list_elem_of_In. }
  assert (0 < length profitable)%nat as Hlen.
  { destruct profitable; [by destruct Hin0|simpl; lia]. }
  assert (0 < length acceptable)%nat as Hlen'.
  { destruct acceptable; [by destruct Hin0|simpl; lia]. }
  case_decide; [lia|].
  destruct (lookup_lt_is_Some_2 profitable 0%nat Hlen) as [high Hhigh].
  destruct (lookup_lt_is_Some_2 profitable (length profitable / 2)%nat)
    as [medium Hmedium]; [apply Nat.div_lt; lia|].
  destruct (lookup_lt_is_Some_2 acceptable
              (Z.to_nat (Math_floor (random_index
                 * Q2Qc (inject_Z (Z.of_nat (length acceptable)))))))
    as [any Hany]; [by apply random_index_in_range|].
  rewrite Hhigh, Hmedium, Hany.
  repeat case_decide; simpl; eexists; (split; [done|]); eauto.
  eapply Hacceptable, list_elem_of_lookup_2, Hany.
Qed.

(** C3, evaluated on the code.  The round hedged by a BIG and a SMALL bet
    of 100 has ten candidates of profit 5, that is 2.5 percent: all are
    acceptable and none is profitable.  The 70-percent branch and the
    20-percent branch then return an object without candidate fields; only
    the 10-percent branch returns a candidate. *)
Theorem selectWeightedResult_undefined_pick :
  ∃ calc,
    calculateAllResultsLiability profitEngine "r1" Scenario.hedgedStore = Some calc
    ∧ Forall (λ c, Candidate.isAcceptable c = true ∧ Candidate.isProfitable c = false)
        (Calculation.results calc)
    ∧ selectWeightedResult profitEngine calc (dec 55 100) (dec 10 100)
      = mkSelection None (Some "HIGH_PROFIT") (Some (Calculation.results calc))
    ∧ selectWeightedResult profitEngine calc (dec 55 100) (dec 80 100)
      = mkSelection None (Some "MEDIUM_PROFIT") (Some (Calculation.results calc))
    ∧ Candidate.number
        <$> selected (selectWeightedResult profitEngine calc (dec 55 100) (dec 95 100))
      = Some D5.
Proof.
  destruct (calculateAllResultsLiability profitEngine "r1" Scenario.hedgedStore)
    as [calc|] eqn:Hcalc; [|by vm_compute in Hcalc].
  exists calc. split; [done|].
  injection Hcalc as <-. repeat split; by_evaluation.
Qed.

(** With the hedged round the system result cannot be computed in the 70
    and 20 percent branches: [calculateOptimalResult] throws on the missing
    candidate and the store is left as it was. *)
Lemma calculateOptimalResult_throws :
  calculateOptimalResult profitEngine (dec 0 1) (dec 55 100) (dec 10 100) "r1"
    Scenario.hedgedStore
  = (Throw TypeError_undefined, Scenario.hedgedStore)
  ∧ GameAdminService.autoCalculateResult 60 (dec 0 1) (dec 55 100) (dec 10 100) "r1"
      Scenario.hedgedStore
    = (Throw TypeError_undefined, Scenario.hedgedStore).
Proof. split; by_evaluation. Qed.

(** ** Declaration *)

(** Both declaration paths settle with the colour and the size derived from
    the declared digit: [saveSystemResult] by its first two lines, and
    [declareResult] because the option it parses names a digit, or a colour
    or size whose first digit it takes. *)
Lemma parseWinningOption_derived (winningOption : string) (n : Digit) (c : Color)
    (z : Size) :
  GameAdminService.parseWinningOption winningOption = Some (n, c, z) →
  c = NUMBER_COLORS n ∧ z = NUMBER_SIZES n.
Proof.
  unfold GameAdminService.parseWinningOption.
  destruct (isSingleDigit winningOption); [by intros [= <- <- <-]|].
  destruct (Color_ofName (toUpperCase winningOption)) as [[]|].
  1-3: by intros [= <- <- <-].
  destruct (Size_ofName (toUpperCase winningOption)) as [[]|].
  1-2: by intros [= <- <- <-].
  done.
Qed.

(** A round whose result is declared is not declared again by the admin:
    [declareResult] throws before it writes. *)
Lemma declareResult_declared_rejected (now : Z)
    (gameRoundId winningOption adminId : string) (db : DB) (round : GameRound.t) :
  gameRounds db !! gameRoundId = Some round →
  GameRound.resultStatus round = ResultStatus.DECLARED →
  GameAdminService.declareResult now gameRoundId winningOption adminId db
  = (Throw (Text "Result already declared for this round"), db).
Proof.
  intros Hround Hdeclared. unfold GameAdminService.declareResult.
  rewrite bind_gets. unfold prisma.gameRound_findUnique. rewrite Hround.
  by rewrite decide_True.
Qed.

(** [autoCalculateResult] has no such test.  On the round with a RED bet of
    100 and a GREEN bet of 10, declared on digit 1 by the admin, the GREEN
    bet has been paid 19.5; the system result triggered afterwards for the
    same round declares it again and, drawing digit 1, pays the GREEN bet a
    second time. *)
Lemma autoCalculateResult_settles_again :
  GameRound.resultStatus <$> gameRounds Scenario.twoBetsDeclared !! "r1"
  = Some ResultStatus.DECLARED
  ∧ wallets Scenario.twoBetsDeclared !! "u2" = Some (dec 195 10)
  ∧ GameRound.number <$> gameRounds Scenario.twoBetsDeclaredAgain !! "r1"
    = Some (Some D1)
  ∧ wallets Scenario.twoBetsDeclaredAgain !! "u2" = Some (dec 39 1)
  ∧ length (transactions Scenario.twoBetsDeclaredAgain) = 2%nat.
Proof. repeat split; by_evaluation. Qed.

(** ** Settling twice, on a concrete round *)

(** C1 on a concrete round.  The round is declared on digit 2 and its only
    bet, RED with stake 100, is already [WON] with win amount 195, paid and
    logged.  A second settlement pass pays the 195 again: the balance goes
    from 195 to 390 and a second [BET_WON] transaction is appended. *)
Lemma resettlement_double_credit :
  GameRound.resultStatus <$> gameRounds Scenario.settledOnce !! "r1"
  = Some ResultStatus.DECLARED
  ∧ Forall (λ x, Bet.result x.2 ∈ [BetResult.WON; BetResult.LOST; BetResult.CANCELLED])
      (prisma.bet_findMany "r1" Scenario.settledOnce)
  ∧ GameAdminService.processBetsWithResult "r1" D2 RED SMALL Scenario.settledOnce
    = (Return (), Scenario.settledTwice)
  ∧ wallets Scenario.settledOnce !! "u1" = Some (dec 195 1)
  ∧ wallets Scenario.settledTwice !! "u1" = Some (dec 390 1)
  ∧ transactions Scenario.settledTwice
    = transactions Scenario.settledOnce
      ++ [wonTransaction "b1" Scenario.redBet (dec 195 1)]
  ∧ Scenario.settledTwice ≠ Scenario.settledOnce.
Proof. repeat split; by_evaluation. Qed.

(** Nor does a pass spare a cancelled bet.  After Scenario F has been
    cancelled its three bets are [CANCELLED] and refunded; a pass on digit 1
    over them writes [WON] to the GREEN bet and pays its owner 97.50 on top
    of the refund of 50. *)
Lemma resettlement_of_cancelled_bets :
  Forall (λ x, Bet.result x.2 = BetResult.CANCELLED)
    (prisma.bet_findMany "r1" Scenario.threeBetsCancelled)
  ∧ wallets Scenario.threeBetsCancelled !! "u1" = Some (dec 50 1)
  ∧ GameAdminService.processBetsWithResult "r1" D1 GREEN SMALL
      Scenario.threeBetsCancelled
    = (Return (), Scenario.threeBetsCancelledSettled)
  ∧ Bet.result <$> bets Scenario.threeBetsCancelledSettled !! "b1"
    = Some BetResult.WON
  ∧ wallets Scenario.threeBetsCancelledSettled !! "u1" = Some (dec 1475 10)
  ∧ length (transactions Scenario.threeBetsCancelledSettled) = 4%nat.
Proof. split_and!; by_evaluation. Qed.

(** The store of that round after the first pass. *)
Lemma first_settlement_pass :
  GameAdminService.processBetsWithResult "r1" D2 RED SMALL Scenario.declaredStore
  = (Return (), Scenario.settledOnce).
Proof. by_evaluation. Qed.

(** ** The theorems at concrete rounds *)

Lemma placeBet_not_open_rejected_witness :
  ∃ message,
    BetService.placeBet "b2" "u2" (BetService.mkBetData "r1" NUMBER "7" (dec 10 1))
      Scenario.pausedStore
    = (Throw message, Scenario.pausedStore).
Proof.
  apply (placeBet_not_open_rejected "b2" "u2"
           (BetService.mkBetData "r1" NUMBER "7" (dec 10 1))
           Scenario.pausedStore Scenario.pausedRound); by_evaluation.
Defined.



Lemma resettlement_credits_again_witness :
  ∃ db',
    GameAdminService.processBetsWithResult "r1" D2 RED SMALL Scenario.settledOnce
    = (Return (), db')
    ∧ transactions db'
      = transactions Scenario.settledOnce
        ++ wonTransactions (evaluateBetWithResult D2 RED SMALL)
             (prisma.bet_findMany "r1" Scenario.settledOnce)
    ∧ db' ≠ Scenario.settledOnce.
Proof.
  destruct (resettlement_credits_again "r1" D2 RED SMALL Scenario.settledOnce)
    as (db' & Hrun & _ & _ & Hlog & _ & _ & Hchanged); [by_evaluation..|].
  exists db'. exact (conj Hrun (conj Hlog Hchanged)).
Defined.

Lemma cancelRound_refunds_witness :
  ∃ reply db' round',
    GameAdminService.cancelRound 30 "r1" "admin" Scenario.threeBets = (Return reply, db')
    ∧ gameRounds db' = <["r1" := round']> (gameRounds Scenario.threeBets)
    ∧ GameRound.status round' = RoundStatus.CANCELLED
    ∧ GameRound.resultStatus round' = ResultStatus.PENDING
    ∧ Forall (λ x, ∃ row,
                bets db' !! x.1 = Some row
                ∧ Bet.result row = BetResult.CANCELLED
                ∧ Bet.winAmount row = Some 0
                ∧ sameBet x.2 row)
        (pendingBets (prisma.bet_findMany "r1" Scenario.threeBets))
    ∧ (∀ id, id ∉ (pendingBets (prisma.bet_findMany "r1" Scenario.threeBets)).*1 →
         bets db' !! id = bets Scenario.threeBets !! id)
    ∧ (∀ userId, wallets db' !! userId
         = (λ balance, balance
              + refundedTo userId (prisma.bet_findMany "r1" Scenario.threeBets))
             <$> wallets Scenario.threeBets !! userId)
    ∧ transactions db'
      = transactions Scenario.threeBets
        ++ refundTransactions (GameRound.period Scenario.openRound)
             (prisma.bet_findMany "r1" Scenario.threeBets)
    ∧ Forall (λ t, Transaction.type t = TransactionType.REFUND)
        (refundTransactions (GameRound.period Scenario.openRound)
           (prisma.bet_findMany "r1" Scenario.threeBets)).
Proof.
  apply (cancelRound_refunds 30 "r1" "admin" Scenario.threeBets Scenario.openRound);
    by_evaluation.
Defined.

Lemma validateAdminResult_no_bets_witness :
  validateAdminResult profitEngine "r1" "purple" Scenario.emptyRound
  = (Return (mkValidation true (Some (Text "No bets placed")) None None),
     Scenario.emptyRound).
Proof.
  apply (validateAdminResult_no_bets profitEngine "r1" "purple" Scenario.emptyRound).
  by_evaluation.
Defined.

Lemma settlementUnit_frame_witness :
  ∃ db' row,
    settlementUnit "b1" Scenario.redBet true (dec 195 1) Scenario.declaredStore
    = (Return (), db')
    ∧ gameRounds db' = gameRounds Scenario.declaredStore
    ∧ bets db' = <["b1" := row]> (bets Scenario.declaredStore)
    ∧ sameBet Scenario.redBet row
    ∧ Bet.result row = BetResult.WON
    ∧ Bet.winAmount row = Some (dec 195 1)
    ∧ wallets db'
      = <[Bet.userId Scenario.redBet := dec 0 1 + dec 195 1]>
          (wallets Scenario.declaredStore)
    ∧ ∃ t, transactions db' = transactions Scenario.declaredStore ++ [t]
           ∧ Transaction.userId t = Bet.userId Scenario.redBet
           ∧ Transaction.type t = TransactionType.BET_WON
           ∧ Transaction.amount t = dec 195 1
           ∧ Transaction.referenceId t = Some "b1".
Proof.
  apply (settlementUnit_frame "b1" Scenario.redBet true (dec 195 1)
           Scenario.declaredStore (dec 0 1)); [by_evaluation|].
  intros _. by_evaluation.
Defined.

(** Scenario F in full: the three stakes go back to the three wallets. *)
Lemma cancelRound_three_bets :
  ∃ db',
    (GameAdminService.cancelRound 30 "r1" "admin" Scenario.threeBets).2 = db'
    ∧ wallets db' = {[ "u1" := dec 50 1; "u2" := dec 85 1; "u3" := dec 25 1 ]}
    ∧ Forall (λ x, Bet.result x.2 = BetResult.CANCELLED ∧ Bet.winAmount x.2 = Some (Q2Qc 0))
        (prisma.bet_findMany "r1" db')
    ∧ length (transactions db') = 3%nat.
Proof. eexists. split; [reflexivity|]. repeat split; by_evaluation. Qed.

(** ** Placing a bet *)

Lemma transaction_rollback {A : Type} (body : Async A) (db db' : DB) (e : Message) :
  transaction body db = (Throw e, db') → db' = db.
Proof.
  unfold transaction. destruct (body db) as [[a|e'] db'']; congruence.
Qed.

Lemma placeBet_rollback (newId userId : string) (betData : BetService.BetData)
    (db db' : DB) (message : Message) :
  BetService.placeBet newId userId betData db = (Throw message, db') → db' = db.
Proof.
  unfold BetService.placeBet. rewrite bind_gets.
  destruct (prisma.gameRound_findUnique _ db) as [gameRound|]; [|by intros [= _ <-]].
  repeat (case_decide; [by intros [= _ <-]|]).
  rewrite bind_gets.
  destruct (match prisma.wallet_findUnique userId db with
            | Some balance => bool_decide (balance < BetService.amount betData)
            | None => true
            end); [by intros [= _ <-]|].
  rewrite bind_gets.
  destruct (prisma.bet_findFirst _ _ db); [by intros [= _ <-]|].
  apply transaction_rollback.
Qed.

Lemma placeBet_Return (newId userId : string) (betData : BetService.BetData)
    (db : DB) (gameRound : GameRound.t) (balance : Qc) :
  gameRounds db !! BetService.gameRoundId betData = Some gameRound →
  GameRound.status gameRound = RoundStatus.OPEN →
  GameRound.resultStatus gameRound = ResultStatus.PENDING →
  wallets db !! userId = Some balance →
  BetService.amount betData ≤ balance →
  prisma.bet_findFirst userId (BetService.gameRoundId betData) db = None →
  bets db !! newId = None →
  BetService.placeBet newId userId betData db
  = (Return (newId, placedBet userId betData),
     mkDB (gameRounds db) (<[newId := placedBet userId betData]> (bets db))
       (<[userId := balance - BetService.amount betData]> (wallets db))
       (transactions db
        ++ [Transaction.mk userId TransactionType.BET_PLACED
              (BetService.amount betData) TransactionStatus.COMPLETED (Some newId)
              (Some ("Bet placed on " +:+ BetType_name (BetService.betType betData)
                     +:+ ": " +:+ toUpperCase (BetService.selection betData)))])).
Proof.
  intros Hround Hopen Hpending Hwallet Hamount Hfirst Hfresh.
  unfold BetService.placeBet. rewrite bind_gets.
  unfold prisma.gameRound_findUnique. rewrite Hround, Hopen, Hpending.
  repeat (case_decide; [done|]).
  rewrite bind_gets. unfold prisma.wallet_findUnique. rewrite Hwallet.
  rewrite bool_decide_eq_false_2 by (by apply Qcle_not_lt).
  rewrite bind_gets, Hfirst.
  unfold transaction, prisma.wallet_decrement, prisma.bet_create,
    prisma.transaction_create, mbind, Async_bind, mret, Async_ret, gets, modify.
  simpl. rewrite Hwallet. simpl. rewrite Hfresh. reflexivity.
Qed.

Lemma placeBet_Return_inv (newId userId : string) (betData : BetService.BetData)
    (db db' : DB) (entry : string * Bet.t) :
  BetService.placeBet newId userId betData db = (Return entry, db') →
  entry = (newId, placedBet userId betData)
  ∧ (∃ gameRound,
       gameRounds db !! BetService.gameRoundId betData = Some gameRound
       ∧ GameRound.status gameRound = RoundStatus.OPEN
       ∧ GameRound.resultStatus gameRound = ResultStatus.PENDING)
  ∧ (∃ balance, wallets db !! userId = Some balance
                ∧ BetService.amount betData ≤ balance)
  ∧ prisma.bet_findFirst userId (BetService.gameRoundId betData) db = None
  ∧ bets db !! newId = None.
Proof.
  unfold BetService.placeBet. rewrite bind_gets. unfold prisma.gameRound_findUnique.
  destruct (gameRounds db !! _) as [gameRound|] eqn:Hround; [|done].
  repeat (case_decide; [done|]).
  rewrite bind_gets. unfold prisma.wallet_findUnique.
  destruct (wallets db !! userId) as [balance|] eqn:Hwallet; [|done].
  destruct (bool_decide (balance < _)) eqn:Hlt; [done|].
  apply bool_decide_eq_false_1, Qcnot_lt_le in Hlt.
  rewrite bind_gets.
  destruct (prisma.bet_findFirst _ _ db) eqn:Hfirst; [done|].
  destruct (bets db !! newId) eqn:Hfresh.
  { unfold transaction, prisma.wallet_decrement, prisma.bet_create,
      prisma.transaction_create, mbind, Async_bind, mret, Async_ret, gets, modify.
    simpl. rewrite Hwallet. simpl. by rewrite Hfresh. }
  assert (GameRound.status gameRound = RoundStatus.OPEN) as Hopen.
  { by destruct (GameRound.status gameRound). }
  assert (GameRound.resultStatus gameRound = ResultStatus.PENDING) as Hpending.
  { by destruct (GameRound.resultStatus gameRound). }
  intros Hrun. split; [|by eauto 10].
  pose proof (placeBet_Return newId userId betData db gameRound balance
                Hround Hopen Hpending Hwallet Hlt Hfirst Hfresh) as Hret.
  unfold BetService.placeBet in Hret. rewrite bind_gets in Hret.
  unfold prisma.gameRound_findUnique in Hret. rewrite Hround in Hret.
  repeat (rewrite decide_False in Hret by done).
  rewrite bind_gets in Hret. unfold prisma.wallet_findUnique in Hret.
  rewrite Hwallet, bool_decide_eq_false_2 in Hret by (by apply Qcle_not_lt).
  rewrite bind_gets, Hfirst in Hret. congruence.
Qed.

Lemma placedBet_potentialWin (userId : string) (betData : BetService.BetData)
    (number : Digit) :
  (evaluateBetWithResult number (NUMBER_COLORS number) (NUMBER_SIZES number)
     (placedBet userId betData)).1 = true →
  (evaluateBetWithResult number (NUMBER_COLORS number) (NUMBER_SIZES number)
     (placedBet userId betData)).2
  = Bet.potentialWin (placedBet userId betData).
Proof.
  unfold evaluateBetWithResult, placedBet. simpl.
  destruct (BetService.betType betData); simpl.
  - set (s := toUpperCase (BetService.selection betData)).
    unfold BetService.payoutOfColorName.
    destruct number; simpl; repeat case_decide; simpl; try done;
      exfalso; intuition congruence.
  - by case_decide.
  - set (s := toUpperCase (BetService.selection betData)).
    unfold BetService.payoutOfSizeName.
    destruct number; simpl; repeat case_decide; simpl; try done;
      exfalso; intuition congruence.
Qed.

Lemma bet_findFirst_None (userId gameRoundId : string) (db : DB) :
  prisma.bet_findFirst userId gameRoundId db = None
  ↔ ∀ id bet, bets db !! id = Some bet →
      ¬ (Bet.userId bet = userId ∧ Bet.gameRoundId bet = gameRoundId).
Proof.
  unfold prisma.bet_findFirst. rewrite head_None. split.
  - intros Hnil id bet Hbet Hmatch.
    eapply (filter_nil_not_elem_of _ _ (id, bet)); [exact Hnil|exact Hmatch|].
    by apply elem_of_map_to_list.
  - intros Hnone. destruct (filter _ _) as [|[id bet] l] eqn:Hfilter; [done|].
    assert ((id, bet) ∈ filter
              (λ p : string * Bet.t,
                 Bet.userId p.2 = userId ∧ Bet.gameRoundId p.2 = gameRoundId)
              (map_to_list (bets db))) as Hin.
    { rewrite Hfilter. apply list_elem_of_here. }
    apply list_elem_of_filter in Hin as [Hmatch Hin].
    apply elem_of_map_to_list in Hin. by destruct (Hnone id bet Hin).
Qed.



(** X3.  One bet per user and round: after a successful placement every further
    placement by the same user on the same round throws and leaves the store
    as it is, with "Insufficient balance" when the remaining balance does
    not cover the new stake (that test comes first) and with "You have
    already placed a bet on this round" otherwise. *)
Theorem placeBet_twice_rejected (newId newId' userId : string)
    (betData betData' : BetService.BetData) (db db1 : DB) (entry : string * Bet.t) :
  BetService.placeBet newId userId betData db = (Return entry, db1) →
  BetService.gameRoundId betData' = BetService.gameRoundId betData →
  ∃ balance1,
    wallets db1 !! userId = Some balance1
    ∧ BetService.placeBet newId' userId betData' db1
      = (Throw (Text (if decide (balance1 < BetService.amount betData')
                      then "Insufficient balance"
                      else "You have already placed a bet on this round")), db1).
Proof.
  intros Hplaced Hsame.
  destruct (placeBet_Return_inv _ _ _ _ _ _ Hplaced)
    as (-> & (gameRound & Hround & Hopen & Hpending) & (balance & Hwallet & Hamount)
        & Hfirst & Hfresh).
  rewrite (placeBet_Return _ _ _ _ _ _ Hround Hopen Hpending Hwallet Hamount Hfirst Hfresh)
    in Hplaced.
  injection Hplaced as <-.
  exists (balance - BetService.amount betData). split.
  { simpl. apply lookup_insert_eq. }
  unfold BetService.placeBet. rewrite bind_gets.
  unfold prisma.gameRound_findUnique. simpl. rewrite Hsame, Hround, Hopen, Hpending.
  repeat (case_decide; [done|]).
  rewrite bind_gets. unfold prisma.wallet_findUnique. simpl.
  rewrite lookup_insert_eq.
  destruct (decide (balance - BetService.amount betData < BetService.amount betData'))
    as [Hlt|Hge].
  { by rewrite bool_decide_eq_true_2. }
  rewrite bool_decide_eq_false_2 by done. rewrite bind_gets.
  match goal with
  | |- context [prisma.bet_findFirst ?u ?r ?d] =>
      destruct (prisma.bet_findFirst u r d) eqn:Hnone; [done|]
  end.
  exfalso. rewrite bet_findFirst_None in Hnone.
  apply (Hnone newId (placedBet userId betData)); [apply lookup_insert_eq|done].
Qed.

(** X4.  The potential win shown at placement is the amount paid: when a bet
    created by [placeBet] wins a settlement on a digit with its derived
    colour and size, its win amount is its [potentialWin]. *)
Theorem placeBet_potentialWin_paid (newId userId : string)
    (betData : BetService.BetData) (db db' : DB) (id : string) (bet : Bet.t)
    (number : Digit) :
  BetService.placeBet newId userId betData db = (Return (id, bet), db') →
  (evaluateBetWithResult number (NUMBER_COLORS number) (NUMBER_SIZES number) bet).1
  = true →
  (evaluateBetWithResult number (NUMBER_COLORS number) (NUMBER_SIZES number) bet).2
  = Bet.potentialWin bet.
Proof.
  intros Hrun Hwin.
  destruct (placeBet_Return_inv _ _ _ _ _ _ Hrun) as (Hentry & _).
  injection Hentry as -> ->. by apply placedBet_potentialWin.
Qed.

(** ** Cancelling after a placement *)

Lemma gameRound_update_Some (id : string) (data : GameRound.t → GameRound.t)
    (db : DB) (round : GameRound.t) :
  gameRounds db !! id = Some round →
  prisma.gameRound_update id data db
  = (Return (data round), set_gameRounds (insert id (data round)) db).
Proof. intros H. unfold prisma.gameRound_update. by rewrite bind_gets, H. Qed.

Lemma gameRound_update_None (id : string) (data : GameRound.t → GameRound.t) (db : DB) :
  gameRounds db !! id = None → prisma.gameRound_update id data db = (Throw P2025, db).
Proof. intros H. unfold prisma.gameRound_update. by rewrite bind_gets, H. Qed.

Lemma cancelRound_rollback (now : Z) (gameRoundId adminId : string) (db db' : DB)
    (message : Message) :
  GameAdminService.cancelRound now gameRoundId adminId db = (Throw message, db') →
  db' = db.
Proof.
  unfold GameAdminService.cancelRound. rewrite !bind_gets.
  destruct (prisma.gameRound_findUnique gameRoundId db) as [round|];
    [|by intros [= _ <-]].
  repeat (case_decide; [by intros [= _ <-]|]).
  unfold mbind at 1. unfold Async_bind.
  destruct (transaction _ db) as [[[]|e] db''] eqn:Htx; [done|].
  apply transaction_rollback in Htx. congruence.
Qed.

Lemma cancelRound_Return (now : Z) (gameRoundId adminId : string) (db : DB)
    (round : GameRound.t) :
  gameRounds db !! gameRoundId = Some round →
  GameRound.status round ≠ RoundStatus.CANCELLED →
  GameRound.resultStatus round ≠ ResultStatus.DECLARED →
  Forall (λ x, is_Some (wallets db !! Bet.userId x.2))
    (pendingBets (prisma.bet_findMany gameRoundId db)) →
  GameAdminService.cancelRound now gameRoundId adminId db
  = (Return (GameAdminService.mkCancelReply "Round cancelled and all bets refunded"
               (length (prisma.bet_findMany gameRoundId db))),
     runEffects (refundEffect (GameRound.period round))
       (prisma.bet_findMany gameRoundId db)
       (set_gameRounds (insert gameRoundId (GameAdminService.cancelledAt now round)) db)).
Proof.
  intros Hround Hcancelled Hdeclared Hwallets. rewrite Forall_forall in Hwallets.
  unfold GameAdminService.cancelRound.
  rewrite !bind_gets. unfold prisma.gameRound_findUnique. rewrite Hround.
  rewrite !decide_False by done.
  set (l := prisma.bet_findMany gameRoundId db).
  set (db1 := set_gameRounds (insert gameRoundId (GameAdminService.cancelledAt now round)) db).
  assert (prisma.gameRound_update gameRoundId (GameAdminService.cancelledAt now) db
          = (Return (GameAdminService.cancelledAt now round), db1)) as Hupdate.
  { unfold prisma.gameRound_update. by rewrite bind_gets, Hround. }
  assert (for_of l (GameAdminService.refundBet (GameRound.period round)) db1
          = (Return (), runEffects (refundEffect (GameRound.period round)) l db1))
    as Hloop.
  { apply for_of_runEffects; [intros x db2; apply refundBet_effect|].
    apply Forall_forall. intros [id bet] Hin. unfold enabled, refundEffect. simpl.
    case_decide as Hpending; simpl; [|by split; intros [? ?]].
    split; intros _.
    - apply bet_findMany_elem in Hin as [-> _]. by eexists.
    - apply (Hwallets (id, bet)). by apply list_elem_of_filter. }
  erewrite bind_Return; [reflexivity|]. unfold transaction.
  by rewrite (bind_Return _ _ _ _ _ Hupdate), Hloop.
Qed.

Lemma bet_findMany_insert (gameRoundId : string) (db db' : DB) (id : string)
    (row : Bet.t) :
  bets db !! id = None →
  bets db' = <[id := row]> (bets db) →
  prisma.bet_findMany gameRoundId db'
  ≡ₚ (if decide (Bet.gameRoundId row = gameRoundId) then [(id, row)] else [])
     ++ prisma.bet_findMany gameRoundId db.
Proof.
  intros Hfresh Hbets. unfold prisma.bet_findMany.
  rewrite Hbets, (map_to_list_insert _ _ _ Hfresh), filter_cons. simpl.
  by case_decide.
Qed.

#[global] Instance refundedTo_Permutation (userId : string) :
  Proper ((≡ₚ) ==> (=)) (refundedTo userId).
Proof. intros l1 l2 H. unfold refundedTo, pendingBets. by rewrite H. Qed.

Lemma refundedTo_no_bet (userId gameRoundId : string) (db : DB) :
  prisma.bet_findFirst userId gameRoundId db = None →
  refundedTo userId (prisma.bet_findMany gameRoundId db) = 0.
Proof.
  rewrite bet_findFirst_None. intros Hnone. unfold refundedTo, pendingBets.
  destruct (filter _ (filter _ _)) as [|[id bet] l] eqn:Hfilter; [done|].
  assert ((id, bet) ∈ (id, bet) :: l) as Hin by apply list_elem_of_here.
  rewrite <- Hfilter in Hin.
  apply list_elem_of_filter in Hin as [Huser Hin].
  apply list_elem_of_filter in Hin as [_ Hin].
  apply bet_findMany_elem in Hin as [Hbet Hround].
  by destruct (Hnone id bet Hbet).
Qed.

(** X5.  Placing a bet and cancelling the round gives the stake back.  After a
    successful placement, [cancelRound] on that round succeeds (the owners of
    the other pending bets having wallets), the new bet is [CANCELLED], the
    bettor's balance is what it was before the placement, and every wallet
    is where a cancellation without the placement would have left it. *)
Theorem placeBet_cancelRound_restores (now : Z) (newId userId adminId : string)
    (betData : BetService.BetData) (db db1 : DB) (entry : string * Bet.t) :
  BetService.placeBet newId userId betData db = (Return entry, db1) →
  Forall (λ x, is_Some (wallets db !! Bet.userId x.2))
    (pendingBets (prisma.bet_findMany (BetService.gameRoundId betData) db)) →
  ∃ reply db2,
    GameAdminService.cancelRound now (BetService.gameRoundId betData) adminId db1
    = (Return reply, db2)
    ∧ wallets db2 !! userId = wallets db !! userId
    ∧ (∀ user, wallets db2 !! user
         = (λ balance, balance
              + refundedTo user
                  (prisma.bet_findMany (BetService.gameRoundId betData) db))
             <$> wallets db !! user)
    ∧ Bet.result <$> bets db2 !! newId = Some BetResult.CANCELLED.
Proof.
  intros Hplaced Hwallets.
  destruct (placeBet_Return_inv _ _ _ _ _ _ Hplaced)
    as (-> & (gameRound & Hround & Hopen & Hpending) & (balance & Hwallet & Hamount)
        & Hfirst & Hfresh).
  rewrite (placeBet_Return _ _ _ _ _ _ Hround Hopen Hpending Hwallet Hamount Hfirst Hfresh)
    in Hplaced.
  injection Hplaced as <-.
  set (r := BetService.gameRoundId betData) in *.
  set (db1 := mkDB _ _ _ _).
  assert (prisma.bet_findMany r db1
          ≡ₚ (newId, placedBet userId betData) :: prisma.bet_findMany r db) as Hperm.
  { rewrite (bet_findMany_insert r db db1 newId (placedBet userId betData)); try done.
    by rewrite decide_True. }
  assert (∀ user, wallets db1 !! user
                  = if decide (user = userId)
                    then Some (balance - BetService.amount betData)
                    else wallets db !! user) as Hw1.
  { intros user. simpl. case_decide as Hu; [subst; apply lookup_insert_eq|].
    by apply lookup_insert_ne. }
  eexists _, _. split.
  { apply (cancelRound_Return now r adminId db1 gameRound); try done.
    - by rewrite Hopen.
    - by rewrite Hpending.
    - unfold pendingBets. rewrite Hperm. apply Forall_forall. intros x Hx.
      rewrite Hw1. case_decide; [done|].
      apply list_elem_of_filter in Hx as [Hp Hx].
      apply elem_of_cons in Hx as [->|Hx]; [done|].
      rewrite Forall_forall in Hwallets. apply Hwallets.
      by apply list_elem_of_filter. }
  assert (∀ user, refundedTo user (prisma.bet_findMany r db1)
                  = (if decide (user = userId) then BetService.amount betData else 0)
                    + refundedTo user (prisma.bet_findMany r db)) as Hrefund.
  { intros user. rewrite Hperm. unfold refundedTo, pendingBets.
    rewrite filter_cons_True by done.
    destruct (decide (user = userId)) as [->|Hu].
    + rewrite filter_cons_True by done. by rewrite fmap_cons, sumQc_cons.
    + rewrite filter_cons_False by (simpl; congruence). ring. }
  assert (∀ user, wallets (runEffects (refundEffect (GameRound.period gameRound))
                             (prisma.bet_findMany r db1)
                             (set_gameRounds
                                (insert r (GameAdminService.cancelledAt now gameRound)) db1))
                    !! user
                  = (λ balance, balance + refundedTo user (prisma.bet_findMany r db))
                      <$> wallets db !! user) as Hall.
  { intros user. rewrite runEffects_wallets, paidTo_refundedTo, Hrefund.
    change (wallets (set_gameRounds _ db1)) with (wallets db1). rewrite Hw1.
    case_decide as Hu.
    - subst user. rewrite Hwallet. simpl. f_equal. ring.
    - destruct (wallets db !! user); simpl; [|done]. f_equal. ring. }
  split; [|split; [exact Hall|]].
  - rewrite Hall, (refundedTo_no_bet _ _ _ Hfirst), Hwallet. simpl. f_equal. ring.
  - rewrite (runEffects_bets _ _ _ _ (bet_findMany_NoDup r db1)).
    rewrite bet_findMany_lookup.
    change (bets (set_gameRounds _ db1)) with (bets db1). simpl.
    rewrite lookup_insert_eq. simpl. case_decide; [|done]. simpl.
    unfold rowAfter, refundEffect. simpl. reflexivity.
Qed.

Lemma refundBet_Return (period : string) (x : string * Bet.t) (db db' : DB) (a : unit) :
  GameAdminService.refundBet period x db = (Return a, db') →
  db' = applyEffect (refundEffect period x) x db.
Proof.
  intros Hrun.
  assert (enabled (refundEffect period x) x db) as Hen.
  { destruct x as [id bet]. unfold GameAdminService.refundBet, refundEffect in *.
    simpl in *. destruct (decide (Bet.result bet = BetResult.PENDING));
      [|by split; intros [? ?]].
    destruct (wallets db !! Bet.userId bet) as [balance|] eqn:Hw.
    2:{ by rewrite (bind_Throw _ _ _ _ _ (wallet_increment_None _ _ _ Hw)) in Hrun. }
    rewrite (bind_Return _ _ _ _ _ (wallet_increment_Some _ _ _ _ Hw)) in Hrun.
    destruct (bets db !! id) as [row|] eqn:Hrow.
    2:{ erewrite bind_Throw in Hrun; [done|]. by apply bet_update_None. }
    split; by eexists. }
  rewrite (refundBet_effect period x db Hen) in Hrun. congruence.
Qed.

Lemma for_of_Return_runEffects (eff : string * Bet.t → Effect)
    (body : string * Bet.t → Async unit) (l : list (string * Bet.t)) (db db' : DB) :
  (∀ x db db' a, body x db = (Return a, db') → db' = applyEffect (eff x) x db) →
  for_of l body db = (Return (), db') → db' = runEffects eff l db.
Proof.
  intros Hbody. revert db. induction l as [|x l IH]; intros db; simpl.
  { by intros [= <-]. }
  unfold mbind, Async_bind. destruct (body x db) as [[a|e] db1] eqn:Hx; [|done].
  intros Hrest. rewrite (IH _ Hrest). by rewrite (Hbody _ _ _ _ Hx).
Qed.

(** X6.  [cancelRound] is all or nothing.  When it throws, also in the middle
    of the refunds, the store is the one it found.  When it returns, the
    round is cancelled, every pending bet of the round is [CANCELLED] so that
    none is left pending, every wallet has grown by the stakes of its owner's
    pending bets, and the reply counts all bets of the round, refunded or
    not. *)
Theorem cancelRound_all_or_nothing (now : Z) (gameRoundId adminId : string) (db : DB) :
  match GameAdminService.cancelRound now gameRoundId adminId db with
  | (Throw _, db') => db' = db
  | (Return reply, db') =>
      (∃ round,
         gameRounds db !! gameRoundId = Some round
         ∧ gameRounds db'
           = <[gameRoundId := GameAdminService.cancelledAt now round]> (gameRounds db))
      ∧ bets db' = cancelledRow gameRoundId <$> bets db
      ∧ Forall (λ x, Bet.result x.2 ≠ BetResult.PENDING)
          (prisma.bet_findMany gameRoundId db')
      ∧ (∀ userId, wallets db' !! userId
           = (λ balance, balance
                + refundedTo userId (prisma.bet_findMany gameRoundId db))
               <$> wallets db !! userId)
      ∧ GameAdminService.refundedBets reply
        = length (prisma.bet_findMany gameRoundId db)
  end.
Proof.
  destruct (GameAdminService.cancelRound now gameRoundId adminId db)
    as [[reply|e] db'] eqn:Hrun.
  2:{ by eapply cancelRound_rollback. }
  unfold GameAdminService.cancelRound in Hrun. rewrite !bind_gets in Hrun.
  unfold prisma.gameRound_findUnique in Hrun.
  destruct (gameRounds db !! gameRoundId) as [round|] eqn:Hround; [|done].
  destruct (decide (GameRound.status round = RoundStatus.CANCELLED)); [done|].
  destruct (decide (GameRound.resultStatus round = ResultStatus.DECLARED)); [done|].
  set (l := prisma.bet_findMany gameRoundId db) in *.
  set (db1 := set_gameRounds (insert gameRoundId (GameAdminService.cancelledAt now round)) db).
  unfold mbind at 1, Async_bind, transaction in Hrun.
  rewrite (bind_Return _ _ _ _ _ (gameRound_update_Some _ _ _ _ Hround)) in Hrun.
  fold db1 in Hrun.
  destruct (for_of l _ db1) as [[[]|e] db2] eqn:Hloop; [|done].
  injection Hrun as <- <-.
  apply (for_of_Return_runEffects (refundEffect (GameRound.period round))) in Hloop;
    [|intros x d d' a; apply refundBet_Return].
  subst db2.
  assert (bets (runEffects (refundEffect (GameRound.period round)) l db1)
          = cancelledRow gameRoundId <$> bets db) as Hbets.
  { apply map_eq. intros id.
    rewrite (runEffects_bets _ _ _ _ (bet_findMany_NoDup gameRoundId db)).
    rewrite bet_findMany_lookup, lookup_fmap. simpl.
    unfold cancelledRow, rowAfter, refundEffect.
    destruct (bets db !! id) as [row|]; simpl; [|done].
    repeat case_decide; simpl; try done; exfalso; intuition congruence. }
  split_and!.
  - exists round. split; [done|]. by rewrite runEffects_gameRounds.
  - exact Hbets.
  - apply Forall_forall. intros [id bet] Hin.
    apply bet_findMany_elem in Hin as [Hbet Hround']. rewrite Hbets, lookup_fmap in Hbet.
    destruct (bets db !! id) as [row|]; [|done]. injection Hbet as <-. simpl.
    unfold cancelledRow. case_decide as Hc; simpl; [done|].
    unfold cancelledRow in Hround'. rewrite decide_False in Hround' by done.
    intros Hp. by apply Hc.
  - intros userId. by rewrite runEffects_wallets, paidTo_refundedTo.
  - done.
Qed.

(** ** The round status *)

(** X7.  The round status controls betting.  After [updateRoundStatus] has
    returned, the round carries the requested status; a placement on it by a
    user who could bet (balance covering the stake, no bet on the round yet)
    succeeds when the status is [OPEN] and is rejected without a change of
    the store when it is [PAUSED] or [CLOSED]. *)
Theorem updateRoundStatus_controls_betting (gameRoundId : string)
    (status : RoundStatus.t) (db db' : DB) (round' : GameRound.t)
    (newId userId : string) (betData : BetService.BetData) (balance : Qc) :
  GameAdminService.updateRoundStatus gameRoundId status db = (Return round', db') →
  BetService.gameRoundId betData = gameRoundId →
  wallets db !! userId = Some balance →
  BetService.amount betData ≤ balance →
  prisma.bet_findFirst userId gameRoundId db = None →
  bets db !! newId = None →
  GameRound.status round' = status
  ∧ gameRounds db' !! gameRoundId = Some round'
  ∧ if decide (status = RoundStatus.OPEN) then
      ∃ entry db'', BetService.placeBet newId userId betData db' = (Return entry, db'')
    else
      ∃ message, BetService.placeBet newId userId betData db' = (Throw message, db').
Proof.
  intros Hrun <- Hwallet Hamount Hfirst Hfresh.
  unfold GameAdminService.updateRoundStatus in Hrun.
  destruct (negb _) eqn:Hvalid; [done|].
  rewrite bind_gets in Hrun. unfold prisma.gameRound_findUnique in Hrun.
  destruct (gameRounds db !! BetService.gameRoundId betData) as [round|] eqn:Hround;
    [|done].
  destruct (decide (GameRound.status round = RoundStatus.CANCELLED ∨ _)); [done|].
  destruct (decide (GameRound.resultStatus round = ResultStatus.DECLARED ∧ _))
    as [|Hreopen]; [done|].
  rewrite (gameRound_update_Some _ _ _ _ Hround) in Hrun.
  injection Hrun as <- <-. split; [done|]. split; [apply lookup_insert_eq|].
  destruct (decide (status = RoundStatus.OPEN)) as [->|Hopen].
  - eexists _, _.
    apply (placeBet_Return newId userId betData _
             (GameAdminService.withStatus RoundStatus.OPEN round) balance);
      try done.
    + apply lookup_insert_eq.
    + simpl. destruct (GameRound.resultStatus round) eqn:E; [done|].
      destruct Hreopen. by split.
  - unfold BetService.placeBet. rewrite bind_gets.
    unfold prisma.gameRound_findUnique. simpl. rewrite lookup_insert_eq. simpl.
    destruct status; try done; try by vm_compute in Hvalid.
    + rewrite decide_True by done. by eexists.
    + rewrite decide_False by done. rewrite decide_True by done. by eexists.
Qed.

(** ** The admin's winning option *)

Ltac not_in_literal_list :=
  let Hin := fresh in
  intros Hin; repeat (apply elem_of_cons in Hin as [?|Hin]; [done|]);
  by apply elem_of_nil in Hin.

Lemma targetNumberOf_parseWinningOption (winningOption : string) :
  targetNumberOf winningOption
  = (λ parsed, parsed.1.1) <$> GameAdminService.parseWinningOption winningOption.
Proof.
  unfold targetNumberOf, GameAdminService.parseWinningOption.
  destruct (isSingleDigit winningOption); [done|].
  generalize (toUpperCase winningOption). intros u.
  unfold isColorName, isSizeName, Color_ofName, Size_ofName.
  destruct (decide (u = "GREEN")) as [->|Hg]; [done|].
  destruct (decide (u = "RED")) as [->|Hr]; [done|].
  destruct (decide (u = "VIOLET")) as [->|Hv]; [done|].
  rewrite bool_decide_eq_false_2 by not_in_literal_list.
  destruct (decide (u = "BIG")) as [->|Hb]; [done|].
  destruct (decide (u = "SMALL")) as [->|Hs]; [done|].
  by rewrite bool_decide_eq_false_2 by not_in_literal_list.
Qed.

Lemma parseWinningOption_targetNumberOf (winningOption : string) :
  GameAdminService.parseWinningOption winningOption
  = (λ n, (n, NUMBER_COLORS n, NUMBER_SIZES n)) <$> targetNumberOf winningOption.
Proof.
  rewrite targetNumberOf_parseWinningOption.
  destruct (GameAdminService.parseWinningOption winningOption) as [[[n c] z]|] eqn:E;
    [|done].
  apply parseWinningOption_derived in E as [-> ->]. done.
Qed.

(** X8.  Validation and declaration read the admin's option alike: the digit
    [validateAdminResult] checks against the loss limit is the digit
    [declareResult] declares, with the colour and the size of that digit,
    and an option that one of them cannot read the other cannot read
    either. *)
Theorem validated_digit_is_declared (winningOption : string) :
  match targetNumberOf winningOption with
  | Some number =>
      GameAdminService.parseWinningOption winningOption
      = Some (number, NUMBER_COLORS number, NUMBER_SIZES number)
  | None => GameAdminService.parseWinningOption winningOption = None
  end.
Proof.
  rewrite parseWinningOption_targetNumberOf.
  by destruct (targetNumberOf winningOption).
Qed.

Lemma bet_findMany_nil_calculation (this : ProfitEngineService) (gameRoundId : string)
    (db : DB) :
  prisma.bet_findMany gameRoundId db = [] ↔
  calculateAllResultsLiability this gameRoundId db = None.
Proof.
  unfold calculateAllResultsLiability, calculateLiability. rewrite length_fmap.
  destruct (prisma.bet_findMany gameRoundId db); [done|].
  rewrite decide_False by done. done.
Qed.

(** X9.  An option of ASCII characters that is neither a digit, a colour nor
    a size is never declared: on a round that can still be declared,
    [declareResult] throws and the store is the one it found.  The message
    is the validation's "Invalid winning option" when the round has bets,
    and the longer message of the declaration itself when it has none. *)
Theorem declareResult_invalid_option (now : Z)
    (gameRoundId winningOption adminId : string) (db : DB) (round : GameRound.t) :
  gameRounds db !! gameRoundId = Some round →
  GameRound.resultStatus round = ResultStatus.PENDING →
  GameRound.status round ≠ RoundStatus.CANCELLED →
  isASCII winningOption = true →
  targetNumberOf winningOption = None →
  GameAdminService.declareResult now gameRoundId winningOption adminId db
  = (Throw (Text (if decide (prisma.bet_findMany gameRoundId db = [])
                  then "Invalid winning option. Must be 0-9, GREEN, RED, VIOLET, BIG, or SMALL"
                  else "Invalid winning option")), db).
Proof.
  intros Hround Hpending Hstatus _ Htarget.
  unfold GameAdminService.declareResult.
  rewrite bind_gets. unfold prisma.gameRound_findUnique. rewrite Hround, Hpending.
  rewrite !decide_False by done.
  destruct (calculateAllResultsLiability profitEngine gameRoundId db) as [calc|] eqn:Hcalc.
  - erewrite bind_Return;
      [|unfold validateAdminResult; by rewrite bind_gets, Hcalc, Htarget].
    simpl. rewrite decide_False; [done|].
    intros Hnil. apply (bet_findMany_nil_calculation profitEngine) in Hnil. congruence.
  - erewrite bind_Return;
      [|unfold validateAdminResult; by rewrite bind_gets, Hcalc].
    simpl. apply bet_findMany_nil_calculation in Hcalc. rewrite decide_True by done.
    by rewrite parseWinningOption_targetNumberOf, Htarget.
Qed.

(** ** Clean-up of old rounds *)

#[global] Instance declaredAt_le_Transitive : Transitive GameAdminService.declaredAt_le.
Proof.
  intros a b c. unfold GameAdminService.declaredAt_le.
  destruct (GameRound.declaredAt a.2), (GameRound.declaredAt b.2),
    (GameRound.declaredAt c.2); try done. lia.
Qed.

#[global] Instance declaredAt_le_Total : Total GameAdminService.declaredAt_le.
Proof.
  intros a b. unfold GameAdminService.declaredAt_le.
  destruct (GameRound.declaredAt a.2), (GameRound.declaredAt b.2); auto. lia.
Qed.

Lemma cleanupOldRounds_Return (db : DB) :
  GameAdminService.cleanupOldRounds db
  = (Return (),
     mkDB (filter (λ p, p.1 ∉ roundsToDelete db) (gameRounds db))
       (filter (λ p, Bet.gameRoundId p.2 ∉ roundsToDelete db) (bets db))
       (wallets db) (transactions db)).
Proof.
  unfold GameAdminService.cleanupOldRounds, try_catch. rewrite bind_gets.
  fold (declaredRounds db). unfold roundsToDelete.
  case_decide as Hcount; [done|].
  replace (length (declaredRounds db) - 500)%nat with 0%nat by lia.
  rewrite take_0. simpl.
  rewrite !map_filter_id; [by destruct db|intros ? ? _; apply not_elem_of_nil..].
Qed.

Lemma declaredRounds_elem (db : DB) (id : string) (round : GameRound.t) :
  (id, round) ∈ declaredRounds db
  ↔ gameRounds db !! id = Some round
    ∧ GameRound.resultStatus round = ResultStatus.DECLARED.
Proof.
  unfold declaredRounds. rewrite list_elem_of_filter, elem_of_map_to_list.
  simpl. tauto.
Qed.

Lemma declaredRounds_NoDup (db : DB) : NoDup (declaredRounds db).*1.
Proof.
  unfold declaredRounds.
  pose proof (NoDup_fst_map_to_list (gameRounds db)) as Hnd.
  induction (map_to_list (gameRounds db)) as [|x l IH]; [constructor|].
  apply NoDup_cons in Hnd as [Hx Hnd]. rewrite filter_cons.
  case_decide; [|by apply IH]. csimpl. apply NoDup_cons. split; [|by apply IH].
  intros Hin. apply Hx. apply list_elem_of_fmap in Hin as [y [-> Hy]].
  apply list_elem_of_filter in Hy as [_ Hy]. by apply list_elem_of_fmap_2.
Qed.

(** The declared rounds split into the deleted ones and the kept ones, the
    deleted ones not declared after any kept one. *)
Lemma declaredRounds_split (db : DB) :
  ∃ old kept,
    declaredRounds db ≡ₚ old ++ kept
    ∧ roundsToDelete db = old.*1
    ∧ length kept = min (length (declaredRounds db)) 500
    ∧ ∀ x y, x ∈ old → y ∈ kept → GameAdminService.declaredAt_le x y.
Proof.
  set (sorted := merge_sort GameAdminService.declaredAt_le (declaredRounds db)).
  set (k := (length (declaredRounds db) - 500)%nat).
  exists (take k sorted), (drop k sorted).
  assert (sorted ≡ₚ declaredRounds db) as Hperm by apply merge_sort_Permutation.
  split; [by rewrite take_drop|]. split; [done|]. split.
  - rewrite length_drop, Hperm. lia.
  - intros x y Hx Hy.
    apply (StronglySorted_app_1_elem_of GameAdminService.declaredAt_le
             (take k sorted) (drop k sorted)); [|done..].
    rewrite take_drop. apply (StronglySorted_merge_sort _).
Qed.

Lemma declaredRounds_kept (db : DB) :
  ∃ old kept,
    roundsToDelete db = old.*1
    ∧ length kept = min (length (declaredRounds db)) 500
    ∧ NoDup kept
    ∧ (∀ x y, x ∈ old → y ∈ kept → GameAdminService.declaredAt_le x y)
    ∧ (∀ id round, (id, round) ∈ old →
         gameRounds db !! id = Some round
         ∧ GameRound.resultStatus round = ResultStatus.DECLARED)
    ∧ (∀ id round, (id, round) ∈ kept
         ↔ gameRounds db !! id = Some round
           ∧ GameRound.resultStatus round = ResultStatus.DECLARED
           ∧ id ∉ roundsToDelete db).
Proof.
  destruct (declaredRounds_split db) as (old & kept & Hperm & Hids & Hlen & Hsorted).
  pose proof (declaredRounds_NoDup db) as Hnd. rewrite Hperm, fmap_app in Hnd.
  apply NoDup_app in Hnd as (_ & Hdisjoint & Hkept).
  assert (∀ id round, (id, round) ∈ old ++ kept
                      ↔ gameRounds db !! id = Some round
                        ∧ GameRound.resultStatus round = ResultStatus.DECLARED)
    as Helem.
  { intros id round. by rewrite <- Hperm, declaredRounds_elem. }
  exists old, kept. split_and!; try done.
  - by apply NoDup_fmap_1 in Hkept.
  - intros id round Hin. apply Helem, elem_of_app. by left.
  - intros id round. split.
    + intros Hin. destruct (proj1 (Helem id round)) as [Hround Hdeclared].
      { apply elem_of_app. by right. }
      split_and!; try done.
      rewrite Hids. intros Hin'. apply (Hdisjoint id Hin').
      by apply (list_elem_of_fmap_2 fst _ (id, round)).
    + intros (Hround & Hdeclared & Hnot).
      pose proof (proj2 (Helem id round) (conj Hround Hdeclared)) as Hin.
      apply elem_of_app in Hin as [Hin|Hin]; [|done].
      destruct Hnot. rewrite Hids. by apply (list_elem_of_fmap_2 fst _ (id, round)).
Qed.

(** X12.  [cleanupOldRounds] never throws and keeps the latest 500 declared
    rounds: afterwards the declared rounds number the minimum of 500 and
    their number before; no round appears or changes; every round that is
    not declared stays; every removed round was declared no later than every
    declared round that stays; wallets and transaction log are untouched. *)
Theorem cleanupOldRounds_keeps_latest (db : DB) :
  ∃ db',
    GameAdminService.cleanupOldRounds db = (Return (), db')
    ∧ length (declaredRounds db') = min (length (declaredRounds db)) 500
    ∧ gameRounds db' ⊆ gameRounds db
    ∧ (∀ id round, gameRounds db !! id = Some round →
         GameRound.resultStatus round ≠ ResultStatus.DECLARED →
         gameRounds db' !! id = Some round)
    ∧ (∀ id round id' round',
         gameRounds db !! id = Some round → gameRounds db' !! id = None →
         gameRounds db' !! id' = Some round' →
         GameRound.resultStatus round' = ResultStatus.DECLARED →
         GameAdminService.declaredAt_le (id, round) (id', round'))
    ∧ wallets db' = wallets db
    ∧ transactions db' = transactions db.
Proof.
  eexists. split; [apply cleanupOldRounds_Return|].
  destruct (declaredRounds_kept db)
    as (old & kept & Hids & Hlen & Hnd & Hsorted & Hold & Hkept).
  set (db' := mkDB _ _ _ _).
  assert (∀ id round, gameRounds db' !! id = Some round
                      ↔ gameRounds db !! id = Some round ∧ id ∉ roundsToDelete db)
    as Hrounds.
  { intros id round. simpl. by rewrite map_lookup_filter_Some. }
  split.
  { rewrite <- Hlen. apply Permutation_length, NoDup_Permutation; [|done|].
    - eapply NoDup_fmap_1, declaredRounds_NoDup.
    - intros [id round]. rewrite declaredRounds_elem, Hrounds, Hkept. tauto. }
  split; [apply map_filter_subseteq|].
  split.
  { intros id round Hround Hundeclared. apply Hrounds. split; [done|].
    rewrite Hids. intros Hin. apply list_elem_of_fmap in Hin as [[id' round'] [Heq Hin]].
    simpl in Heq. subst id'. destruct (Hold _ _ Hin). congruence. }
  split; [|done].
  intros id round id' round' Hround Hgone Hstays Hdeclared.
  apply Hsorted.
  - destruct (decide (id ∈ roundsToDelete db)) as [Hin|Hnot].
    + rewrite Hids in Hin. apply list_elem_of_fmap in Hin as [[id0 round0] [Heq Hin]].
      simpl in Heq. subst id0. destruct (Hold _ _ Hin). congruence.
    + assert (gameRounds db' !! id = Some round) by by apply Hrounds. congruence.
  - apply Hkept. apply Hrounds in Hstays. tauto.
Qed.

(** X13.  [cleanupOldRounds] removes the bets of the rounds it removes and no
    others: a bet is in the store afterwards exactly when it was there
    before and its round, if it had one, is still there.  So when every bet
    referred to a round before, every bet does afterwards. *)
Theorem cleanupOldRounds_cascade (db : DB) :
  ∃ db',
    GameAdminService.cleanupOldRounds db = (Return (), db')
    ∧ (∀ id bet, bets db' !! id = Some bet
         ↔ bets db !! id = Some bet
           ∧ (is_Some (gameRounds db !! Bet.gameRoundId bet) →
              is_Some (gameRounds db' !! Bet.gameRoundId bet)))
    ∧ ((∀ id bet, bets db !! id = Some bet →
          is_Some (gameRounds db !! Bet.gameRoundId bet)) →
       ∀ id bet, bets db' !! id = Some bet →
         is_Some (gameRounds db' !! Bet.gameRoundId bet)).
Proof.
  eexists. split; [apply cleanupOldRounds_Return|].
  destruct (declaredRounds_kept db)
    as (old & kept & Hids & _ & _ & _ & Hold & _).
  set (db' := mkDB _ _ _ _).
  assert (∀ r, r ∉ roundsToDelete db
               ↔ (is_Some (gameRounds db !! r) → is_Some (gameRounds db' !! r)))
    as Hkeeps.
  { intros r. simpl. split.
    - intros Hnot [round Hround]. exists round. by apply map_lookup_filter_Some.
    - intros Hkeep Hin.
      assert (is_Some (gameRounds db !! r)) as Hsome.
      { rewrite Hids in Hin.
        apply list_elem_of_fmap in Hin as [[r' round] [Heq Hin]]. simpl in Heq.
        subst r'. exists round. by apply Hold. }
      destruct (Hkeep Hsome) as [round Hround].
      apply map_lookup_filter_Some in Hround as [_ Hnot]. by apply Hnot. }
  assert (∀ id bet, bets db' !! id = Some bet
                    ↔ bets db !! id = Some bet
                      ∧ (is_Some (gameRounds db !! Bet.gameRoundId bet) →
                         is_Some (gameRounds db' !! Bet.gameRoundId bet))) as Hbets.
  { intros id bet. rewrite <- Hkeeps. simpl. by rewrite map_lookup_filter_Some. }
  split; [exact Hbets|].
  intros Hrefs id bet Hbet. apply Hbets in Hbet as [Hbet Hkeep].
  by eapply Hkeep, Hrefs.
Qed.

(** ** Outcomes of settlement *)

Lemma for_of_ext {A : Type} (l : list A) (body body' : A → Async unit) (db : DB) :
  (∀ x db, x ∈ l → body x db = body' x db) → for_of l body db = for_of l body' db.
Proof.
  revert db. induction l as [|x l IH]; intros db Hext; [done|]. simpl.
  unfold mbind, Async_bind. rewrite (Hext x db) by apply list_elem_of_here.
  destruct (body' x db) as [[[]|e] db']; [|done].
  apply IH. intros y db'' Hy. apply Hext. by apply list_elem_of_further.
Qed.

Lemma for_of_app {A : Type} (l1 l2 : list A) (body : A → Async unit) (db : DB) :
  for_of (l1 ++ l2) body db = (for_of l1 body;; for_of l2 body) db.
Proof.
  revert db. induction l1 as [|x l1 IH]; intros db; [done|]. simpl.
  unfold mbind, Async_bind in *. destruct (body x db) as [[[]|e] db']; [|done].
  apply IH.
Qed.

(** X14.  The two settlement loops agree.  With the colour and the size derived
    from the winning digit, [processBets] of the bet service and
    [processBetsWithResult] of the admin service leave the same store and
    the same completion, on every store: the reduced payout of the latter is
    never applied. *)
Theorem processBets_processBetsWithResult (roundId : string) (winningNumber : Digit)
    (db : DB) :
  BetService.processBets roundId winningNumber (NUMBER_COLORS winningNumber)
    (NUMBER_SIZES winningNumber) db
  = GameAdminService.processBetsWithResult roundId winningNumber
      (NUMBER_COLORS winningNumber) (NUMBER_SIZES winningNumber) db.
Proof.
  unfold BetService.processBets, GameAdminService.processBetsWithResult.
  rewrite !bind_gets. apply for_of_ext. intros [id bet] db' _.
  by rewrite evaluateBetWithResult_derived.
Qed.

Lemma settlementUnit_outcome (id : string) (bet : Bet.t) (isWin : bool)
    (winAmount : Qc) (db : DB) :
  settlementUnit id bet isWin winAmount db
  = if decide (is_Some (bets db !! id)
               ∧ (isWin = true → is_Some (wallets db !! Bet.userId bet)))
    then (Return (), applyEffect (settlementEffect id bet isWin winAmount) (id, bet) db)
    else (Throw P2025, db).
Proof.
  case_decide as Hrows.
  - apply settlementUnit_effect. destruct Hrows as [Hrow Hwallet].
    split; simpl; [done|]. destruct isWin; [auto|]. by intros [? ?].
  - unfold settlementUnit, transaction.
    destruct (bets db !! id) as [row|] eqn:Hrow.
    + rewrite (bind_Return _ _ _ _ _ (bet_update_Some _ _ _ _ Hrow)).
      destruct isWin; [|destruct Hrows; split; [by eexists|done]].
      destruct (wallets db !! Bet.userId bet) as [balance|] eqn:Hbalance.
      { destruct Hrows. split; by eexists. }
      erewrite bind_Throw; [done|]. apply wallet_increment_None. exact Hbalance.
    + by rewrite (bind_Throw _ _ _ _ _ (bet_update_None _ _ _ Hrow)).
Qed.

(** X15.  The settlement unit of one bet is all or nothing.  It returns exactly
    when the bet row exists and, for a winning bet, the owner has a wallet,
    and then updates the row, pays and logs together.  Otherwise it throws
    the record-not-found error and leaves the store as it found it: no bet
    is marked [WON] without being paid. *)
Theorem settlementUnit_all_or_nothing (id : string) (bet : Bet.t) (isWin : bool)
    (winAmount : Qc) (db : DB) :
  match settlementUnit id bet isWin winAmount db with
  | (Return _, db') =>
      is_Some (bets db !! id)
      ∧ (isWin = true → is_Some (wallets db !! Bet.userId bet))
      ∧ db' = applyEffect (settlementEffect id bet isWin winAmount) (id, bet) db
  | (Throw message, db') =>
      message = P2025
      ∧ db' = db
      ∧ (bets db !! id = None
         ∨ (isWin = true ∧ wallets db !! Bet.userId bet = None))
  end.
Proof.
  rewrite settlementUnit_outcome. case_decide as Hrows; [tauto|].
  split_and!; try done.
  destruct (bets db !! id) as [row|]; [|by left]. right.
  destruct isWin.
  - split; [done|]. destruct (wallets db !! Bet.userId bet) eqn:E; [|done].
    destruct Hrows. split; by eexists.
  - destruct Hrows. split; [by eexists|done].
Qed.

Lemma wonTransactions_amount (evaluate : Bet.t → bool * Qc) (l : list (string * Bet.t)) :
  Transaction.amount <$> wonTransactions evaluate l
  = (λ x, (evaluate x.2).2) <$> winners evaluate l.
Proof. unfold wonTransactions. rewrite <- list_fmap_compose. done. Qed.

Lemma winners_sum (evaluate : Bet.t → bool * Qc) (l : list (string * Bet.t)) :
  sumQc ((λ x, (evaluate x.2).2) <$> winners evaluate l)
  = sumQc ((λ x, if (evaluate x.2).1 then (evaluate x.2).2 else 0) <$> l).
Proof.
  unfold winners. induction l as [|x l IH]; [done|].
  rewrite filter_cons, fmap_cons, sumQc_cons.
  destruct ((evaluate x.2).1) eqn:Hwin.
  - rewrite decide_True by done. by rewrite fmap_cons, sumQc_cons, IH.
  - rewrite decide_False by done. rewrite IH. ring.
Qed.

(** X16.  A settlement pass, in full.  When every winner has a wallet the pass
    returns; rounds are untouched; every bet of the round carries [WON] or
    [LOST], whatever its result was before, and every other bet is
    untouched; every wallet has grown by its owner's wins; one [BET_WON]
    record per winning bet is appended; and the amounts of these records add
    up to the win amounts of the round's bets. *)
Theorem processBetsWithResult_settles (roundId : string) (winningNumber : Digit)
    (winningColor : Color) (winningSize : Size) (db : DB) :
  Forall (λ x, is_Some (wallets db !! Bet.userId x.2))
    (winners (evaluateBetWithResult winningNumber winningColor winningSize)
       (prisma.bet_findMany roundId db)) →
  ∃ db',
    GameAdminService.processBetsWithResult roundId winningNumber winningColor
      winningSize db = (Return (), db')
    ∧ gameRounds db' = gameRounds db
    ∧ (∀ id, bets db' !! id
         = settledRow (evaluateBetWithResult winningNumber winningColor winningSize)
             roundId <$> bets db !! id)
    ∧ Forall (λ x, Bet.result x.2 = BetResult.WON ∨ Bet.result x.2 = BetResult.LOST)
        (prisma.bet_findMany roundId db')
    ∧ (∀ userId, wallets db' !! userId
         = (λ balance, balance
              + wonBy (evaluateBetWithResult winningNumber winningColor winningSize)
                  userId (prisma.bet_findMany roundId db))
             <$> wallets db !! userId)
    ∧ transactions db'
      = transactions db
        ++ wonTransactions (evaluateBetWithResult winningNumber winningColor winningSize)
             (prisma.bet_findMany roundId db)
    ∧ sumQc (Transaction.amount
               <$> wonTransactions
                     (evaluateBetWithResult winningNumber winningColor winningSize)
                     (prisma.bet_findMany roundId db))
      = totalWinAmount (prisma.bet_findMany roundId db').
Proof.
  set (evaluate := evaluateBetWithResult winningNumber winningColor winningSize).
  intros Hwallets. rewrite Forall_forall in Hwallets.
  destruct (settlementLoop_round evaluate roundId db Hwallets)
    as (db' & Hrun & Hrounds & Hrows & Hpaid & Hlog).
  exists db'. split_and!; try done.
  - intros id. by rewrite Hrows, lookup_fmap.
  - apply Forall_forall. intros [id bet] Hin.
    apply bet_findMany_elem in Hin as [Hbet Hround].
    rewrite Hrows, lookup_fmap in Hbet.
    destruct (bets db !! id) as [row|]; [|done]. injection Hbet as <-.
    rewrite settledRow_gameRoundId in Hround.
    unfold settledRow. rewrite decide_True by done. simpl.
    destruct ((evaluate row).1); auto.
  - rewrite wonTransactions_amount, winners_sum. unfold totalWinAmount.
    rewrite (bet_findMany_fmap roundId db db' (settledRow evaluate roundId))
      by (done || apply settledRow_gameRoundId).
    rewrite <- list_fmap_compose. f_equal.
    apply list_fmap_ext. intros i [id bet] Hin.
    apply list_elem_of_lookup_2, bet_findMany_elem in Hin as [_ Hround].
    unfold settledRow. simpl. rewrite decide_True by done. simpl.
    by destruct ((evaluate bet).1).
Qed.

(** X17.  A settlement pass stops at the first winning bet whose owner has no
    wallet.  It throws the record-not-found error; the bets before it, in
    the order of the query, are settled and paid; the failing bet and the
    bets after it are as they were. *)
Theorem processBetsWithResult_stops_at_missing_wallet (roundId : string)
    (winningNumber : Digit) (winningColor : Color) (winningSize : Size) (db : DB)
    (before after : list (string * Bet.t)) (x : string * Bet.t) :
  prisma.bet_findMany roundId db = before ++ x :: after →
  Forall (λ y, is_Some (wallets db !! Bet.userId y.2))
    (winners (evaluateBetWithResult winningNumber winningColor winningSize) before) →
  (evaluateBetWithResult winningNumber winningColor winningSize x.2).1 = true →
  wallets db !! Bet.userId x.2 = None →
  ∃ db',
    GameAdminService.processBetsWithResult roundId winningNumber winningColor
      winningSize db = (Throw P2025, db')
    ∧ db' = runEffects
              (settlementEffectOf
                 (evaluateBetWithResult winningNumber winningColor winningSize))
              before db
    ∧ Forall (λ y, bets db' !! y.1
                   = Some (settledRow
                             (evaluateBetWithResult winningNumber winningColor winningSize)
                             roundId y.2)) before
    ∧ Forall (λ y, bets db' !! y.1 = Some y.2) (x :: after).
Proof.
  set (evaluate := evaluateBetWithResult winningNumber winningColor winningSize).
  intros Hbets Hwallets Hwin Hmissing.
  pose proof (bet_findMany_NoDup roundId db) as Hnd. rewrite Hbets in Hnd.
  assert (∀ y, y ∈ before ++ x :: after →
               bets db !! y.1 = Some y.2 ∧ Bet.gameRoundId y.2 = roundId) as Hrows.
  { intros [id bet] Hin. rewrite <- Hbets in Hin. by apply bet_findMany_elem in Hin. }
  set (db1 := runEffects (settlementEffectOf evaluate) before db).
  assert (settlementLoop evaluate before db = (Return (), db1)) as Hbefore.
  { apply settlementLoop_runEffects. apply Forall_forall. intros [id bet] Hin.
    split; simpl.
    - intros _. destruct (Hrows (id, bet)) as [Hrow _]; [apply elem_of_app; by left|].
      by eexists.
    - destruct ((evaluate bet).1) eqn:Hw; [|by intros [? ?]].
      intros _. rewrite Forall_forall in Hwallets.
      apply (Hwallets (id, bet)). by apply list_elem_of_filter. }
  assert (∀ id, bets db1 !! id
                = match (list_to_map before : gmap string Bet.t) !! id with
                  | Some bet => rowAfter (settlementEffectOf evaluate (id, bet))
                                  <$> bets db !! id
                  | None => bets db !! id
                  end) as Hbets1.
  { intros id. apply runEffects_bets.
    rewrite fmap_app in Hnd. by apply NoDup_app in Hnd as [? _]. }
  exists db1. split_and!; try done.
  - rewrite processBetsWithResult_loop, Hbets.
    unfold settlementLoop in *. rewrite for_of_app.
    rewrite (bind_Return _ _ _ _ _ Hbefore). destruct x as [id bet]. simpl in *.
    fold evaluate. destruct (evaluate bet) as [isWin winAmount] eqn:Hev.
    simpl in Hwin. subst isWin.
    erewrite bind_Throw; [done|].
    rewrite settlementUnit_outcome, decide_False; [done|].
    intros [_ Hw]. specialize (Hw eq_refl). unfold db1 in Hw.
    rewrite runEffects_wallets, Hmissing in Hw. by destruct Hw.
  - apply Forall_forall. intros [id bet] Hin. simpl.
    destruct (Hrows (id, bet)) as [Hrow Hround]; [apply elem_of_app; by left|].
    simpl in *. rewrite Hbets1, Hrow.
    rewrite (elem_of_list_to_map_1 before id bet); [|
      rewrite fmap_app in Hnd; by apply NoDup_app in Hnd as [? _] | done].
    simpl. unfold rowAfter, settledRow. simpl. by rewrite decide_True.
  - apply Forall_forall. intros [id bet] Hin. simpl.
    destruct (Hrows (id, bet)) as [Hrow Hround]; [apply elem_of_app; by right|].
    simpl in *. rewrite Hbets1, Hrow.
    rewrite (not_elem_of_list_to_map_1 before id); [done|].
    rewrite fmap_app in Hnd. apply NoDup_app in Hnd as (_ & Hdisjoint & _).
    intros Hid. apply (Hdisjoint id Hid).
    by apply (list_elem_of_fmap_2 fst _ (id, bet)).
Qed.

(** ** Declarations, end to end *)

Lemma validateAdminResult_valid (this : ProfitEngineService)
    (gameRoundId winningOption : string) (number : Digit) (db : DB) :
  targetNumberOf winningOption = Some number →
  acceptableOn this gameRoundId number db →
  ∃ validation,
    validateAdminResult this gameRoundId winningOption db = (Return validation, db)
    ∧ valid validation = true.
Proof.
  intros Htarget Hacc. unfold validateAdminResult, acceptableOn in *.
  rewrite bind_gets.
  destruct (calculateAllResultsLiability this gameRoundId db) as [calc|] eqn:Hcalc;
    [|by eexists].
  rewrite Htarget.
  rewrite (calculateLiability_find this _ _ _ number Hcalc).
  set (c := candidateFor _ _ _ number).
  assert (Candidate.isAcceptable c = true) as ->.
  { rewrite Forall_forall in Hacc. apply Hacc; [|reflexivity].
    rewrite (calculateLiability_results this _ _ _ Hcalc).
    subst c. apply list_elem_of_fmap_2. clear. destruct number; by_evaluation. }
  cbn [negb]. destruct (Candidate.isProfitable c); cbn [negb]; by eexists.
Qed.

(** X10.  A declaration by the admin, end to end.  On a round that is neither
    declared nor cancelled, with an option that names the digit [number],
    whose candidate is within the loss limit, in doubles as in the exact
    calculation, and with wallets for the winners, [declareResult] returns.
    The round is then [RESULT_DECLARED] and [DECLARED] on that digit with its
    derived colour and size, by [ADMIN], at the given time; every bet of the
    round carries [WON] or [LOST] and the win amount of its evaluation, its
    other columns as they were; every wallet has grown by its owner's wins;
    one [BET_WON] record per winning bet is appended; and the clean-up of
    old rounds has run on the result. *)
Theorem declareResult_declares (now : Z) (gameRoundId winningOption adminId : string)
    (db : DB) (round : GameRound.t) (number : Digit) :
  gameRounds db !! gameRoundId = Some round →
  GameRound.resultStatus round = ResultStatus.PENDING →
  GameRound.status round ≠ RoundStatus.CANCELLED →
  targetNumberOf winningOption = Some number →
  acceptableOn profitEngine gameRoundId number db →
  decidedAlike profitEngine gameRoundId db →
  Forall (λ x, is_Some (wallets db !! Bet.userId x.2))
    (winners (evaluateBetWithResult number (NUMBER_COLORS number) (NUMBER_SIZES number))
       (prisma.bet_findMany gameRoundId db)) →
  ∃ reply round' db2 db',
    GameAdminService.declareResult now gameRoundId winningOption adminId db
    = (Return reply, db')
    ∧ GameAdminService.cleanupOldRounds db2 = (Return (), db')
    ∧ GameAdminService.winningNumber reply = number
    ∧ GameAdminService.winningColor reply = NUMBER_COLORS number
    ∧ GameAdminService.winningSize reply = NUMBER_SIZES number
    ∧ gameRounds db2 = <[gameRoundId := round']> (gameRounds db)
    ∧ GameRound.status round' = RoundStatus.RESULT_DECLARED
    ∧ GameRound.resultStatus round' = ResultStatus.DECLARED
    ∧ GameRound.number round' = Some number
    ∧ GameRound.winningColor round' = Some (NUMBER_COLORS number)
    ∧ GameRound.winningSize round' = Some (NUMBER_SIZES number)
    ∧ GameRound.resultDeclaredBy round' = Some ResultDeclaredBy.ADMIN
    ∧ GameRound.declaredByAdminId round' = Some adminId
    ∧ GameRound.declaredAt round' = Some now
    ∧ bets db2
      = settledRow (evaluateBetWithResult number (NUMBER_COLORS number)
                      (NUMBER_SIZES number)) gameRoundId <$> bets db
    ∧ Forall (λ x, ∃ row,
                bets db2 !! x.1 = Some row
                ∧ settledFrom
                    (evaluateBetWithResult number (NUMBER_COLORS number)
                       (NUMBER_SIZES number)) x.2 row)
        (prisma.bet_findMany gameRoundId db)
    ∧ (∀ userId, wallets db' !! userId
         = (λ balance, balance
              + wonBy (evaluateBetWithResult number (NUMBER_COLORS number)
                         (NUMBER_SIZES number)) userId
                  (prisma.bet_findMany gameRoundId db))
             <$> wallets db !! userId)
    ∧ transactions db'
      = transactions db
        ++ wonTransactions (evaluateBetWithResult number (NUMBER_COLORS number)
                              (NUMBER_SIZES number))
             (prisma.bet_findMany gameRoundId db).
Proof.
  intros Hround Hpending Hstatus Htarget Hacc _ Hwallets.
  set (evaluate := evaluateBetWithResult number (NUMBER_COLORS number) (NUMBER_SIZES number)).
  destruct (validateAdminResult_valid profitEngine gameRoundId winningOption number db
              Htarget Hacc) as (validation & Hvalidation & Hvalid).
  set (calculation := calculateAllResultsLiability profitEngine gameRoundId db).
  set (selectedResult :=
         calculation ≫= λ c,
           Array_find (λ r, bool_decide (Candidate.number r = number))
             (Calculation.results c)).
  set (round' := GameAdminService.declaredByAdmin now adminId number
                   (NUMBER_COLORS number) (NUMBER_SIZES number) calculation
                   selectedResult round).
  set (db1 := set_gameRounds (insert gameRoundId round') db).
  destruct (settlementLoop_round evaluate gameRoundId db1)
    as (db2 & Hrun & Hrounds & Hrows & Hpaid & Hlog).
  { rewrite Forall_forall in Hwallets. exact Hwallets. }
  eexists _, round', db2, _. split.
  { unfold GameAdminService.declareResult.
    rewrite bind_gets. unfold prisma.gameRound_findUnique. rewrite Hround, Hpending.
    rewrite !decide_False by done.
    rewrite (bind_Return _ _ _ _ _ Hvalidation), Hvalid. simpl.
    rewrite parseWinningOption_targetNumberOf, Htarget. simpl.
    rewrite bind_gets.
    rewrite (bind_Return _ _ _ _ _ (gameRound_update_Some _ _ _ _ Hround)).
    fold calculation selectedResult round' db1.
    assert (GameAdminService.processBetsWithResult gameRoundId number
              (NUMBER_COLORS number) (NUMBER_SIZES number) db1 = (Return (), db2))
      as Hsettled by exact Hrun.
    rewrite (bind_Return _ _ _ _ _ Hsettled).
    rewrite (bind_Return _ _ _ _ _ (cleanupOldRounds_Return db2)).
    reflexivity. }
  split; [apply cleanupOldRounds_Return|].
  split_and!; try done.
  apply Forall_forall. intros [id bet] Hin.
  apply bet_findMany_elem in Hin as [Hbet Hthis].
  exists (settledRow evaluate gameRoundId bet). simpl. split.
  - rewrite Hrows, lookup_fmap. simpl. by rewrite Hbet.
  - unfold settledRow. rewrite decide_True by done.
    by unfold settledFrom, sameBet.
Qed.

Lemma calculateOptimalResult_store (this : ProfitEngineService)
    (random_digit random_index random : Qc) (gameRoundId : string) (db : DB) :
  (calculateOptimalResult this random_digit random_index random gameRoundId db).2 = db.
Proof.
  unfold calculateOptimalResult. rewrite bind_gets.
  destruct (calculateAllResultsLiability this gameRoundId db); [|done].
  by destruct (selected _).
Qed.


(** ** The weighted selection on a ranking *)

Lemma Qcinv_pos (x : Qc) : 0 < x → 0 < / x.
Proof.
  intros Hx. unfold Qclt in *.
  change (this 0) with 0%Q in *. cbn [Qcinv this Q2Qc].
  rewrite Qred_correct. by apply Qinv_lt_0_compat.
Qed.

Lemma dec_100_pos : 0 < dec 100 1.
Proof. by_evaluation. Qed.

(** The profit percentage grows with the profit. *)
Lemma profitPercent_mono (total p q : Qc) :
  p ≤ q →
  (if decide (0 < total) then (p / total) * dec 100 1 else 0)
  ≤ (if decide (0 < total) then (q / total) * dec 100 1 else 0).
Proof.
  intros Hpq. case_decide as Htotal; [|apply Qcle_refl].
  apply Qcmult_le_compat_r; [|apply Qclt_le_weak, dec_100_pos].
  unfold Qcdiv. apply Qcmult_le_compat_r; [done|].
  by apply Qclt_le_weak, Qcinv_pos.
Qed.

Section SelectionFacts.
Context (this : ProfitEngineService).

(** A candidate with at least the profit of an acceptable (profitable)
    candidate of the same round is acceptable (profitable). *)
Lemma candidateFor_flags_mono (bets : list Bet.t) (total : Qc) (a b : Digit) :
  Candidate.profit (candidateFor this bets total a)
  ≤ Candidate.profit (candidateFor this bets total b) →
  (Candidate.isAcceptable (candidateFor this bets total a) = true →
   Candidate.isAcceptable (candidateFor this bets total b) = true)
  ∧ (Candidate.isProfitable (candidateFor this bets total a) = true →
     Candidate.isProfitable (candidateFor this bets total b) = true).
Proof.
  cbn [candidateFor Candidate.profit Candidate.isAcceptable Candidate.isProfitable].
  set (pa := total - _). set (pb := total - _). intros Hle. split.
  - rewrite !bool_decide_eq_true. intros Ha. by eapply Qcle_trans.
  - rewrite !andb_true_iff, !bool_decide_eq_true. intros [H0 Hmin]. split.
    + by eapply Qcle_trans.
    + eapply Qcle_trans; [exact Hmin|]. by apply profitPercent_mono.
Qed.

(** The ranking of a round with bets: its head has the highest profit. *)
Lemma calculateLiability_top (gameRoundId : string) (bets : list Bet.t)
    (calc : Calculation.t) :
  calculateLiability this gameRoundId bets = Some calc →
  ∃ top rest,
    Calculation.results calc = top :: rest
    ∧ Forall (ranks_before Candidate.profit (Digit_toZ ∘ Candidate.number) top) rest
    ∧ ∀ c, c ∈ Calculation.results calc →
        c = candidateFor this bets (Calculation.totalCollection calc) (Candidate.number c).
Proof.
  intros Hcalc.
  pose proof (calculateLiability_results this _ _ _ Hcalc) as Hperm.
  assert (StronglySorted (ranks_before Candidate.profit (Digit_toZ ∘ Candidate.number))
            (Calculation.results calc)) as Hsorted.
  { unfold calculateLiability in Hcalc. case_decide; [done|].
    injection Hcalc as <-. cbn [Calculation.results].
    apply (Array_sort_ranked Candidate.profit (Digit_toZ ∘ Candidate.number)).
    apply candidates_index_sorted. }
  destruct (Calculation.results calc) as [|top rest] eqn:Hresults.
  { apply Permutation_length in Hperm. done. }
  exists top, rest. split; [done|]. split.
  - by apply StronglySorted_inv in Hsorted as [_ ?].
  - intros c Hc. rewrite Hperm in Hc.
    by apply list_elem_of_fmap in Hc as [n [-> _]].
Qed.

End SelectionFacts.

Lemma ranking_top_profit {A : Type} (score : A → Qc) (index : A → Z) (top : A)
    (rest : list A) :
  Forall (ranks_before score index top) rest →
  Forall (λ c, score c ≤ score top) (top :: rest).
Proof.
  intros Hrest. constructor; [apply Qcle_refl|].
  eapply Forall_impl; [exact Hrest|]. intros c. apply ranks_before_score.
Qed.

(** X19.  In the 70-percent branch the selection returns the best candidate.
    On the ranking of a round, the same in doubles as in the exact
    calculation, when some candidate is both acceptable and profitable, the
    branch returns the first candidate of the ranking, which is itself
    acceptable and profitable and whose profit no candidate exceeds. *)
Theorem selectWeightedResult_high_profit (this : ProfitEngineService)
    (random_index random : Qc) (gameRoundId : string) (db : DB) (calc : Calculation.t) :
  calculateAllResultsLiability this gameRoundId db = Some calc →
  decidedAlike this gameRoundId db →
  Exists (λ c, Candidate.isAcceptable c = true ∧ Candidate.isProfitable c = true)
    (Calculation.results calc) →
  random < HIGH_PROFIT_WEIGHT this →
  ∃ c,
    selectWeightedResult this calc random_index random
    = mkSelection (Some c) (Some "HIGH_PROFIT") (Some (Calculation.results calc))
    ∧ Calculation.results calc !! 0%nat = Some c
    ∧ Candidate.isAcceptable c = true
    ∧ Candidate.isProfitable c = true
    ∧ Forall (λ c', Candidate.profit c' ≤ Candidate.profit c) (Calculation.results calc).
Proof.
  intros Hcalc _ Hex Hrandom.
  destruct (calculateLiability_top this _ _ _ Hcalc)
    as (top & rest & Hresults & Htop & Hshape).
  pose proof (ranking_top_profit _ _ _ _ Htop) as Hmax. rewrite <- Hresults in Hmax.
  apply Exists_exists in Hex as (c0 & Hc0 & Hacc0 & Hprof0).
  assert (top ∈ Calculation.results calc) as Hin.
  { rewrite Hresults. apply list_elem_of_here. }
  assert (Candidate.isAcceptable top = true ∧ Candidate.isProfitable top = true)
    as [Hacc Hprof].
  { rewrite (Hshape top Hin). rewrite (Hshape c0 Hc0) in Hacc0, Hprof0.
    destruct (candidateFor_flags_mono this (prisma.bet_findMany gameRoundId db).*2
                (Calculation.totalCollection calc) (Candidate.number c0)
                (Candidate.number top)) as [Ha Hp]; [|by auto].
    rewrite <- (Hshape top Hin), <- (Hshape c0 Hc0).
    rewrite Forall_forall in Hmax. by apply Hmax. }
  exists top. split_and!; try done; [|by rewrite Hresults].
  unfold selectWeightedResult, Array_filter. rewrite Hresults.
  cbn [List.filter]. rewrite Hacc. cbn [List.filter]. rewrite Hprof.
  cbn [length]. rewrite decide_False by done.
  by rewrite decide_True.
Qed.


(** ** The house edge *)

Lemma evaluateBetWithResult_multiplierOn (bet : Bet.t) (number : Digit) :
  (evaluateBetWithResult number (NUMBER_COLORS number) (NUMBER_SIZES number) bet).2
  = Bet.amount bet * multiplierOn bet number.
Proof.
  rewrite evaluateBetWithResult_derived. unfold evaluateBet, multiplierOn.
  destruct (Bet.betType bet); repeat case_decide; simpl; ring.
Qed.

(** Over the ten digits the multipliers of a bet add up to less than ten:
    8.5 for a number, 7.8 or 9 for a colour, 9.75 for a size. *)
Lemma multiplierOn_total (bet : Bet.t) :
  sumQc (multiplierOn bet <$> all_digits) ≤ dec 10 1.
Proof.
  unfold multiplierOn. destruct (Bet.betType bet).
  - generalize (Bet.selection bet). intros s. unfold all_digits.
    rewrite !fmap_cons, fmap_nil. cbn [NUMBER_COLORS Color_name].
    destruct (decide (s = "VIOLET")) as [->|Hv]; [by_evaluation|].
    destruct (decide (s = "GREEN")) as [->|Hg]; [by_evaluation|].
    destruct (decide (s = "RED")) as [->|Hr]; [by_evaluation|].
    repeat (rewrite decide_False by tauto). by_evaluation.
  - generalize (parseInt (Bet.selection bet)). intros [z|]; [|by_evaluation].
    unfold all_digits. rewrite !fmap_cons, fmap_nil. cbn [Digit_toZ].
    do 10 (match goal with
           | |- context [decide (Some z = Some ?k)] =>
               destruct (decide (z = k)) as [->|?];
               [by_evaluation|rewrite (decide_False (P := Some z = Some k)) by congruence]
           end).
    by_evaluation.
  - generalize (Bet.selection bet). intros s. unfold all_digits.
    rewrite !fmap_cons, fmap_nil. cbn [NUMBER_SIZES Size_name].
    destruct (decide (s = "SMALL")) as [->|Hs]; [by_evaluation|].
    destruct (decide (s = "BIG")) as [->|Hb]; [by_evaluation|].
    by_evaluation.
Qed.

Lemma sumQc_fmap_le {A : Type} (f g : A → Qc) (l : list A) :
  Forall (λ x, f x ≤ g x) l → sumQc (f <$> l) ≤ sumQc (g <$> l).
Proof.
  induction 1 as [|x l Hx _ IH]; [apply Qcle_refl|].
  rewrite !fmap_cons, !sumQc_cons. by apply Qcplus_le_compat.
Qed.

Lemma sumQc_fmap_scale {A : Type} (a : Qc) (w : A → Qc) (l : list A) :
  sumQc ((λ x, a * w x) <$> l) = a * sumQc (w <$> l).
Proof.
  induction l as [|x l IH]; [unfold sumQc; simpl; ring|].
  rewrite !fmap_cons, !sumQc_cons, IH. ring.
Qed.

Lemma sumQc_fmap_plus {A : Type} (f g : A → Qc) (l : list A) :
  sumQc ((λ x, f x + g x) <$> l) = sumQc (f <$> l) + sumQc (g <$> l).
Proof.
  induction l as [|x l IH]; [unfold sumQc; simpl; ring|].
  rewrite !fmap_cons, !sumQc_cons, IH. ring.
Qed.

Lemma sumQc_fmap_swap {A B : Type} (f : A → B → Qc) (l : list A) (k : list B) :
  sumQc ((λ y, sumQc ((λ x, f x y) <$> l)) <$> k)
  = sumQc ((λ x, sumQc (f x <$> k)) <$> l).
Proof.
  induction l as [|x l IH].
  - simpl. induction k as [|y k IHk]; [done|].
    rewrite fmap_cons, sumQc_cons, IHk. unfold sumQc. simpl. ring.
  - rewrite fmap_cons, sumQc_cons, <- IH, <- sumQc_fmap_plus. reflexivity.
Qed.

(** Over the ten digits the liabilities of a round add up to at most ten
    times its collection, when no stake is negative. *)
Lemma liability_total (bets : list (string * Bet.t)) :
  Forall (λ x, 0 ≤ Bet.amount x.2) bets →
  sumQc ((λ number,
            sumQc ((λ x, (evaluateBetWithResult number (NUMBER_COLORS number)
                            (NUMBER_SIZES number) x.2).2) <$> bets))
           <$> all_digits)
  ≤ dec 10 1 * sumQc ((λ x, Bet.amount x.2) <$> bets).
Proof.
  intros Hstakes.
  rewrite (sumQc_fmap_swap
             (λ x number, (evaluateBetWithResult number (NUMBER_COLORS number)
                             (NUMBER_SIZES number) x.2).2)).
  rewrite <- (sumQc_fmap_scale (dec 10 1) (λ x : string * Bet.t, Bet.amount x.2) bets).
  apply sumQc_fmap_le.
  eapply Forall_impl; [exact Hstakes|]. intros x Hx. cbn beta.
  erewrite list_fmap_ext; [|intros _ d _; apply evaluateBetWithResult_multiplierOn].
  rewrite sumQc_fmap_scale, (Qcmult_comm (dec 10 1)), !(Qcmult_comm (Bet.amount x.2)).
  apply Qcmult_le_compat_r; [apply multiplierOn_total|done].
Qed.

Lemma ten_digits (f : Digit → Qc) :
  sumQc (f <$> all_digits)
  = f D0 + f D1 + f D2 + f D3 + f D4 + f D5 + f D6 + f D7 + f D8 + f D9.
Proof. unfold all_digits, sumQc. simpl. ring. Qed.

Lemma dec_10_ones : dec 10 1 = 1 + 1 + 1 + 1 + 1 + 1 + 1 + 1 + 1 + 1.
Proof. by_evaluation. Qed.

(** X21.  With stakes that are not negative the best candidate of a round
    never makes a loss: over the ten digits the payouts add up to less than
    ten times the collection.  Under the default limits the first candidate
    of the ranking is therefore acceptable, and the weighted selection never
    takes its unlabelled early return. *)
Theorem best_candidate_never_loses (gameRoundId : string) (db : DB) :
  prisma.bet_findMany gameRoundId db ≠ [] →
  Forall (λ x, 0 ≤ Bet.amount x.2) (prisma.bet_findMany gameRoundId db) →
  ∃ calc top,
    calculateAllResultsLiability profitEngine gameRoundId db = Some calc
    ∧ Calculation.results calc !! 0%nat = Some top
    ∧ 0 ≤ Candidate.profit top
    ∧ Candidate.isAcceptable top = true
    ∧ ∀ random_index random,
        is_Some (selectedRank (selectWeightedResult profitEngine calc random_index random)).
Proof.
  intros Hbets Hstakes.
  destruct (calculateAllResultsLiability_Some profitEngine gameRoundId db Hbets)
    as [calc Hcalc].
  destruct (calculateLiability_top profitEngine _ _ _ Hcalc)
    as (top & rest & Hresults & Htop & Hshape).
  pose proof (ranking_top_profit _ _ _ _ Htop) as Hmax. rewrite <- Hresults in Hmax.
  pose proof (calculateLiability_results profitEngine _ _ _ Hcalc) as Hperm.
  set (bets := prisma.bet_findMany gameRoundId db) in *.
  set (total := Calculation.totalCollection calc) in *.
  assert (total = sumQc ((λ x, Bet.amount x.2) <$> bets)) as Htotal.
  { unfold total. unfold calculateAllResultsLiability, calculateLiability in Hcalc.
    case_decide; [done|]. injection Hcalc as <-. cbn [Calculation.totalCollection].
    rewrite foldl_Qcplus, <- list_fmap_compose. apply Qcplus_0_l. }
  assert (∀ number, Candidate.profit (candidateFor profitEngine bets.*2 total number)
                    = total - sumQc ((λ x, (evaluateBetWithResult number
                                              (NUMBER_COLORS number)
                                              (NUMBER_SIZES number) x.2).2) <$> bets))
    as Hprofit.
  { intros number. cbn [Candidate.profit candidateFor]. fold noPayouts.
    by rewrite liability_sum. }
  assert (0 ≤ Candidate.profit top) as Hnonneg.
  { apply (Qcmult_lt_0_le_reg_r _ _ (dec 10 1)); [by_evaluation|].
    rewrite Qcmult_0_l.
    apply Qcle_trans
      with (sumQc ((λ number, Candidate.profit
                                (candidateFor profitEngine bets.*2 total number))
                     <$> all_digits)).
    - erewrite list_fmap_ext; [|intros _ number _; apply Hprofit].
      pose proof (liability_total bets Hstakes) as Hliability.
      rewrite <- Htotal in Hliability.
      apply Qcle_minus_iff in Hliability.
      rewrite ten_digits in *. rewrite dec_10_ones in Hliability.
      eapply Qcle_trans; [exact Hliability|]. apply Qcle_minus_iff.
      match goal with |- _ ≤ ?a + - ?b => replace (a + - b) with 0 by ring end.
      apply Qcle_refl.
    - rewrite dec_10_ones.
      replace (Candidate.profit top * (1 + 1 + 1 + 1 + 1 + 1 + 1 + 1 + 1 + 1))
        with (sumQc ((λ _, Candidate.profit top) <$> all_digits))
        by (rewrite ten_digits; ring).
      apply sumQc_fmap_le, Forall_forall. intros number _.
      rewrite Forall_forall in Hmax. apply Hmax. rewrite Hperm.
      apply list_elem_of_fmap_2. clear. destruct number; by_evaluation. }
  assert (Candidate.isAcceptable top = true) as Hacc.
  { rewrite (Hshape top) by (rewrite Hresults; apply list_elem_of_here).
    cbn [candidateFor Candidate.isAcceptable]. apply bool_decide_eq_true_2.
    eapply Qcle_trans; [|rewrite (Hshape top) in Hnonneg
                           by (rewrite Hresults; apply list_elem_of_here);
                          exact Hnonneg].
    by_evaluation. }
  exists calc, top. split_and!; try done; [by rewrite Hresults|].
  intros random_index random. unfold selectWeightedResult, Array_filter.
  rewrite Hresults. cbn [List.filter]. rewrite Hacc. cbn [length].
  rewrite decide_False by done.
  repeat case_decide; by eexists.
Qed.

(** ** Rounds without bets *)




(** ** Preview and risk dashboard *)

Section SortMapFacts.
Context {A B : Type} (f : A → B) (compareA : A → A → Qc) (compareB : B → B → Qc).

Lemma sort_insert_fmap (x : A) (l : list A) :
  (∀ y, y ∈ l → compareA x y = compareB (f x) (f y)) →
  f <$> sort_insert compareA x l = sort_insert compareB (f x) (f <$> l).
Proof.
  induction l as [|y l IH]; intros Hcmp; [done|]. simpl.
  rewrite <- (Hcmp y) by apply list_elem_of_here.
  case_decide; [done|]. csimpl. f_equal. apply IH.
  intros z Hz. apply Hcmp. by apply list_elem_of_further.
Qed.

Lemma Array_sort_fmap (l : list A) :
  (∀ x y, x ∈ l → y ∈ l → compareA x y = compareB (f x) (f y)) →
  f <$> Array_sort compareA l = Array_sort compareB (f <$> l).
Proof.
  induction l as [|x l IH]; intros Hcmp; [done|].
  change (Array_sort compareA (x :: l))
    with (sort_insert compareA x (Array_sort compareA l)).
  rewrite fmap_cons.
  change (Array_sort compareB (f x :: (f <$> l)))
    with (sort_insert compareB (f x) (Array_sort compareB (f <$> l))).
  rewrite <- IH.
  - apply sort_insert_fmap. intros y Hy. rewrite Array_sort_Permutation in Hy.
    apply Hcmp; [apply list_elem_of_here|by apply list_elem_of_further].
  - intros y z Hy Hz. apply Hcmp; by apply list_elem_of_further.
Qed.

End SortMapFacts.

Lemma analyseBet_payouts (number : Digit) (acc : RiskDashboardService.Tally)
    (x : string * Bet.t) :
  payoutsOf (RiskDashboardService.analyseBet number acc x)
  = addBetPayout number (payoutsOf acc) x.2.
Proof.
  destruct x as [id bet]. unfold RiskDashboardService.analyseBet, addBetPayout, payoutsOf.
  simpl. destruct (Bet.betType bet).
  - destruct number; simpl; repeat case_decide; simpl; try done;
      exfalso; intuition congruence.
  - by case_decide.
  - by case_decide.
Qed.

Lemma foldl_analyseBet_payouts (number : Digit) (bets : list (string * Bet.t))
    (acc : RiskDashboardService.Tally) :
  payoutsOf (foldl (RiskDashboardService.analyseBet number) acc bets)
  = foldl (addBetPayout number) (payoutsOf acc) bets.*2.
Proof.
  revert acc. induction bets as [|x bets IH]; intros acc; [done|].
  csimpl. by rewrite IH, analyseBet_payouts.
Qed.

Lemma analysisFor_agrees (this : ProfitEngineService) (bets : list (string * Bet.t))
    (total : Qc) (number : Digit) :
  agrees (RiskDashboardService.analysisFor bets total number)
    (candidateFor this bets.*2 total number).
Proof.
  unfold agrees, RiskDashboardService.analysisFor, candidateFor.
  cbn [RiskDashboardService.number RiskDashboardService.color
       RiskDashboardService.size RiskDashboardService.colorPayout
       RiskDashboardService.sizePayout RiskDashboardService.numberPayout
       RiskDashboardService.totalPayout RiskDashboardService.totalCollection
       RiskDashboardService.profit RiskDashboardService.profitPercent
       Candidate.number Candidate.color Candidate.size Candidate.colorPayout
       Candidate.sizePayout Candidate.numberPayout Candidate.totalLiability
       Candidate.totalCollection Candidate.profit Candidate.profitPercent].
  pose proof (foldl_analyseBet_payouts number bets
                (RiskDashboardService.mkTally 0 0 0 [])) as Hfold.
  change (payoutsOf (RiskDashboardService.mkTally 0 0 0 [])) with (mkPayouts 0 0 0)
    in Hfold.
  rewrite <- Hfold. unfold payoutsOf. simpl. done.
Qed.

Lemma calculateResultAnalysis_Forall2 (this : ProfitEngineService)
    (gameRoundId : string) (db : DB) (calc : Calculation.t) :
  calculateAllResultsLiability this gameRoundId db = Some calc →
  Forall2 agrees
    (RiskDashboardService.calculateResultAnalysis
       (prisma.bet_findMany gameRoundId db) (Calculation.totalCollection calc))
    (Calculation.results calc).
Proof.
  intros Hcalc.
  set (bets := prisma.bet_findMany gameRoundId db).
  set (total := Calculation.totalCollection calc).
  set (h := λ r, candidateFor this bets.*2 total (RiskDashboardService.number r)).
  assert (Calculation.results calc
          = h <$> RiskDashboardService.calculateResultAnalysis bets total) as ->.
  { unfold calculateAllResultsLiability, calculateLiability in Hcalc.
    case_decide; [done|]. injection Hcalc as <-.
    cbn [Calculation.results Calculation.totalCollection] in *.
    unfold RiskDashboardService.calculateResultAnalysis.
    rewrite (Array_sort_fmap h _ (λ a b, Candidate.profit b - Candidate.profit a)).
    - by rewrite <- list_fmap_compose.
    - intros x y Hx Hy.
      apply list_elem_of_fmap in Hx as [n [-> _]].
      apply list_elem_of_fmap in Hy as [m [-> _]].
      destruct (analysisFor_agrees this bets total n) as (_&_&_&_&_&_&_&_&Hn&_).
      destruct (analysisFor_agrees this bets total m) as (_&_&_&_&_&_&_&_&Hm&_).
      unfold h. cbn [RiskDashboardService.number RiskDashboardService.analysisFor].
      by rewrite Hn, Hm. }
  apply Forall2_fmap_r, Forall_Forall2_diag, Forall_forall. intros r Hr.
  unfold RiskDashboardService.calculateResultAnalysis in Hr.
  rewrite Array_sort_Permutation in Hr. apply list_elem_of_fmap in Hr as [n [-> _]].
  apply analysisFor_agrees.
Qed.

(** X24.  The risk dashboard and the liability calculator agree.  Given the
    bets of a round and its collection, [calculateResultAnalysis] returns
    the digits in the order of the calculator's ranking, each with the
    calculator's colour, size, three payouts, total payout, collection,
    profit and profit percentage: the dashboard's own reduced-payout case is
    never applied either. *)
Theorem calculateResultAnalysis_agrees (this : ProfitEngineService)
    (gameRoundId : string) (db : DB) (calc : Calculation.t) :
  calculateAllResultsLiability this gameRoundId db = Some calc →
  Forall2 agrees
    (RiskDashboardService.calculateResultAnalysis
       (prisma.bet_findMany gameRoundId db) (Calculation.totalCollection calc))
    (Calculation.results calc)
  ∧ RiskDashboardService.number
      <$> RiskDashboardService.calculateResultAnalysis
            (prisma.bet_findMany gameRoundId db) (Calculation.totalCollection calc)
    = Candidate.number <$> Calculation.results calc.
Proof.
  intros Hcalc.
  pose proof (calculateResultAnalysis_Forall2 this gameRoundId db calc Hcalc) as Hagrees.
  split; [exact Hagrees|].
  induction Hagrees as [|r c l k Hrc _ IH]; [done|].
  csimpl. rewrite IH. f_equal. by destruct Hrc as [? _].
Qed.






(** X23.  The preview recommends the most profitable digit.  On a round with
    bets [previewResultCalculation] returns, without touching the store, the
    sum of the stakes, the number of bets, one result per digit, and as
    recommendation the first of them, whose profit no result exceeds. *)
Theorem previewResultCalculation_recommends_top (gameRoundId : string) (db : DB) :
  prisma.bet_findMany gameRoundId db ≠ [] →
  ∃ totalCollection totalBets recommended allResults,
    GameAdminService.previewResultCalculation gameRoundId db
    = (Return (GameAdminService.PreviewOf totalCollection totalBets recommended
                 allResults), db)
    ∧ totalCollection = sumQc (Bet.amount <$> (prisma.bet_findMany gameRoundId db).*2)
    ∧ totalBets = length (prisma.bet_findMany gameRoundId db)
    ∧ GameAdminService.preview_number <$> allResults ≡ₚ all_digits
    ∧ GameAdminService.preview_number <$> head allResults
      = Some (GameAdminService.recommended_number recommended)
    ∧ Forall (λ r, GameAdminService.preview_profit r
                   ≤ GameAdminService.recommended_profit recommended) allResults.
Proof.
  intros Hbets.
  destruct (calculateAllResultsLiability_Some profitEngine gameRoundId db Hbets)
    as [calc Hcalc].
  destruct (calculateLiability_top profitEngine _ _ _ Hcalc)
    as (top & rest & Hresults & Htop & _).
  pose proof (calculateLiability_results profitEngine _ _ _ Hcalc) as Hperm.
  eexists _, _, _, _. split.
  { unfold GameAdminService.previewResultCalculation.
    by rewrite bind_gets, Hcalc, Hresults. }
  unfold calculateAllResultsLiability, calculateLiability in Hcalc.
  case_decide; [done|]. injection Hcalc as <-.
  cbn [Calculation.totalCollection Calculation.totalBets Calculation.results] in *.
  split_and!.
  - rewrite foldl_Qcplus. ring.
  - by rewrite length_fmap.
  - rewrite <- Hresults, <- list_fmap_compose.
    change (GameAdminService.preview_number ∘ _) with Candidate.number.
    by rewrite Hperm, candidateFor_number.
  - done.
  - rewrite Forall_fmap. apply (ranking_top_profit _ _ _ _ Htop).
Qed.

(** X26.  Preview and dashboard recommend alike: on a round with bets the
    recommendation of [getRecommendedResult] over the dashboard analysis has
    the digit, profit and profit percentage of the recommendation of
    [previewResultCalculation], and its three alternatives are the digits
    the preview lists next. *)
Theorem getRecommendedResult_previewResultCalculation (gameRoundId : string) (db : DB)
    (calc : Calculation.t) :
  calculateAllResultsLiability profitEngine gameRoundId db = Some calc →
  ∃ totalBets recommended allResults dashboard,
    GameAdminService.previewResultCalculation gameRoundId db
    = (Return (GameAdminService.PreviewOf (Calculation.totalCollection calc) totalBets
                 recommended allResults), db)
    ∧ RiskDashboardService.getRecommendedResult
        (RiskDashboardService.calculateResultAnalysis
           (prisma.bet_findMany gameRoundId db) (Calculation.totalCollection calc))
      = Return dashboard
    ∧ RiskDashboardService.recommendation_number
        (RiskDashboardService.recommended dashboard)
      = GameAdminService.recommended_number recommended
    ∧ RiskDashboardService.recommendation_profit
        (RiskDashboardService.recommended dashboard)
      = GameAdminService.recommended_profit recommended
    ∧ RiskDashboardService.recommendation_profitPercent
        (RiskDashboardService.recommended dashboard)
      = GameAdminService.recommended_profitPercent recommended
    ∧ RiskDashboardService.recommendation_number
        <$> RiskDashboardService.alternatives dashboard
      = GameAdminService.preview_number <$> take 3 (drop 1 allResults).
Proof.
  intros Hcalc.
  pose proof (calculateResultAnalysis_Forall2 profitEngine gameRoundId db calc Hcalc)
    as Hagrees.
  destruct (calculateLiability_top profitEngine _ _ _ Hcalc)
    as (top & rest & Hresults & _ & _).
  rewrite Hresults in Hagrees.
  destruct (RiskDashboardService.calculateResultAnalysis _ _) as [|best others]
    eqn:Hanalysis; [by apply Forall2_nil_cons_inv in Hagrees|].
  apply Forall2_cons in Hagrees as [Hbest Hothers].
  eexists _, _, _, _. split.
  { unfold GameAdminService.previewResultCalculation.
    by rewrite bind_gets, Hcalc, Hresults. }
  split; [reflexivity|].
  destruct Hbest as (Hn & _ & _ & _ & _ & _ & _ & _ & Hp & Hpp).
  split_and!; try done.
  simpl. rewrite !drop_0, <- !list_fmap_compose, !fmap_take.
  f_equal. clear -Hothers.
  induction Hothers as [|r c l k Hrc _ IH]; [done|].
  csimpl. rewrite IH. f_equal. by destruct Hrc as [? _].
Qed.

(** ** The minimum-bet strategy *)

Lemma addToNumberBets_evaluateBet (numberBets : Digit → Qc) (bet : Bet.t) (i : Digit) :
  GameService.addToNumberBets numberBets bet i
  = numberBets i
    + (if (evaluateBet i (NUMBER_COLORS i) (NUMBER_SIZES i) bet).1
       then Bet.amount bet else 0).
Proof.
  unfold GameService.addToNumberBets, evaluateBet.
  destruct (Bet.betType bet).
  - destruct i; simpl; repeat case_decide; simpl; try ring;
      exfalso; intuition congruence.
  - repeat case_decide; simpl; ring.
  - repeat case_decide; simpl; try ring; exfalso; intuition congruence.
Qed.

Lemma numberBets_stakeWinningOn (bets : list (string * Bet.t)) (acc : Digit → Qc)
    (i : Digit) :
  foldl GameService.addToNumberBets acc bets.*2 i = acc i + stakeWinningOn i bets.
Proof.
  unfold stakeWinningOn, winners. revert acc.
  induction bets as [|x bets IH]; intros acc.
  { unfold sumQc. simpl. ring. }
  csimpl. rewrite IH, addToNumberBets_evaluateBet, filter_cons.
  destruct ((evaluateBet i (NUMBER_COLORS i) (NUMBER_SIZES i) x.2).1) eqn:Hwin.
  - rewrite decide_True by done. rewrite fmap_cons, sumQc_cons. ring.
  - rewrite decide_False by done. ring.
Qed.

Lemma minimumStep_fold (numberBets : Digit → Qc) (l : list Digit) (m : Qc)
    (ws : list Digit) :
  ws ≠ [] → Forall (λ w, numberBets w = m) ws →
  ∃ m' ws',
    foldl (GameService.minimumStep numberBets) (Some m, ws) l = (Some m', ws')
    ∧ ws' ≠ []
    ∧ Forall (λ w, numberBets w = m') ws'
    ∧ m' ≤ m
    ∧ Forall (λ i, m' ≤ numberBets i) l.
Proof.
  revert m ws. induction l as [|i l IH]; intros m ws Hne Hws.
  { exists m, ws. split_and!; done. }
  simpl. destruct (decide (numberBets i < m)) as [Hlt|Hge].
  - rewrite bool_decide_eq_true_2 by done.
    destruct (IH (numberBets i) [i]) as (m' & ws' & Hfold & Hne' & Hws' & Hle & Hall);
      [done|by constructor|].
    exists m', ws'. split_and!; try done.
    + eapply Qcle_trans; [exact Hle|]. by apply Qclt_le_weak.
    + by constructor.
  - rewrite bool_decide_eq_false_2 by done. apply Qcnot_lt_le in Hge.
    destruct (decide (Some (numberBets i) = Some m)) as [Heq|Hne2].
    + injection Heq as Heq.
      destruct (IH m (ws ++ [i])) as (m' & ws' & Hfold & Hne' & Hws' & Hle & Hall).
      { by destruct ws. }
      { apply Forall_app. split; [done|]. by constructor. }
      exists m', ws'. split_and!; try done. constructor; [|done]. by rewrite Heq.
    + destruct (IH m ws Hne Hws) as (m' & ws' & Hfold & Hne' & Hws' & Hle & Hall).
      exists m', ws'. split_and!; try done. constructor; [|done].
      by eapply Qcle_trans.
Qed.

(** X27.  The minimum-bet strategy of the game service.  On a round with bets
    and for a random value in [0, 1), [calculateWinningNumber] returns a
    digit, and the stakes of the bets that win on it are not more than the
    stakes of the bets that win on any other digit. *)
Theorem calculateWinningNumber_least_staked (random : Qc) (roundId : string) (db : DB) :
  prisma.bet_findMany roundId db ≠ [] →
  0 ≤ random → random < 1 →
  ∃ number,
    GameService.calculateWinningNumber random roundId db = Some number
    ∧ ∀ other, stakeWinningOn number (prisma.bet_findMany roundId db)
               ≤ stakeWinningOn other (prisma.bet_findMany roundId db).
Proof.
  intros Hbets Hlo Hhi. unfold GameService.calculateWinningNumber.
  set (bets := prisma.bet_findMany roundId db) in *.
  rewrite decide_False by (rewrite length_fmap; by destruct bets).
  set (numberBets := foldl GameService.addToNumberBets (λ _, 0) bets.*2).
  assert (∀ i, numberBets i = stakeWinningOn i bets) as Hstake.
  { intros i. unfold numberBets. rewrite numberBets_stakeWinningOn. ring. }
  change (foldl (GameService.minimumStep numberBets) (None, []) all_digits)
    with (foldl (GameService.minimumStep numberBets) (Some (numberBets D0), [D0])
            [D1; D2; D3; D4; D5; D6; D7; D8; D9]).
  destruct (minimumStep_fold numberBets [D1; D2; D3; D4; D5; D6; D7; D8; D9]
              (numberBets D0) [D0])
    as (m & ws & -> & Hne & Hws & Hle & Hall); [done|by constructor|].
  simpl.
  destruct (lookup_lt_is_Some_2 ws
              (Z.to_nat (Math_floor (random * Q2Qc (inject_Z (Z.of_nat (length ws)))))))
    as [number Hnumber].
  { apply random_index_in_range; [done..|]. destruct ws; [done|simpl; lia]. }
  exists number. split; [done|].
  intros other. rewrite <- !Hstake.
  rewrite Forall_forall in Hws. rewrite (Hws number) by by eapply list_elem_of_lookup_2.
  destruct other; first [exact Hle | rewrite Forall_forall in Hall; apply Hall; set_solver].
Qed.

(** ** Relations kept by every computation *)

Section PreservationFacts.
Context (R : relation DB) `{!PreOrder R}.

Lemma preservesAt_mret {A : Type} (db : DB) (a : A) : preservesAt R db (mret a).
Proof. unfold preservesAt. simpl. reflexivity. Qed.

Lemma preservesAt_throw {A : Type} (db : DB) (e : Message) :
  preservesAt R db (throw e : Async A).
Proof. unfold preservesAt. simpl. reflexivity. Qed.

Lemma preservesAt_gets {A : Type} (db : DB) (f : DB → A) : preservesAt R db (gets f).
Proof. unfold preservesAt. simpl. reflexivity. Qed.

Lemma preservesAt_bind {A B : Type} (db : DB) (m : Async A) (k : A → Async B) :
  preservesAt R db m →
  (∀ a db1, m db = (Return a, db1) → preservesAt R db1 (k a)) →
  preservesAt R db (m ≫= k).
Proof.
  unfold preservesAt, mbind, Async_bind. intros Hm Hk.
  destruct (m db) as [[a|e] db1] eqn:E; [|done].
  etrans; [exact Hm|]. by apply Hk.
Qed.

Lemma preservesAt_gets_bind {A B : Type} (db : DB) (f : DB → A) (k : A → Async B) :
  preservesAt R db (k (f db)) → preservesAt R db (gets f ≫= k).
Proof. done. Qed.

Lemma returnsIn_preservesAt {A : Type} (db : DB) (m : Async A) :
  preservesAt R db m → returnsIn R db m.
Proof. unfold preservesAt. intros Hm a db' E. by rewrite E in Hm. Qed.

Lemma returnsIn_bind {A B : Type} (db : DB) (m : Async A) (k : A → Async B) :
  returnsIn R db m →
  (∀ a db1, m db = (Return a, db1) → returnsIn R db1 (k a)) →
  returnsIn R db (m ≫= k).
Proof.
  unfold returnsIn, mbind, Async_bind. intros Hm Hk b db'.
  destruct (m db) as [[a|e] db1] eqn:E; [|done].
  intros Hb. etrans; [by eapply Hm|]. by eapply Hk.
Qed.

Lemma preservesAt_transaction {A : Type} (db : DB) (body : Async A) :
  returnsIn R db body → preservesAt R db (transaction body).
Proof.
  unfold returnsIn, preservesAt, transaction. intros Hbody.
  destruct (body db) as [[a|e] db1] eqn:E; simpl; [by eapply Hbody|reflexivity].
Qed.

Lemma preservesAt_try_catch (db : DB) (body : Async unit) :
  preservesAt R db body → preservesAt R db (try_catch body).
Proof.
  unfold preservesAt, try_catch. by destruct (body db) as [[a|e] db1].
Qed.

Lemma preservesAt_for_of {A : Type} (l : list A) (body : A → Async unit) (db : DB) :
  (∀ x db, x ∈ l → preservesAt R db (body x)) → preservesAt R db (for_of l body).
Proof.
  revert db. induction l as [|x l IH]; intros db Hbody; [apply preservesAt_mret|].
  simpl. apply preservesAt_bind; [apply Hbody, list_elem_of_here|].
  intros _ db1 _. apply IH. intros y db2 Hy. apply Hbody. by apply list_elem_of_further.
Qed.

Lemma returnsIn_for_of {A : Type} (l : list A) (body : A → Async unit) (db : DB) :
  (∀ x db, x ∈ l → returnsIn R db (body x)) → returnsIn R db (for_of l body).
Proof.
  revert db. induction l as [|x l IH]; intros db Hbody.
  { apply returnsIn_preservesAt, preservesAt_mret. }
  simpl. apply returnsIn_bind; [apply Hbody, list_elem_of_here|].
  intros _ db1 _. apply IH. intros y db2 Hy. apply Hbody. by apply list_elem_of_further.
Qed.

Lemma runAll_preserved (ops : list Operation) (db : DB) :
  (∀ op db, R db (run op db)) → R db (runAll ops db).
Proof.
  intros Hrun. revert db. induction ops as [|op ops IH]; intros db; [reflexivity|].
  simpl. etrans; [apply (Hrun op)|apply IH].
Qed.

End PreservationFacts.

(** One step through a computation built from binds, conditionals and
    loops; [leaf] closes the calls of the client. *)
Ltac preserve_with leaf :=
  lazymatch goal with
  | |- preservesAt _ _ (if decide ?P then _ else _) => destruct (decide P)
  | |- preservesAt _ _ (mret _) => apply preservesAt_mret; apply _
  | |- preservesAt _ _ (throw _) => apply preservesAt_throw; apply _
  | |- preservesAt _ _ (gets _ ≫= _) => apply preservesAt_gets_bind
  | |- preservesAt _ _ (_ ≫= _) => apply preservesAt_bind; [apply _| |intros ? ? ?]
  | |- preservesAt _ _ (try_catch _) => apply preservesAt_try_catch
  | |- preservesAt _ _ (for_of _ _) => apply preservesAt_for_of; [apply _|intros [? ?] ? ?]
  | |- _ => leaf
  end.

(** ** The rows of [game_rounds] under the service calls *)

#[global] Instance rowEvolves_PreOrder : PreOrder rowEvolves.
Proof.
  split.
  - intros r. unfold rowEvolves. tauto.
  - intros a b c (Hp & Hs & Hd & Hc) (Hp' & Hs' & Hd' & Hc'). split_and!.
    + by rewrite Hp'.
    + by rewrite Hs'.
    + auto.
    + auto.
Qed.

#[global] Instance roundsEvolve_PreOrder : PreOrder roundsEvolve.
Proof.
  split.
  - intros db id round Hround. by exists round.
  - intros a b c Hab Hbc id round'' Hc.
    destruct (Hbc id round'' Hc) as (round' & Hb & Hrow').
    destruct (Hab id round' Hb) as (round & Ha & Hrow).
    exists round. split; [done|]. by etrans.
Qed.

Lemma roundsEvolve_subseteq (db db' : DB) :
  gameRounds db' ⊆ gameRounds db → roundsEvolve db db'.
Proof.
  intros Hsub id round' Hround'. exists round'. split; [|done].
  by eapply lookup_weaken.
Qed.

Lemma roundsEvolve_frame (db db' : DB) :
  gameRounds db' = gameRounds db → roundsEvolve db db'.
Proof. intros Heq. apply roundsEvolve_subseteq. by rewrite Heq. Qed.

Lemma roundsEvolve_update (id : string) (data : GameRound.t → GameRound.t) (db : DB) :
  (∀ round, gameRounds db !! id = Some round → rowEvolves round (data round)) →
  preservesAt roundsEvolve db (prisma.gameRound_update id data).
Proof.
  intros Hdata. unfold preservesAt, prisma.gameRound_update. rewrite bind_gets.
  destruct (gameRounds db !! id) as [round|] eqn:Hround; [|reflexivity].
  change ((modify (set_gameRounds (insert id (data round)));; mret (data round)) db).2
    with (set_gameRounds (insert id (data round)) db).
  intros id' round' Hround'. simpl in Hround'.
  destruct (decide (id' = id)) as [->|Hne].
  - rewrite lookup_insert_eq in Hround'. injection Hround' as <-.
    exists round. split; [done|]. by apply Hdata.
  - rewrite lookup_insert_ne in Hround' by done. by exists round'.
Qed.

Lemma roundsEvolve_bet_update (id : string) (data : Bet.t → Bet.t) (db : DB) :
  preservesAt roundsEvolve db (prisma.bet_update id data).
Proof.
  unfold preservesAt, prisma.bet_update. rewrite bind_gets.
  by destruct (bets db !! id); apply roundsEvolve_frame.
Qed.

Lemma roundsEvolve_bet_create (id : string) (row : Bet.t) (db : DB) :
  preservesAt roundsEvolve db (prisma.bet_create id row).
Proof.
  unfold preservesAt, prisma.bet_create. rewrite bind_gets.
  by destruct (bets db !! id); apply roundsEvolve_frame.
Qed.

Lemma roundsEvolve_wallet_increment (userId : string) (a : Qc) (db : DB) :
  preservesAt roundsEvolve db (prisma.wallet_increment userId a).
Proof.
  unfold preservesAt, prisma.wallet_increment. rewrite bind_gets.
  by destruct (wallets db !! userId); apply roundsEvolve_frame.
Qed.

Lemma roundsEvolve_wallet_decrement (userId : string) (a : Qc) (db : DB) :
  preservesAt roundsEvolve db (prisma.wallet_decrement userId a).
Proof.
  unfold preservesAt, prisma.wallet_decrement. rewrite bind_gets.
  by destruct (wallets db !! userId); apply roundsEvolve_frame.
Qed.

Lemma roundsEvolve_transaction_create (row : Transaction.t) (db : DB) :
  preservesAt roundsEvolve db (prisma.transaction_create row).
Proof. by apply roundsEvolve_frame. Qed.

Ltac roundsEvolve_leaf :=
  lazymatch goal with
  | |- preservesAt _ _ (transaction _) =>
      apply preservesAt_transaction; [apply _|apply returnsIn_preservesAt]
  | |- preservesAt _ _ (prisma.bet_update _ _) => apply roundsEvolve_bet_update
  | |- preservesAt _ _ (prisma.bet_create _ _) => apply roundsEvolve_bet_create
  | |- preservesAt _ _ (prisma.wallet_increment _ _) =>
      apply roundsEvolve_wallet_increment
  | |- preservesAt _ _ (prisma.wallet_decrement _ _) =>
      apply roundsEvolve_wallet_decrement
  | |- preservesAt _ _ (prisma.transaction_create _) =>
      apply roundsEvolve_transaction_create
  end.

Ltac preserve_step := preserve_with ltac:(idtac; roundsEvolve_leaf).

Lemma roundsEvolve_settlementUnit (id : string) (bet : Bet.t) (isWin : bool)
    (winAmount : Qc) (db : DB) :
  preservesAt roundsEvolve db (settlementUnit id bet isWin winAmount).
Proof.
  unfold settlementUnit. repeat preserve_step. destruct isWin; repeat preserve_step.
Qed.

Lemma roundsEvolve_settlementLoop (evaluate : Bet.t → bool * Qc)
    (l : list (string * Bet.t)) (db : DB) :
  preservesAt roundsEvolve db (settlementLoop evaluate l).
Proof.
  unfold settlementLoop. preserve_step.
  match goal with |- context [evaluate ?b] => destruct (evaluate b) end.
  apply roundsEvolve_settlementUnit.
Qed.

Lemma roundsEvolve_refundBet (period : string) (x : string * Bet.t) (db : DB) :
  preservesAt roundsEvolve db (GameAdminService.refundBet period x).
Proof.
  destruct x as [id bet]. unfold GameAdminService.refundBet.
  case_decide; repeat preserve_step.
Qed.

Lemma validateAdminResult_store (this : ProfitEngineService)
    (gameRoundId winningOption : string) (db : DB) :
  (validateAdminResult this gameRoundId winningOption db).2 = db.
Proof.
  unfold validateAdminResult. rewrite bind_gets.
  destruct (calculateAllResultsLiability this gameRoundId db); [|done].
  destruct (targetNumberOf winningOption); [|done].
  destruct (Array_find _ _); [|done].
  destruct (negb _); [done|]. by destruct (negb _).
Qed.

Lemma rowEvolves_storedCalculation (selectedResult : OptimalResult)
    (allCalculations : option Calculation.t) (round : GameRound.t) :
  rowEvolves round (storedCalculation selectedResult allCalculations round).
Proof. unfold rowEvolves, coherent. simpl. tauto. Qed.

Lemma rowEvolves_declaredByAdmin (now : Z) (adminId : string) (n : Digit) (c : Color)
    (z : Size) (calculation : option Calculation.t) (selected : option Candidate.t)
    (round : GameRound.t) :
  rowEvolves round
    (GameAdminService.declaredByAdmin now adminId n c z calculation selected round).
Proof. unfold rowEvolves, coherent. simpl. tauto. Qed.

Lemma rowEvolves_declaredBySystem (now : Z) (n : Digit)
    (profitData : option OptimalResult) (calculation : option Calculation.t)
    (round : GameRound.t) :
  rowEvolves round
    (GameAdminService.declaredBySystem now n profitData calculation round).
Proof. unfold rowEvolves, coherent. simpl. tauto. Qed.

Lemma rowEvolves_cancelledAt (now : Z) (round : GameRound.t) :
  GameRound.resultStatus round ≠ ResultStatus.DECLARED →
  rowEvolves round (GameAdminService.cancelledAt now round).
Proof. unfold rowEvolves, coherent. simpl. intros H. split_and!; try done. Qed.

Lemma rowEvolves_withStatus (status : RoundStatus.t) (round : GameRound.t) :
  status ≠ RoundStatus.RESULT_DECLARED →
  GameRound.status round ≠ RoundStatus.RESULT_DECLARED →
  rowEvolves round (GameAdminService.withStatus status round).
Proof.
  unfold rowEvolves, coherent. simpl. intros Hs Hr. split_and!; try done.
  intros Hc. split; [done|]. intros Hd. destruct Hr. by apply Hc.
Qed.

Lemma roundsEvolve_placeBet (newId userId : string) (betData : BetService.BetData)
    (db : DB) :
  preservesAt roundsEvolve db (BetService.placeBet newId userId betData).
Proof.
  unfold BetService.placeBet. preserve_step.
  destruct (prisma.gameRound_findUnique _ db); [|preserve_step].
  do 5 (preserve_step; [preserve_step|]).
  preserve_step. destruct (match prisma.wallet_findUnique userId db with
                           | Some _ => _ | None => _ end); [preserve_step|].
  preserve_step. destruct (prisma.bet_findFirst _ _ db); repeat preserve_step.
Qed.

Lemma roundsEvolve_cleanupOldRounds (db : DB) :
  preservesAt roundsEvolve db GameAdminService.cleanupOldRounds.
Proof.
  unfold preservesAt. rewrite cleanupOldRounds_Return. simpl.
  apply roundsEvolve_subseteq. simpl. apply map_filter_subseteq.
Qed.

Lemma roundsEvolve_declareResult (now : Z) (gameRoundId winningOption adminId : string)
    (db : DB) :
  preservesAt roundsEvolve db
    (GameAdminService.declareResult now gameRoundId winningOption adminId).
Proof.
  unfold GameAdminService.declareResult. preserve_step.
  destruct (prisma.gameRound_findUnique _ db); [|preserve_step].
  do 2 (preserve_step; [preserve_step|]).
  preserve_step.
  { apply roundsEvolve_frame. by rewrite validateAdminResult_store. }
  destruct (negb _); [preserve_step|].
  destruct (GameAdminService.parseWinningOption _) as [[[number color] size]|];
    [|preserve_step].
  preserve_step. preserve_step.
  { apply roundsEvolve_update. intros. apply rowEvolves_declaredByAdmin. }
  preserve_step; [apply roundsEvolve_settlementLoop|].
  preserve_step; [apply roundsEvolve_cleanupOldRounds|preserve_step].
Qed.

Lemma roundsEvolve_autoCalculateResult (now : Z) (random_digit random_index random : Qc)
    (gameRoundId : string) (db : DB) :
  preservesAt roundsEvolve db
    (GameAdminService.autoCalculateResult now random_digit random_index random
       gameRoundId).
Proof.
  unfold GameAdminService.autoCalculateResult. preserve_step.
  { apply roundsEvolve_frame. by rewrite calculateOptimalResult_store. }
  preserve_step. preserve_step.
  { unfold storeCalculationData. preserve_step. preserve_step; [|preserve_step].
    apply roundsEvolve_update. intros. apply rowEvolves_storedCalculation. }
  unfold GameAdminService.saveSystemResult. preserve_step.
  { apply roundsEvolve_update. intros. apply rowEvolves_declaredBySystem. }
  preserve_step; [apply roundsEvolve_settlementLoop|preserve_step].
Qed.

Lemma roundsEvolve_cancelRound (now : Z) (gameRoundId adminId : string) (db : DB) :
  preservesAt roundsEvolve db (GameAdminService.cancelRound now gameRoundId adminId).
Proof.
  unfold GameAdminService.cancelRound. preserve_step. preserve_step.
  unfold prisma.gameRound_findUnique.
  destruct (gameRounds db !! gameRoundId) as [round|] eqn:Hround; [|preserve_step].
  do 2 (preserve_step; [preserve_step|]).
  preserve_step; [|preserve_step]. preserve_step. preserve_step.
  - apply roundsEvolve_update. intros round0 Hround0.
    apply rowEvolves_cancelledAt. congruence.
  - preserve_step. apply (roundsEvolve_refundBet _ (_, _)).
Qed.

Lemma roundsEvolve_updateRoundStatus (gameRoundId : string) (status : RoundStatus.t)
    (db : DB) :
  preservesAt roundsEvolve db (GameAdminService.updateRoundStatus gameRoundId status).
Proof.
  unfold GameAdminService.updateRoundStatus.
  destruct (negb _) eqn:Hvalid; [preserve_step|].
  preserve_step. unfold prisma.gameRound_findUnique.
  destruct (gameRounds db !! gameRoundId) as [round|] eqn:Hround; [|preserve_step].
  do 2 (preserve_step; [preserve_step|]).
  apply roundsEvolve_update. intros round0 Hround0.
  assert (round0 = round) as -> by congruence.
  apply rowEvolves_withStatus; [|tauto].
  intros ->. by vm_compute in Hvalid.
Qed.

Lemma run_roundsEvolve (op : Operation) (db : DB) : roundsEvolve db (run op db).
Proof.
  destruct op; simpl.
  - apply roundsEvolve_placeBet.
  - apply roundsEvolve_declareResult.
  - apply roundsEvolve_autoCalculateResult.
  - apply roundsEvolve_cancelRound.
  - apply roundsEvolve_updateRoundStatus.
Qed.

(** X28.  Over any sequence of service calls, failing ones included, no round
    appears, every round keeps its period and start time, and a round whose
    result is declared stays declared as long as it exists. *)
Theorem declared_rounds_stay_declared (ops : list Operation) (db : DB) (id : string)
    (round' : GameRound.t) :
  gameRounds (runAll ops db) !! id = Some round' →
  ∃ round,
    gameRounds db !! id = Some round
    ∧ GameRound.period round' = GameRound.period round
    ∧ GameRound.startTime round' = GameRound.startTime round
    ∧ (GameRound.resultStatus round = ResultStatus.DECLARED →
       GameRound.resultStatus round' = ResultStatus.DECLARED).
Proof.
  intros Hround'.
  destruct (runAll_preserved roundsEvolve ops db run_roundsEvolve id round' Hround')
    as (round & Hround & Hp & Hs & Hd & _).
  by exists round.
Qed.

(** X29.  Over any sequence of service calls, failing ones included, status
    and result status stay coherent: when in every round the status is
    [RESULT_DECLARED] exactly if the result status is [DECLARED], the same
    holds afterwards. *)
Theorem round_status_coherent (ops : list Operation) (db : DB) :
  map_Forall (λ _ round, coherent round) (gameRounds db) →
  map_Forall (λ _ round, coherent round) (gameRounds (runAll ops db)).
Proof.
  intros Hcoherent id round' Hround'.
  destruct (runAll_preserved roundsEvolve ops db run_roundsEvolve id round' Hround')
    as (round & Hround & _ & _ & _ & Hc).
  by eapply Hc, Hcoherent.
Qed.

(** ** The ledger under the service calls *)

Lemma balanceChange_nil (userId : string) : balanceChange userId [] = 0.
Proof. reflexivity. Qed.

Lemma balanceChange_app (userId : string) (l1 l2 : list Transaction.t) :
  balanceChange userId (l1 ++ l2) = balanceChange userId l1 + balanceChange userId l2.
Proof. unfold balanceChange. by rewrite filter_app, fmap_app, sumQc_app. Qed.

Lemma balanceChange_singleton (userId : string) (t : Transaction.t) :
  balanceChange userId [t]
  = if decide (Transaction.userId t = userId) then signedAmount t else 0.
Proof.
  unfold balanceChange. rewrite filter_cons, filter_nil.
  case_decide; [|done]. unfold sumQc. simpl. ring.
Qed.

#[global] Instance accountedFor_PreOrder : PreOrder accountedFor.
Proof.
  split.
  - intros db. exists []. split; [by rewrite app_nil_r|].
    intros userId. destruct (wallets db !! userId); simpl; [|done].
    f_equal. rewrite balanceChange_nil. ring.
  - intros a b c (r1 & Hlog1 & Hw1) (r2 & Hlog2 & Hw2). exists (r1 ++ r2).
    split; [by rewrite Hlog2, Hlog1, app_assoc|].
    intros userId. rewrite Hw2, Hw1, balanceChange_app.
    destruct (wallets a !! userId); simpl; [|done]. f_equal. ring.
Qed.

Lemma accountedFor_frame (db db' : DB) :
  wallets db' = wallets db → transactions db' = transactions db → accountedFor db db'.
Proof.
  intros Hw Hlog. exists []. split; [by rewrite Hlog, app_nil_r|].
  intros userId. rewrite Hw. destruct (wallets db !! userId); simpl; [|done].
  f_equal. rewrite balanceChange_nil. ring.
Qed.

(** A payment into an existing or missing wallet together with its record. *)
Lemma accountedFor_payment (db db' : DB) (userId : string) (a : Qc) (t : Transaction.t) :
  Transaction.userId t = userId → signedAmount t = a →
  wallets db' = alter (λ balance, balance + a) userId (wallets db) →
  transactions db' = transactions db ++ [t] →
  accountedFor db db'.
Proof.
  intros Huser Hsigned Hw Hlog. exists [t]. split; [done|].
  intros user. rewrite Hw, balanceChange_singleton, Huser, Hsigned.
  case_decide as Hu.
  - subst user. rewrite lookup_alter_eq. by destruct (wallets db !! userId).
  - rewrite lookup_alter_ne by done. destruct (wallets db !! user); simpl; [|done].
    f_equal. ring.
Qed.

Lemma accountedFor_applyEffect (e : Effect) (x : string * Bet.t) (db : DB) :
  (∀ a t, payment e = Some (a, t) →
          Transaction.userId t = Bet.userId x.2 ∧ signedAmount t = a) →
  accountedFor db (applyEffect e x db).
Proof.
  intros Hpay. unfold applyEffect.
  destruct (payment e) as [[a t]|] eqn:E.
  - destruct (Hpay a t eq_refl) as [Huser Hsigned].
    by eapply accountedFor_payment.
  - by apply accountedFor_frame.
Qed.

Lemma accountedFor_gameRound_update (id : string) (data : GameRound.t → GameRound.t)
    (db : DB) :
  preservesAt accountedFor db (prisma.gameRound_update id data).
Proof.
  unfold preservesAt, prisma.gameRound_update. rewrite bind_gets.
  by destruct (gameRounds db !! id); apply accountedFor_frame.
Qed.

Lemma accountedFor_settlementUnit (id : string) (bet : Bet.t) (isWin : bool)
    (winAmount : Qc) (db : DB) :
  preservesAt accountedFor db (settlementUnit id bet isWin winAmount).
Proof.
  unfold preservesAt. rewrite settlementUnit_outcome.
  case_decide; [|reflexivity]. apply accountedFor_applyEffect.
  intros a t. unfold settlementEffect. simpl. destruct isWin; [|done].
  by intros [= <- <-].
Qed.

Lemma accountedFor_refundBet (period : string) (x : string * Bet.t) (db : DB) :
  returnsIn accountedFor db (GameAdminService.refundBet period x).
Proof.
  intros a db' Hrun. rewrite (refundBet_Return _ _ _ _ _ Hrun).
  apply accountedFor_applyEffect. intros b t. unfold refundEffect.
  case_decide; [|done]. by intros [= <- <-].
Qed.

Lemma accountedFor_placeBet (newId userId : string) (betData : BetService.BetData)
    (db : DB) :
  preservesAt accountedFor db (BetService.placeBet newId userId betData).
Proof.
  unfold preservesAt.
  destruct (BetService.placeBet newId userId betData db) as [[entry|e] db'] eqn:Hrun.
  2:{ apply placeBet_rollback in Hrun. subst db'. reflexivity. }
  destruct (placeBet_Return_inv _ _ _ _ _ _ Hrun)
    as (-> & (gameRound & Hround & Hopen & Hpending) & (balance & Hwallet & Hamount)
        & Hfirst & Hfresh).
  rewrite (placeBet_Return _ _ _ _ _ _ Hround Hopen Hpending Hwallet Hamount Hfirst Hfresh)
    in Hrun.
  injection Hrun as <-. simpl.
  eapply (accountedFor_payment _ _ userId (- BetService.amount betData));
    [| |simpl|simpl; reflexivity]; [reflexivity..|].
  apply map_eq. intros user. destruct (decide (user = userId)) as [->|Hne].
  - by rewrite lookup_insert_eq, lookup_alter_eq, Hwallet.
  - by rewrite lookup_insert_ne, lookup_alter_ne.
Qed.

Ltac accountedFor_leaf :=
  lazymatch goal with
  | |- preservesAt _ _ (prisma.gameRound_update _ _) =>
      apply accountedFor_gameRound_update
  | |- preservesAt _ _ (settlementUnit _ _ _ _) => apply accountedFor_settlementUnit
  end.

Ltac account_step := preserve_with ltac:(idtac; accountedFor_leaf).

Lemma accountedFor_settlementLoop (evaluate : Bet.t → bool * Qc)
    (l : list (string * Bet.t)) (db : DB) :
  preservesAt accountedFor db (settlementLoop evaluate l).
Proof.
  unfold settlementLoop. account_step.
  match goal with |- context [evaluate ?b] => destruct (evaluate b) end.
  account_step.
Qed.

Lemma accountedFor_cleanupOldRounds (db : DB) :
  preservesAt accountedFor db GameAdminService.cleanupOldRounds.
Proof.
  unfold preservesAt. rewrite cleanupOldRounds_Return. by apply accountedFor_frame.
Qed.

Lemma accountedFor_declareResult (now : Z) (gameRoundId winningOption adminId : string)
    (db : DB) :
  preservesAt accountedFor db
    (GameAdminService.declareResult now gameRoundId winningOption adminId).
Proof.
  unfold GameAdminService.declareResult. account_step.
  destruct (prisma.gameRound_findUnique _ db); [|account_step].
  do 2 (account_step; [account_step|]).
  account_step.
  { unfold preservesAt. rewrite validateAdminResult_store. reflexivity. }
  destruct (negb _); [account_step|].
  destruct (GameAdminService.parseWinningOption _) as [[[number color] size]|];
    [|account_step].
  account_step. account_step; [account_step|].
  account_step; [apply accountedFor_settlementLoop|].
  account_step; [apply accountedFor_cleanupOldRounds|account_step].
Qed.

Lemma accountedFor_autoCalculateResult (now : Z)
    (random_digit random_index random : Qc) (gameRoundId : string) (db : DB) :
  preservesAt accountedFor db
    (GameAdminService.autoCalculateResult now random_digit random_index random
       gameRoundId).
Proof.
  unfold GameAdminService.autoCalculateResult. account_step.
  { unfold preservesAt. rewrite calculateOptimalResult_store. reflexivity. }
  account_step. account_step.
  { unfold storeCalculationData. do 3 account_step. }
  unfold GameAdminService.saveSystemResult. account_step; [account_step|].
  account_step; [apply accountedFor_settlementLoop|account_step].
Qed.

Lemma accountedFor_cancelRound (now : Z) (gameRoundId adminId : string) (db : DB) :
  preservesAt accountedFor db (GameAdminService.cancelRound now gameRoundId adminId).
Proof.
  unfold GameAdminService.cancelRound. account_step. account_step.
  destruct (prisma.gameRound_findUnique gameRoundId db) as [round|]; [|account_step].
  do 2 (account_step; [account_step|]).
  account_step; [|account_step].
  apply preservesAt_transaction; [apply _|].
  apply returnsIn_bind; [apply _| |intros ? ? ?].
  - apply returnsIn_preservesAt. account_step.
  - apply returnsIn_for_of; [apply _|]. intros x db' _. apply accountedFor_refundBet.
Qed.

Lemma accountedFor_updateRoundStatus (gameRoundId : string) (status : RoundStatus.t)
    (db : DB) :
  preservesAt accountedFor db (GameAdminService.updateRoundStatus gameRoundId status).
Proof.
  unfold GameAdminService.updateRoundStatus.
  destruct (negb _); [account_step|].
  account_step.
  destruct (prisma.gameRound_findUnique gameRoundId db) as [round|]; [|account_step].
  do 2 (account_step; [account_step|]). account_step.
Qed.

Lemma run_accountedFor (op : Operation) (db : DB) : accountedFor db (run op db).
Proof.
  destruct op; simpl.
  - apply accountedFor_placeBet.
  - apply accountedFor_declareResult.
  - apply accountedFor_autoCalculateResult.
  - apply accountedFor_cancelRound.
  - apply accountedFor_updateRoundStatus.
Qed.

(** X30.  The transaction log accounts for every balance.  Over any sequence
    of service calls, failing ones included, the log only grows, no wallet
    appears or disappears, and every balance changes by exactly the signed
    amounts of the records appended for its user: stakes placed count
    negative, wins and refunds positive. *)
Theorem balances_accounted_for (ops : list Operation) (db : DB) :
  ∃ records,
    transactions (runAll ops db) = transactions db ++ records
    ∧ ∀ userId, wallets (runAll ops db) !! userId
        = (λ balance, balance + balanceChange userId records) <$> wallets db !! userId.
Proof. apply (runAll_preserved accountedFor ops db run_accountedFor). Qed.

(** ** The further theorems at concrete rounds *)


Lemma placeBet_twice_rejected_witness :
  ∃ balance1,
    wallets Scenario.placedStore !! "u2" = Some balance1
    ∧ BetService.placeBet "b3" "u2" (BetService.mkBetData "r1" COLOR "red" (dec 20 1))
        Scenario.placedStore
      = (Throw (Text (if decide (balance1 < dec 20 1)
                      then "Insufficient balance"
                      else "You have already placed a bet on this round")),
         Scenario.placedStore).
Proof.
  apply (placeBet_twice_rejected "b2" "b3" "u2" Scenario.numberBetData
           (BetService.mkBetData "r1" COLOR "red" (dec 20 1))
           Scenario.fundedStore Scenario.placedStore
           ("b2", placedBet "u2" Scenario.numberBetData)); by_evaluation.
Defined.

Lemma placeBet_potentialWin_paid_witness :
  (evaluateBetWithResult D7 (NUMBER_COLORS D7) (NUMBER_SIZES D7)
     (placedBet "u2" Scenario.numberBetData)).2
  = Bet.potentialWin (placedBet "u2" Scenario.numberBetData).
Proof.
  apply (placeBet_potentialWin_paid "b2" "u2" Scenario.numberBetData
           Scenario.fundedStore Scenario.placedStore "b2"
           (placedBet "u2" Scenario.numberBetData) D7); by_evaluation.
Defined.

Lemma placeBet_cancelRound_restores_witness :
  ∃ reply db2,
    GameAdminService.cancelRound 40 "r1" "admin" Scenario.placedStore
    = (Return reply, db2)
    ∧ wallets db2 !! "u2" = wallets Scenario.fundedStore !! "u2"
    ∧ Bet.result <$> bets db2 !! "b2" = Some BetResult.CANCELLED.
Proof.
  destruct (placeBet_cancelRound_restores 40 "b2" "u2" "admin" Scenario.numberBetData
              Scenario.fundedStore Scenario.placedStore
              ("b2", placedBet "u2" Scenario.numberBetData))
    as (reply & db2 & Hrun & Hsame & _ & Hcancelled); [by_evaluation..|].
  exists reply, db2. exact (conj Hrun (conj Hsame Hcancelled)).
Defined.

Lemma updateRoundStatus_controls_betting_witness :
  GameRound.status Scenario.pausedRound = RoundStatus.PAUSED
  ∧ gameRounds Scenario.pausedFundedStore !! "r1" = Some Scenario.pausedRound
  ∧ ∃ message,
      BetService.placeBet "b2" "u2" Scenario.numberBetData Scenario.pausedFundedStore
      = (Throw message, Scenario.pausedFundedStore).
Proof.
  apply (updateRoundStatus_controls_betting "r1" RoundStatus.PAUSED
           Scenario.fundedStore Scenario.pausedFundedStore Scenario.pausedRound
           "b2" "u2" Scenario.numberBetData (dec 500 1)); by_evaluation.
Defined.

Lemma declareResult_invalid_option_witness :
  GameAdminService.declareResult 30 "r1" "purple" "admin" Scenario.greenStore
  = (Throw (Text (if decide (prisma.bet_findMany "r1" Scenario.greenStore = [])
                  then "Invalid winning option. Must be 0-9, GREEN, RED, VIOLET, BIG, or SMALL"
                  else "Invalid winning option")),
     Scenario.greenStore).
Proof.
  apply (declareResult_invalid_option 30 "r1" "purple" "admin" Scenario.greenStore
           Scenario.openRound); by_evaluation.
Defined.

Lemma declareResult_declares_witness :
  ∃ reply db',
    GameAdminService.declareResult 30 "r1" "1" "admin" Scenario.twoBets
    = (Return reply, db')
    ∧ GameAdminService.winningNumber reply = D1
    ∧ transactions db'
      = transactions Scenario.twoBets
        ++ wonTransactions (evaluateBetWithResult D1 (NUMBER_COLORS D1) (NUMBER_SIZES D1))
             (prisma.bet_findMany "r1" Scenario.twoBets).
Proof.
  destruct (declareResult_declares 30 "r1" "1" "admin" Scenario.twoBets
              Scenario.openRound D1)
    as (reply & round' & db2 & db' & Hrun & _ & Hnumber & _ & _ & _ & _ & _ & _ & _
        & _ & _ & _ & _ & _ & _ & _ & Hlog);
    [by_evaluation..|].
  exists reply, db'. exact (conj Hrun (conj Hnumber Hlog)).
Defined.


Lemma processBetsWithResult_settles_witness :
  ∃ db',
    GameAdminService.processBetsWithResult "r1" D1 GREEN SMALL Scenario.threeBets
    = (Return (), db')
    ∧ Forall (λ x, Bet.result x.2 = BetResult.WON ∨ Bet.result x.2 = BetResult.LOST)
        (prisma.bet_findMany "r1" db').
Proof.
  destruct (processBetsWithResult_settles "r1" D1 GREEN SMALL Scenario.threeBets)
    as (db' & Hrun & _ & _ & Hsettled & _); [by_evaluation|].
  exists db'. exact (conj Hrun Hsettled).
Defined.

Lemma processBetsWithResult_stops_at_missing_wallet_witness :
  ∃ db',
    GameAdminService.processBetsWithResult "r1" D2 RED SMALL Scenario.orphanStore
    = (Throw P2025, db')
    ∧ Forall (λ y, bets db' !! y.1 = Some y.2)
        [("b2", Scenario.colorBet "u9" "RED" 10)].
Proof.
  destruct (processBetsWithResult_stops_at_missing_wallet "r1" D2 RED SMALL
              Scenario.orphanStore [("b1", Scenario.colorBet "u1" "RED" 100)] []
              ("b2", Scenario.colorBet "u9" "RED" 10))
    as (db' & Hrun & _ & _ & Hafter); [by_evaluation..|].
  exists db'. exact (conj Hrun Hafter).
Defined.

Lemma selectWeightedResult_with_profitable_witness :
  ∃ c,
    selected (selectWeightedResult profitEngine Scenario.greenRanking (dec 40 100)
                (dec 95 100)) = Some c
    ∧ c ∈ Calculation.results Scenario.greenRanking
    ∧ Candidate.isAcceptable c = true.
Proof.
  apply (selectWeightedResult_with_profitable profitEngine Scenario.greenRanking
           (dec 40 100) (dec 95 100)); by_evaluation.
Defined.

Lemma selectWeightedResult_high_profit_witness :
  ∃ c,
    selectWeightedResult profitEngine Scenario.threeBetsRanking (dec 40 100) (dec 10 100)
    = mkSelection (Some c) (Some "HIGH_PROFIT")
        (Some (Calculation.results Scenario.threeBetsRanking))
    ∧ Calculation.results Scenario.threeBetsRanking !! 0%nat = Some c
    ∧ Candidate.isAcceptable c = true
    ∧ Candidate.isProfitable c = true
    ∧ Forall (λ c', Candidate.profit c' ≤ Candidate.profit c)
        (Calculation.results Scenario.threeBetsRanking).
Proof.
  apply (selectWeightedResult_high_profit profitEngine (dec 40 100) (dec 10 100) "r1"
           Scenario.threeBets Scenario.threeBetsRanking); by_evaluation.
Defined.


Lemma best_candidate_never_loses_witness :
  ∃ calc top,
    calculateAllResultsLiability profitEngine "r1" Scenario.threeBets = Some calc
    ∧ Calculation.results calc !! 0%nat = Some top
    ∧ 0 ≤ Candidate.profit top
    ∧ Candidate.isAcceptable top = true.
Proof.
  destruct (best_candidate_never_loses "r1" Scenario.threeBets)
    as (calc & top & Hcalc & Hfirst & Hprofit & Hacc & _); [by_evaluation..|].
  exists calc, top. exact (conj Hcalc (conj Hfirst (conj Hprofit Hacc))).
Defined.


Lemma previewResultCalculation_recommends_top_witness :
  ∃ totalCollection totalBets recommended allResults,
    GameAdminService.previewResultCalculation "r1" Scenario.threeBets
    = (Return (GameAdminService.PreviewOf totalCollection totalBets recommended
                 allResults), Scenario.threeBets)
    ∧ Forall (λ r, GameAdminService.preview_profit r
                   ≤ GameAdminService.recommended_profit recommended) allResults.
Proof.
  destruct (previewResultCalculation_recommends_top "r1" Scenario.threeBets)
    as (total & n & recommended & allResults & Hrun & _ & _ & _ & _ & Hmax);
    [by_evaluation|].
  exists total, n, recommended, allResults. exact (conj Hrun Hmax).
Defined.

Lemma calculateResultAnalysis_agrees_witness :
  Forall2 agrees
    (RiskDashboardService.calculateResultAnalysis
       (prisma.bet_findMany "r1" Scenario.threeBets)
       (Calculation.totalCollection Scenario.threeBetsRanking))
    (Calculation.results Scenario.threeBetsRanking)
  ∧ RiskDashboardService.number
      <$> RiskDashboardService.calculateResultAnalysis
            (prisma.bet_findMany "r1" Scenario.threeBets)
            (Calculation.totalCollection Scenario.threeBetsRanking)
    = Candidate.number <$> Calculation.results Scenario.threeBetsRanking.
Proof.
  apply (calculateResultAnalysis_agrees profitEngine "r1" Scenario.threeBets
           Scenario.threeBetsRanking); by_evaluation.
Defined.

Lemma getRecommendedResult_previewResultCalculation_witness :
  ∃ recommended dashboard,
    RiskDashboardService.getRecommendedResult
      (RiskDashboardService.calculateResultAnalysis
         (prisma.bet_findMany "r1" Scenario.threeBets)
         (Calculation.totalCollection Scenario.threeBetsRanking))
    = Return dashboard
    ∧ RiskDashboardService.recommendation_number
        (RiskDashboardService.recommended dashboard)
      = GameAdminService.recommended_number recommended
    ∧ RiskDashboardService.recommendation_profit
        (RiskDashboardService.recommended dashboard)
      = GameAdminService.recommended_profit recommended.
Proof.
  destruct (getRecommendedResult_previewResultCalculation "r1" Scenario.threeBets
              Scenario.threeBetsRanking)
    as (n & recommended & allResults & dashboard & _ & Hrun & Hnumber & Hprofit & _);
    [by_evaluation|].
  exists recommended, dashboard. exact (conj Hrun (conj Hnumber Hprofit)).
Defined.

Lemma calculateWinningNumber_least_staked_witness :
  ∃ number,
    GameService.calculateWinningNumber (dec 50 100) "r1" Scenario.threeBets = Some number
    ∧ ∀ other, stakeWinningOn number (prisma.bet_findMany "r1" Scenario.threeBets)
               ≤ stakeWinningOn other (prisma.bet_findMany "r1" Scenario.threeBets).
Proof.
  apply (calculateWinningNumber_least_staked (dec 50 100) "r1" Scenario.threeBets);
    by_evaluation.
Defined.

Lemma declared_rounds_stay_declared_witness :
  ∃ round,
    gameRounds Scenario.fundedStore !! "r1" = Some round
    ∧ GameRound.period Scenario.roundAfterCalls = GameRound.period round
    ∧ GameRound.startTime Scenario.roundAfterCalls = GameRound.startTime round
    ∧ (GameRound.resultStatus round = ResultStatus.DECLARED →
       GameRound.resultStatus Scenario.roundAfterCalls = ResultStatus.DECLARED).
Proof.
  apply (declared_rounds_stay_declared Scenario.calls Scenario.fundedStore "r1"
           Scenario.roundAfterCalls); by_evaluation.
Defined.

Lemma round_status_coherent_witness :
  map_Forall (λ _ round, coherent round)
    (gameRounds (runAll Scenario.calls Scenario.fundedStore)).
Proof.
  apply (round_status_coherent Scenario.calls Scenario.fundedStore); by_evaluation.
Defined.
